(** * ppdire: projection pursuit dimension reduction by grid search

    A shallow embedding of [src/ppdire/ppdire.py] (class [ppdire]:
    [__init__], [_gridplane], [_gridplane_2], [fit], [predict],
    [transform]) and the
    properties of its grid search, pairwise reducer and deflation loop.

    Numbers are real numbers: every NumPy float is read as the real it
    approximates, so the statements below are the exact-arithmetic content
    of the code.  A matrix is the list of its columns, the way the code
    slices it ([E[:,k]] is the [k]-th element); an [n x 1] matrix is a
    vector.  Python exceptions are values of [exn]; the object [self] and
    the log of calls are threaded through a state-and-error monad.

    Line 455 of the source ([if self.center_data:]) stands two columns
    to the left of the body of [fit]; it is read as a statement of that
    body, which the lines after it continue. *)

From Stdlib Require Import Reals ZArith String Lia Lra Bool Arith List.
Import ListNotations.
Local Open Scope R_scope.

(** ** Vectors and matrices *)

Definition vec := list R.

(** Column-major: [nth k A []] is [A[:,k]]. *)
Definition matrix := list vec.

Fixpoint dot (u v : vec) : R :=
  match u, v with
  | a :: u', b :: v' => a * b + dot u' v'
  | _, _ => 0
  end.

Definition vscale (c : R) (v : vec) : vec := map (fun x => x * c) v.

Fixpoint vadd (u v : vec) : vec :=
  match u, v with
  | a :: u', b :: v' => (a + b) :: vadd u' v'
  | _, _ => []
  end.

Fixpoint vsub (u v : vec) : vec :=
  match u, v with
  | a :: u', b :: v' => (a - b) :: vsub u' v'
  | _, _ => []
  end.

Fixpoint vmul (u v : vec) : vec :=
  match u, v with
  | a :: u', b :: v' => (a * b) :: vmul u' v'
  | _, _ => []
  end.

Definition zeros (n : nat) : vec := repeat 0 n.

Definition ncols (A : matrix) : nat := length A.
Definition nrows (A : matrix) : nat := length (hd [] A).

(** [X.shape] as [(n, p)]. *)
Definition shape (A : matrix) : nat * nat := (nrows A, ncols A).

Definition col (k : nat) (A : matrix) : vec := nth k A [].

(** [A * w] for a matrix [A] and a column [w]: the combination of the
    columns of [A] with the entries of [w]. *)
Fixpoint lincomb (n : nat) (A : matrix) (w : vec) : vec :=
  match A, w with
  | c :: A', wj :: w' => vadd (vscale wj c) (lincomb n A' w')
  | _, _ => zeros n
  end.

Definition mat_vec (A : matrix) (w : vec) : vec := lincomb (nrows A) A w.

(** [A * B]. *)
Definition mat_mul (A B : matrix) : matrix := map (mat_vec A) B.

(** [A.T * t]. *)
Definition matT_vec (A : matrix) (t : vec) : vec := map (fun c => dot c t) A.

(** [A.T * B]. *)
Definition matT_mul (A B : matrix) : matrix := map (matT_vec A) B.

(** [np.sum(np.square(v))], [(v**2).sum()]. *)
Definition sumsq (v : vec) : R := dot v v.

(** [np.linalg.norm(v)]. *)
Definition norm (v : vec) : R := sqrt (sumsq v).

(** [A[:,i] = v] on a matrix allocated with [np.zeros]. *)
Fixpoint set_col (i : nat) (v : vec) (A : matrix) : matrix :=
  match A, i with
  | [], _ => []
  | _ :: A', O => v :: A'
  | c :: A', S i' => c :: set_col i' v A'
  end.

(** [v[i] = x]. *)
Fixpoint set_nth (i : nat) (x : R) (v : vec) : vec :=
  match v, i with
  | [], _ => []
  | _ :: v', O => x :: v'
  | a :: v', S i' => a :: set_nth i' x v'
  end.

(** ** NumPy helpers *)

(** [np.sign]. *)
Definition np_sign (x : R) : R :=
  if Rlt_dec 0 x then 1 else if Rlt_dec x 0 then -1 else 0.

(** [np.linspace(start, stop, num, endpoint)]: [num] samples
    [start + i * step] with [step = (stop - start) / div], where [div] is
    [num - 1] when the end point is included and [num] otherwise.  For
    [num = 1] with the end point included NumPy returns [[start]]; the
    only index is then [0], which gives [start] here as well. *)
Definition linspace (start stop : R) (num : nat) (endpoint : bool) : list R :=
  let div := if endpoint then (num - 1)%nat else num in
  map (fun i => start + INR i * ((stop - start) / INR div)) (seq 0 num).

(** [np.max] of a list; it raises [ValueError] on an empty one. *)
Definition np_max (l : list R) : option R :=
  match l with
  | [] => None
  | x :: l' => Some (fold_left Rmax l' x)
  end.

(** [np.where(meas == maximo)[0]], counting positions from [i]. *)
Fixpoint np_where_eq (l : list R) (m : R) (i : nat) : list nat :=
  match l with
  | [] => []
  | x :: l' =>
      if Req_dec_T x m then i :: np_where_eq l' m (S i)
      else np_where_eq l' m (S i)
  end.

(** ** Exceptions *)

Inductive exn : Type :=
| NameError (name : string)
| UnboundLocalError (name : string)
| AttributeError (what : string)
| KeyError (key : string)
| TypeError (what : string)
| ValueError (msg : string)
| OverflowError (msg : string)
| IndexError (msg : string)
| MyException (msg : string).

(** ** The projection index: an external collaborator

    [self.most.fit(vector, **kwargs)] returns a number.  The keyword
    arguments it is given differ from call to call, so they are part of
    its input. *)

Record ekw : Type := mk_ekw {
  e_alpha : option R;
  e_alphamat : option matrix;
  e_ndir : option nat;
  e_trimming : option R;
  e_biascorr : option (option bool);
  e_dmetric : option string;
  e_y : option vec;
  e_q : option vec
}.

Definition ekw_empty : ekw :=
  mk_ekw None None None None None None None None.

(** [len(pi_arguments) == 0]. *)
Definition ekw_is_empty (d : ekw) : bool :=
  match e_alpha d, e_alphamat d, e_ndir d, e_trimming d with
  | None, None, None, None =>
      match e_biascorr d, e_dmetric d, e_y d, e_q d with
      | None, None, None, None => true
      | _, _, _, _ => false
      end
  | _, _, _, _ => false
  end.

Definition evaluator : Type := vec -> ekw -> R.

(** The constructor arguments of the projection index
    ([self.pi_arguments]), by key. *)
Definition pi_config : Type := list (string * string).

Fixpoint lookup (k : string) (d : list (string * string)) : option string :=
  match d with
  | [] => None
  | (k', v) :: d' => if String.eqb k k' then Some v else lookup k d'
  end.

(** A projection-index class: its identity (what [==] compares) and its
    constructor. *)
Record pindex : Type := mk_pindex {
  pi_id : string;
  pi_new : pi_config -> evaluator
}.

(** ** The estimator object *)

Record params : Type := mk_params {
  projection_index : pindex;
  pi_arguments : pi_config;
  n_components : nat;
  trimming : R;
  alpha : R;
  center : string;
  center_data : bool;
  scale_data : bool;
  whiten_data : bool;
  square_pi : bool;
  copy : bool;
  verbose : bool;
  return_scaling_object : bool
}.

(** The five attributes [_stop0c], [_stop0s], [_stop1c], [_stop1s] and
    [optmax], always set together by consecutive [setattr] calls. *)
Record grid_cache : Type := mk_cache {
  _stop0c : R;
  _stop0s : R;
  _stop1c : R;
  _stop1s : R;
  optmax : R
}.

(** The state of [centring = robcent(center, scale)] after a [fit]. *)
Record robcent_obj : Type := mk_robcent {
  rc_center : string;
  rc_scale : string;
  rc_col_loc : vec;
  rc_col_sca : vec
}.

(** Attributes set at the end of [fit] when a response is present. *)
Record regression_attrs : Type := mk_regression {
  coef_ : matrix;
  intercept_ : R;
  coef_scaled_ : matrix;
  intercept_scaled_ : R;
  residuals_ : vec;
  fitted_ : vec;
  y_loadings_ : vec;
  y_loc_ : vec;
  y_sca_ : vec
}.

(** Attributes set at the end of every [fit]. *)
Record component_attrs : Type := mk_components {
  x_weights_ : matrix;
  x_loadings_ : matrix;
  x_rotations_ : matrix;
  x_scores_ : matrix;
  x_ev_ : vec;
  crit_values_ : vec;
  Maxobjf_ : vec;
  x_loc_ : vec;
  x_sca_ : vec;
  scaling : string
}.

Record ppdire : Type := mk_ppdire {
  par : params;
  constraint : string;
  optrange : R * R;
  licenter : list string;
  most : option evaluator;
  X0_ : option matrix;
  y0_ : option vec;
  cache : option grid_cache;
  regression : option regression_attrs;
  components : option component_attrs;
  whitening_ : option matrix;
  mixing_ : option matrix;
  scaling_object_ : option robcent_obj
}.

Definition set_par (s : ppdire) (q : params) : ppdire :=
  mk_ppdire q (constraint s) (optrange s) (licenter s) (most s) (X0_ s)
    (y0_ s) (cache s) (regression s) (components s) (whitening_ s)
    (mixing_ s) (scaling_object_ s).

Definition set_most (s : ppdire) (f : evaluator) : ppdire :=
  mk_ppdire (par s) (constraint s) (optrange s) (licenter s) (Some f)
    (X0_ s) (y0_ s) (cache s) (regression s) (components s) (whitening_ s)
    (mixing_ s) (scaling_object_ s).

Definition set_X0 (s : ppdire) (X : matrix) : ppdire :=
  mk_ppdire (par s) (constraint s) (optrange s) (licenter s) (most s)
    (Some X) (y0_ s) (cache s) (regression s) (components s) (whitening_ s)
    (mixing_ s) (scaling_object_ s).

Definition set_y0 (s : ppdire) (y : vec) : ppdire :=
  mk_ppdire (par s) (constraint s) (optrange s) (licenter s) (most s)
    (X0_ s) (Some y) (cache s) (regression s) (components s) (whitening_ s)
    (mixing_ s) (scaling_object_ s).

Definition set_cache (s : ppdire) (c : grid_cache) : ppdire :=
  mk_ppdire (par s) (constraint s) (optrange s) (licenter s) (most s)
    (X0_ s) (y0_ s) (Some c) (regression s) (components s) (whitening_ s)
    (mixing_ s) (scaling_object_ s).

Definition set_n_components (q : params) (h : nat) : params :=
  mk_params (projection_index q) (pi_arguments q) h (trimming q) (alpha q)
    (center q) (center_data q) (scale_data q) (whiten_data q) (square_pi q)
    (copy q) (verbose q) (return_scaling_object q).

(** [self.center_data = True; self.scale_data = False]. *)
Definition set_whitening_flags (q : params) : params :=
  mk_params (projection_index q) (pi_arguments q) (n_components q)
    (trimming q) (alpha q) (center q) true false (whiten_data q)
    (square_pi q) (copy q) (verbose q) (return_scaling_object q).


(** ** State, errors and the call log *)

Inductive event : Type :=
| Call_gridplane (X : matrix)
| Call_gridplane_2 (X : matrix) (q : R) (div : Z)
| Call_projection_index (cfg : pi_config)
| Printed (s : string)
| Printed_number (z : Z)
| Warned (s : string).

Record world : Type := mk_world {
  obj : ppdire;
  trace : list event
}.

Definition M (A : Type) : Type := world -> world * (exn + A).

Definition ret {A : Type} (a : A) : M A := fun w => (w, inr a).

Definition raise {A : Type} (e : exn) : M A := fun w => (w, inl e).

Definition bind {A B : Type} (m : M A) (k : A -> M B) : M B :=
  fun w =>
    match m w with
    | (w', inl e) => (w', inl e)
    | (w', inr a) => k a w'
    end.

Notation "x <- m ;; k" := (bind m (fun x => k))
  (at level 61, m at next level, right associativity).
Notation "m ;;; k" := (bind m (fun _ => k))
  (at level 61, right associativity).

Definition get_self : M ppdire := fun w => (w, inr (obj w)).

Definition put_self (s : ppdire) : M unit :=
  fun w => (mk_world s (trace w), inr tt).

Definition log (ev : event) : M unit :=
  fun w => (mk_world (obj w) (trace w ++ [ev]), inr tt).

(** Reading an attribute that may not have been set yet. *)
Definition getattr {A : Type} (name : string) (field : ppdire -> option A)
  : M A :=
  fun w =>
    match field (obj w) with
    | Some a => (w, inr a)
    | None => (w, inl (AttributeError name))
    end.

(** ** The angular grids *)

(** [np.matrix([np.cos(nangle), np.sin(nangle)])], one column per angle. *)
Definition direction (theta : R) : vec := [cos theta; sin theta].

Definition grid_matrix (nangle : list R) : matrix := map direction nangle.

(** [if optmax != 1: alphamat *= optmax]. *)
Definition rescale (optmax : R) (alphamat : matrix) : matrix :=
  if Req_dec_T optmax 1 then alphamat else map (vscale optmax) alphamat.

(** The four bounds computed from [np.sign(self.optrange)]. *)
Definition stop0s (s : ppdire) : R := asin (np_sign (fst (optrange s))).
Definition stop1s (s : ppdire) : R := asin (np_sign (snd (optrange s))).
Definition stop1c (s : ppdire) : R := acos (np_sign (fst (optrange s))).
Definition stop0c (s : ppdire) : R := acos (np_sign (snd (optrange s))).

(** The coarse grid of [_gridplane] and of the start of [fit]:
    open sampling of the sector between the larger bounds. *)
Definition coarse_angles (s : ppdire) (ndir : nat) : list R :=
  let anglestart := Rmax (stop0c s) (stop0s s) in
  let anglestop := Rmax (stop1c s) (stop1s s) in
  linspace anglestart anglestop ndir false.

Definition coarse_grid (s : ppdire) (ndir : nat) (optmax : R) : matrix :=
  rescale optmax (grid_matrix (coarse_angles s ndir)).

(** The grid of [_gridplane_2] and of [alphamat2] in [fit]: closed
    sampling of the sector between the smaller cached bounds. *)
Definition refine_angles (c : grid_cache) (ndir : nat) : list R :=
  let anglestart := Rmin (_stop0c c) (_stop0s c) in
  let anglestop := Rmin (_stop1c c) (_stop1s c) in
  linspace anglestart anglestop ndir true.

Definition refine_grid (c : grid_cache) (ndir : nat) : matrix :=
  rescale (optmax c) (grid_matrix (refine_angles c ndir)).

(** [divisor] and [alpha1] of [_gridplane_2], column by column. *)
Definition divisor (q : R) (a : vec) : R :=
  sqrt (1 + 2 * (nth 0 a 0 * nth 1 a 0) * q).

Definition reexpress (q : R) (a : vec) : vec :=
  map (fun x => x / divisor q a) a.

(** ** Keyword arguments of the grid helpers *)

(** [kwargs.pop(key, default)] and [kwargs.get(key, default)]. *)
Definition from_option {A : Type} (o : option A) (d : A) : A :=
  match o with
  | Some a => a
  | None => d
  end.

Record gp_kwargs : Type := mk_gp_kwargs {
  kw_alpha : option R;
  kw_alphamat : option matrix;
  kw_ndir : option nat;
  kw_trimming : option R;
  kw_biascorr : option bool;
  kw_dmetric : option string;
  kw_y : option vec;
  kw_optmax : option R
}.

(** The same dictionary, handed to the projection index as [**grid_args]. *)
Definition ekw_of_kwargs (kw : gp_kwargs) : ekw :=
  mk_ekw (kw_alpha kw) (kw_alphamat kw) (kw_ndir kw) (kw_trimming kw)
    (option_map Some (kw_biascorr kw)) (kw_dmetric kw) (kw_y kw) None.

(** [biascorr]: [False] when no dictionary has the key, else
    [kwargs.get('biascorr')], which is [None] when only [pi_arguments]
    has it. *)
Definition gp_biascorr (pa : ekw) (kw : gp_kwargs) : option bool :=
  match kw_biascorr kw, e_biascorr pa with
  | None, None => Some false
  | _, _ => kw_biascorr kw
  end.

(** [ndir]: [100] when no dictionary has the key, else
    [kwargs.get('ndir')]. *)
Definition gp_ndir (pa : ekw) (kw : gp_kwargs) : option nat :=
  match kw_ndir kw, e_ndir pa with
  | None, None => Some 100%nat
  | _, _ => kw_ndir kw
  end.

(** The dictionary handed to the projection index by the grid helpers. *)
Definition gp_pi_arguments (s : ppdire) (pa : ekw) (kw : gp_kwargs) : ekw :=
  let d :=
    if ekw_is_empty pa then
      mk_ekw (Some (alpha (par s))) None (gp_ndir pa kw)
        (Some (trimming (par s))) (Some (gp_biascorr pa kw))
        (Some "euclidean"%string) None None
    else
      mk_ekw (Some (alpha (par s))) (e_alphamat pa) (e_ndir pa)
        (Some (trimming (par s))) (e_biascorr pa) (e_dmetric pa) (e_y pa)
        (e_q pa) in
  match kw_y kw with
  | Some y =>
      mk_ekw (e_alpha d) (e_alphamat d) (e_ndir d) (e_trimming d)
        (e_biascorr d) (e_dmetric d) (Some y) (e_q d)
  | None => d
  end.

(** [self.most.fit(v, **pi_arguments)], squared when [square_pi]. *)
Definition index_value (s : ppdire) (f : evaluator) (d : ekw) (v : vec) : R :=
  if square_pi (par s) then (f v d) ^ 2 else f v d.

(** The list comprehension [meas]: [self.most] is only read when there
    is a direction to evaluate. *)
Definition measure (X : matrix) (d : ekw) (alphamat : matrix) (ndir : nat)
  : M (list R) :=
  s <- get_self ;;
  match ndir with
  | O => ret []
  | S _ =>
      f <- getattr "most" most ;;
      let tj := mat_mul X alphamat in
      ret (map (fun i => index_value s f d (col i tj)) (seq 0 ndir))
  end.

(** [maximo = np.max(meas)]; [indmax = np.where(meas == maximo)[0]];
    [if len(indmax) > 0: indmax = indmax[0]]; [wi = alphamat[:,indmax]].
    An empty [indmax] would select no column. *)
Definition select_max (meas : list R) (alphamat : matrix) : M (vec * R) :=
  match np_max meas with
  | None =>
      raise (ValueError
        "zero-size array to reduction operation maximum which has no identity")
  | Some maximo =>
      match np_where_eq meas maximo 0 with
      | indmax :: _ => ret (col indmax alphamat, maximo)
      | [] => ret ([], maximo)
      end
  end.

(** [X * alphamat] needs a block of two columns. *)
Definition check_plane (X : matrix) : M unit :=
  if (ncols X =? 2)%nat then ret tt
  else raise (ValueError "shapes not aligned").

(** ** [_gridplane]: grid search in a plane

    [(alphamat != None).all()] is an element-wise test when a matrix was
    passed, true of every entry, and an attribute error on the [bool]
    that [None != None] is when none was: with a matrix the grid is
    always generated afresh. *)
Definition _gridplane (X : matrix) (pi_arguments : ekw) (kwargs : gp_kwargs)
  : M (vec * R) :=
  log (Call_gridplane X) ;;;
  s <- get_self ;;
  let ndir := gp_ndir pi_arguments kwargs in
  let pi_arguments' := gp_pi_arguments s pi_arguments kwargs in
  let optmax := from_option (kw_optmax kwargs) (snd (optrange s)) in
  match kw_alphamat kwargs with
  | None => raise (AttributeError "'bool' object has no attribute 'all'")
  | Some _ =>
      match ndir with
      | None => raise (TypeError "ndir is None")
      | Some ndir =>
          let alphamat := coarse_grid s ndir optmax in
          check_plane X ;;;
          meas <- measure X pi_arguments' alphamat ndir ;;
          r <- select_max meas alphamat ;;
          put_self (set_cache s
            (mk_cache (stop0c s) (stop0s s) (stop1c s) (stop1s s) optmax)) ;;;
          ret r
      end
  end.

(** ** [_gridplane_2]: the refining grid search

    [div] is accepted and never read. *)
Definition _gridplane_2 (X : matrix) (q : R) (div : Z) (pi_arguments : ekw)
  (kwargs : gp_kwargs) : M (vec * R) :=
  log (Call_gridplane_2 X q div) ;;;
  s <- get_self ;;
  let ndir := gp_ndir pi_arguments kwargs in
  let pi_arguments' := gp_pi_arguments s pi_arguments kwargs in
  match kw_alphamat kwargs with
  | None => raise (AttributeError "'bool' object has no attribute 'all'")
  | Some _ =>
      c <- getattr "_stop0c" cache ;;
      match ndir with
      | None => raise (TypeError "ndir is None")
      | Some ndir =>
          let alphamat := refine_grid c ndir in
          let alpha1 := map (reexpress q) alphamat in
          check_plane X ;;;
          meas <- measure X pi_arguments' alpha1 ndir ;;
          select_max meas alpha1
      end
  end.

(** ** The pairwise dimension reducer (the [p > 2] branch of [fit]) *)

Fixpoint foldM {A S : Type} (f : A -> S -> M S) (l : list A) (s : S) : M S :=
  match l with
  | [] => ret s
  | a :: l' => s' <- f a s ;; foldM f l' s'
  end.

(** The running score [Zopt] and the running combination [afin]. *)
Record reducer_state : Type := mk_reducer {
  Zopt : vec;
  afin : vec
}.

(** [float(wi[0])] and [float(wi[1])]. *)
Definition w0 (wi : vec) : R := nth 0 wi 0.
Definition w1 (wi : vec) : R := nth 1 wi 0.

(** [v[0:k] = v[0:k] * c]. *)
Definition scale_prefix (k : nat) (c : R) (v : vec) : vec :=
  vscale c (firstn k v) ++ skipn k v.

(** [np.matrix([Zopt[:,0], Z[:,j]]).T]. *)
Definition projmat (Zc : matrix) (j : nat) (r : reducer_state) : matrix :=
  [Zopt r; col j Zc].

(** [Zopt*float(wi[0]) + Z[:,j]*float(wi[1])]. *)
Definition update_Zopt (Zc : matrix) (j : nat) (wi : vec) (r : reducer_state)
  : vec :=
  vadd (vscale (w0 wi) (Zopt r)) (vscale (w1 wi) (col j Zc)).

(** The seed step on the first two variables. *)
Definition seed (Zc : matrix) (p : nat) (grid_args : gp_kwargs)
  : M reducer_state :=
  let afin := zeros p in
  r <- _gridplane (firstn 2 Zc) ekw_empty grid_args ;;
  let wi := fst r in
  ret (mk_reducer (mat_vec (firstn 2 Zc) wi)
         (set_nth 1 (w1 wi) (set_nth 0 (w0 wi) afin))).

(** One pass of [for j in np.arange(2,p)]. *)
Definition fold_variable (Zc : matrix) (grid_args : gp_kwargs) (j : nat)
  (r : reducer_state) : M reducer_state :=
  res <- _gridplane (projmat Zc j r) ekw_empty grid_args ;;
  let wi := fst res in
  ret (mk_reducer (update_Zopt Zc j wi r)
         (set_nth j (w1 wi) (scale_prefix (j + 1) (w0 wi) (afin r)))).

(** [round(np.log2(maxiter))] for [maxiter >= 1]: the integer [k] with
    [2^(2k-1) <= maxiter^2 < 2^(2k+1)].  There is no tie to break, since
    [maxiter^2] is never an odd power of two. *)
Definition round_log2 (m : Z) : Z := (Z.log2 (m * m) + 1) / 2.

(** [maxiter_2j = 2**round(np.log2(maxiter))]; [np.log2] is [-inf] at
    zero and [nan] below, which [round] refuses. *)
Definition maxiter_2j (maxiter : Z) : M Z :=
  if (maxiter =? 0)%Z then
    raise (OverflowError "cannot convert float infinity to integer")
  else if (maxiter <? 0)%Z then
    raise (ValueError "cannot convert float NaN to integer")
  else ret (2 ^ round_log2 maxiter)%Z.

(** [divv] for variable [j]. *)
Definition divv (cap : Z) (j : nat) : Z :=
  if (16 <? j)%nat then cap else Z.min (2 ^ Z.of_nat j) cap.

(** One pass of [for j in np.arange(0,p)] inside the outer loop. *)
Definition refine_variable (Zc : matrix) (cap : Z) (grid_args_2 : gp_kwargs)
  (j : nat) (r : reducer_state) : M reducer_state :=
  res <- _gridplane_2 (projmat Zc j r) (nth j (afin r) 0) (divv cap j)
           ekw_empty grid_args_2 ;;
  let wi := fst res in
  let afin' := vscale (w0 wi) (afin r) in
  ret (mk_reducer (update_Zopt Zc j wi r)
         (set_nth j (nth j afin' 0 + w1 wi) afin')).

(** A full sweep over the variables. *)
Definition sweep (Zc : matrix) (p : nat) (cap : Z) (grid_args_2 : gp_kwargs)
  (r : reducer_state) : M reducer_state :=
  foldM (refine_variable Zc cap grid_args_2) (seq 0 p) r.

(** [afinbest] is a name: bound to the array [afin] itself, which later
    in-place updates of [afin] change as well, or to a new array. *)
Inductive best_ref : Type :=
| Alias
| Fresh (v : vec).

Definition best_value (b : best_ref) (afin : vec) : vec :=
  match b with
  | Alias => afin
  | Fresh v => v
  end.

Record loop_state : Type := mk_loop {
  red : reducer_state;
  objf : R;
  objfold : R;
  afinbest : best_ref;
  ii : Z
}.

(** [abs(objfold - objf)/abs(objf) > 1e-4] on NumPy scalars: a division
    by zero gives [nan] for [0/0], which compares false, and [inf]
    otherwise, which compares true. *)
Definition relative_change_large (objfold objf : R) : bool :=
  if Req_dec_T objf 0 then
    if Req_dec_T objfold objf then false else true
  else if Rgt_dec (Rabs (objfold - objf) / Rabs objf) 1e-4 then true
  else false.

(** The guard of the [while]. *)
Definition guard (maxiter : Z) (s : loop_state) : bool :=
  (ii s <? maxiter + 1)%Z && relative_change_large (objfold s) (objf s).

(** [afin/np.sqrt(np.sum(np.square(afin)))]. *)
Definition normalize (v : vec) : vec := map (fun x => x / sqrt (sumsq v)) v.

Definition with_q (d : ekw) (q : vec) : ekw :=
  mk_ekw (e_alpha d) (e_alphamat d) (e_ndir d) (e_trimming d)
    (e_biascorr d) (e_dmetric d) (e_y d) (Some q).

(** The body of the [while]. *)
Definition outer_body (Zc : matrix) (p : nat) (cap : Z)
  (grid_args grid_args_2 : gp_kwargs) (s : loop_state) : M loop_state :=
  r <- sweep Zc p cap grid_args_2 (red s) ;;
  self <- get_self ;;
  f <- getattr "most" most ;;
  let tj := mat_vec Zc (afin r) in
  let objfold' := objf s in
  let objf' :=
    index_value self f (with_q (ekw_of_kwargs grid_args) (afin r)) tj in
  let afinbest' :=
    if Req_dec_T objf' objfold' then afinbest s
    else if String.eqb (constraint self) "norm" then Fresh (normalize (afin r))
    else Alias in
  let ii' := (ii s + 1)%Z in
  (if verbose (par self) then log (Printed_number ii') else ret tt) ;;;
  ret (mk_loop r objf' objfold' afinbest' ii').


(** The [while] loop.  [ii] grows by one per pass and the guard requires
    [ii < maxiter + 1], so [maxiter + 1 - ii] passes of fuel are never
    used up while the guard still holds (see [while_sweeping_exit]). *)
Fixpoint while_sweeping (fuel : nat) (maxiter : Z)
  (body : loop_state -> M loop_state) (s : loop_state) : M loop_state :=
  match fuel with
  | O => ret s
  | S fuel' =>
      if guard maxiter s then
        s' <- body s ;; while_sweeping fuel' maxiter body s'
      else ret s
  end.

(** The branch [elif p > 2] of the component loop: seed, sequential
    fold, first objective, outer loop.  It returns [wi] and the value
    stored in [Maxobjf[i]], together with the final loop state.  The
    list [meas] of univariate index values computed at its start is
    never read and is left out.  [Zc] is the copy [Z] of the residual
    matrix [E].  After the loop the code rebinds [afinbest = afin] and
    returns that array as [wi]. *)
Definition pairwise_reducer (Zc : matrix) (p : nat) (maxiter : Z)
  (grid_args grid_args_2 : gp_kwargs) : M (vec * R * loop_state) :=
  r <- seed Zc p grid_args ;;
  r <- foldM (fold_variable Zc grid_args) (seq 2 (p - 2)) r ;;
  self <- get_self ;;
  f <- getattr "most" most ;;
  let tj := mat_vec Zc (afin r) in
  let objf0 := index_value self f (ekw_of_kwargs grid_args) tj in
  let s0 := mk_loop r (-1000) objf0 Alias 0%Z in
  cap <- maxiter_2j maxiter ;;
  s <- while_sweeping (Z.to_nat (maxiter + 1)) maxiter
         (outer_body Zc p cap grid_args grid_args_2) s0 ;;
  ret (afin (red s), objf s, s).

(** ** External collaborators of [fit] *)

Record collaborators : Type := mk_collaborators {
  (** [robcent(center, scale).fit(X, trimming)]: the transformed data,
      [col_loc_] and [col_sca_]. *)
  robcent_fit : string -> string -> matrix -> R -> matrix * vec * vec;
  (** [np.linalg.svd(A, full_matrices=False)]. *)
  svd : matrix -> matrix * vec * matrix;
  (** [scipy.linalg.pinv2] and [np.linalg.pinv]. *)
  pinv2 : matrix -> matrix;
  pinv : matrix -> matrix;
  (** [rm(fun, probp1, probp2, probp3, centre, scale, ..., verbose)
      .fit(ti, ys)], then [coef_]. *)
  rm_fit : string -> R -> R -> R -> string -> string -> bool ->
           vec -> vec -> R;
  (** [QuantReg(y, ti).fit(q=quantile).params]. *)
  quantreg_fit : vec -> vec -> R -> R;
  (** [scipy.stats.trim_mean] and [np.median]. *)
  trim_mean : vec -> R -> R;
  median : vec -> R
}.

(** ** More matrix helpers used by [fit] *)

(** [A.T]. *)
Definition transpose (A : matrix) : matrix :=
  map (fun i => map (fun c => nth i c 0) A) (seq 0 (nrows A)).

(** [np.diag(S)]. *)
Definition np_diag (Sv : vec) : matrix :=
  map (fun j => set_nth j (nth j Sv 0) (zeros (length Sv)))
    (seq 0 (length Sv)).

(** [V/S]: column [j] of [V] divided by [S[j]]. *)
Fixpoint div_cols (V : matrix) (Sv : vec) : matrix :=
  match V, Sv with
  | c :: V', s :: Sv' => map (fun x => x / s) c :: div_cols V' Sv'
  | _, _ => []
  end.

(** [np.zeros((p,h))] and [np.ones(p)]. *)
Definition zeros_matrix (p h : nat) : matrix := repeat (zeros p) h.
Definition ones (p : nat) : vec := repeat 1 p.

(** [np.mean]. *)
Definition np_mean (v : vec) : R := fold_right Rplus 0 v / INR (length v).

(** [E -= ti*pi.T]: column [j] loses [pi[j]] times the score. *)
Fixpoint deflate (E : matrix) (ti pi : vec) : matrix :=
  match E, pi with
  | c :: E', pj :: pi' => vsub c (vscale pj ti) :: deflate E' ti pi'
  | _, _ => []
  end.

(** [E.T*ti / (nti**2)] with [nti = np.linalg.norm(ti)]. *)
Definition loading (E : matrix) (ti : vec) : vec :=
  map (fun x => x / (norm ti) ^ 2) (matT_vec E ti).

(** ** Module globals

    The names bound at module level in [ppdire.py], each with the
    identity of the object it is bound to.  The import of [dicomo] is
    commented out in the source. *)
Definition globals : Type := list (string * string).

Definition module_globals : globals :=
  [ ("np", "numpy"); ("QuantReg", "statsmodels.QuantReg");
    ("sps", "scipy.stats"); ("pinv2", "scipy.linalg.pinv2");
    ("copy", "copy");
    ("_BaseComposition", "sklearn._BaseComposition");
    ("RegressorMixin", "sklearn.RegressorMixin");
    ("BaseEstimator", "sklearn.BaseEstimator");
    ("TransformerMixin", "sklearn.TransformerMixin");
    ("svd_flip", "sklearn.svd_flip"); ("rm", "sprm.rm");
    ("robcent", "sprm.robcent"); ("warnings", "warnings");
    ("MyException", "ppdire.MyException"); ("ppdire", "ppdire.ppdire")
  ]%string.

(** Reading a global name. *)
Definition load_global (g : globals) (name : string) : M string :=
  match lookup name g with
  | Some o => ret o
  | None => raise (NameError name)
  end.

(** [self.projection_index == dicomo]. *)
Definition is_dicomo (g : globals) : M bool :=
  s <- get_self ;;
  d <- load_global g "dicomo" ;;
  ret (String.eqb (pi_id (projection_index (par s))) d).

(** [self.pi_arguments['mode']]. *)
Definition pi_mode : M string :=
  s <- get_self ;;
  match lookup "mode" (pi_arguments (par s)) with
  | Some m => ret m
  | None => raise (KeyError "mode")
  end.

(** ** [fit] *)

Record fit_kwargs : Type := mk_fit_kwargs {
  fk_biascorr : option bool;
  fk_h : option nat;
  fk_dmetric : option string;
  fk_ndir : option nat;
  fk_maxiter : option Z;
  fk_compression : option bool;
  fk_mixing : option bool;
  fk_y : option vec;
  fk_regopt : option string;
  fk_quantile : option R;
  fk_fun : option string;
  fk_probp1 : option R;
  fk_probp2 : option R;
  fk_probp3 : option R;
  fk_option : option Z
}.

Inductive block : Type := One_block | Two_block.

(** The local variables bound by the argument collection at the top of
    [fit]; [None] is a name left unbound on that path. *)
Record fit_locals : Type := mk_fit_locals {
  l_biascorr : bool;
  l_h : nat;
  l_ndir : nat;
  l_maxiter : Z;
  l_compression : bool;
  l_mixing : bool;
  l_flag : block;
  l_y : option vec;
  l_regopt : option string;
  l_quantile : option R;
  l_fun : option string;
  l_probp1 : option R;
  l_probp2 : option R;
  l_probp3 : option R
}.

(** Lines 318 to 391: collect the optional arguments.  A given [h]
    overwrites [self.n_components]. *)
Definition collect_arguments (args : list vec) (kwargs : fit_kwargs)
  : M fit_locals :=
  s <- get_self ;;
  let biascorr := from_option (fk_biascorr kwargs) false in
  h <- match fk_h kwargs with
       | None => ret (n_components (par s))
       | Some h => put_self (set_par s (set_n_components (par s) h)) ;;;
                   ret h
       end ;;
  let ndir := from_option (fk_ndir kwargs) 1000%nat in
  let maxiter := from_option (fk_maxiter kwargs) 10000%Z in
  let compression := from_option (fk_compression kwargs) false in
  let mixing := from_option (fk_mixing kwargs) false in
  let regopt := Some (from_option (fk_regopt kwargs) "OLS"%string) in
  match fk_y kwargs with
  | None =>
      match args with
      | y :: _ =>
          ret (mk_fit_locals biascorr h ndir maxiter compression mixing
                 Two_block (Some y) regopt None None None None None)
      | [] =>
          ret (mk_fit_locals biascorr h ndir maxiter compression mixing
                 One_block None None None None None None None)
      end
  | Some y =>
      let quantile := Some (from_option (fk_quantile kwargs) (5 / 10)) in
      if String.eqb (from_option (fk_regopt kwargs) "OLS"%string) "robust"
      then
        ret (mk_fit_locals biascorr h ndir maxiter compression mixing
               Two_block (Some y) regopt quantile
               (Some (from_option (fk_fun kwargs) "Hampel"%string))
               (Some (from_option (fk_probp1 kwargs) (95 / 100)))
               (Some (from_option (fk_probp2 kwargs) (975 / 1000)))
               (Some (from_option (fk_probp3 kwargs) (99 / 100))))
      else
        ret (mk_fit_locals biascorr h ndir maxiter compression mixing
               Two_block (Some y) regopt quantile None None None None)
  end.

(** Lines 394 to 404: the test on the projection index. *)
Definition check_projection_index (g : globals) (kwargs : fit_kwargs)
  : M unit :=
  d <- is_dicomo g ;;
  if d then
    m <- pi_mode ;;
    if existsb (String.eqb m) ["M3"; "cos"; "cok"]%string then
      let option := from_option (fk_option kwargs) 1%Z in
      if (3 <? option)%Z then
        log (Printed
          "Option value >3 will compute results, but meaning may be questionable")
      else ret tt
    else ret tt
  else ret tt.

(** What the preprocessing leaves for the rest of [fit]. *)
Record prepared : Type := mk_prepared {
  p_X : matrix;
  p_X0 : matrix;
  p_n : nat;
  p_p : nat;
  p_scale : string;
  p_dimensions : bool;
  p_V : matrix;
  p_centring : robcent_obj;
  p_Xs : matrix;
  p_mX : vec;
  p_sX : vec;
  p_K : option matrix;
  p_y : option vec;
  p_ys : option vec;
  p_my : vec;
  p_sy : vec
}.

(** Lines 406 to 421: build the index, copy the data, check [h]. *)
Definition check_dimensions (X : matrix) (h : nat) : M (matrix * nat * nat) :=
  s <- get_self ;;
  log (Call_projection_index (pi_arguments (par s))) ;;;
  let s := set_most s
             (pi_new (projection_index (par s)) (pi_arguments (par s))) in
  put_self (if copy (par s) then set_X0 s X else s) ;;;
  let X0 := X in
  let '(n, p) := shape X in
  if (Nat.min n p <? h)%nat then
    raise (MyException "number of components cannot exceed number of samples")
  else ret (X0, n, p).

(** Lines 423 to 500: warnings, scaling choice, compression, centring,
    whitening and the response. *)
Definition preprocess (c : collaborators) (g : globals) (X : matrix)
  (X0 : matrix) (n p : nat) (l : fit_locals) : M prepared :=
  d <- is_dicomo g ;;
  s <- get_self ;;
  (if d then
     m <- pi_mode ;;
     if String.eqb m "kurt" && negb (whiten_data (par s))
     then log (Warned "Whitening step is recommended for ICA")
     else ret tt
   else ret tt) ;;;
  compression <-
    (if whiten_data (par s) then
       put_self (set_par s (set_whitening_flags (par s))) ;;;
       log (Printed "All results produced are for whitened data") ;;;
       ret false
     else ret (l_compression l)) ;;
  s <- get_self ;;
  scale <-
    (if scale_data (par s) then
       if String.eqb (center (par s)) "mean" then ret (Some "std"%string)
       else if String.eqb (center (par s)) "median"
            then ret (Some "mad"%string)
            else ret None
     else
       log (Warned "Without scaling, convergence to optima is not given") ;;;
       ret (Some "None"%string)) ;;
  let '(X, n, p, dimensions, V) :=
    if (n <? p)%nat && compression then
      let '(V, Sv, U) := svd c (transpose X) in
      let X' := mat_mul (transpose U) (np_diag Sv) in
      (X', nrows X', ncols X', true, V)
    else (X, n, p, false, []) in
  scale <- match scale with
           | Some sc => ret sc
           | None => raise (UnboundLocalError "scale")
           end ;;
  let trimming := trimming (par s) in
  let '(Xs, mX, sX) :=
    if center_data (par s)
    then robcent_fit c (center (par s)) scale X trimming
    else (X, zeros p, ones p) in
  let centring :=
    if center_data (par s) then mk_robcent (center (par s)) scale mX sX
    else mk_robcent (center (par s)) scale [] [] in
  let '(Xs, K) :=
    if whiten_data (par s) then
      let '(V, Sv, U) := svd c (transpose Xs) in
      let K := firstn p (div_cols V Sv) in
      (map (vscale (sqrt (INR p))) (mat_mul Xs K), Some K)
    else (Xs, None) in
  match l_flag l, l_y l with
  | Two_block, Some y =>
      if (length y =? n)%nat then
        (if copy (par s) then s' <- get_self ;; put_self (set_y0 s' y)
         else ret tt) ;;;
        let '(ys, my, sy) :=
          if center_data (par s) then
            let '(Ys, my, sy) :=
              robcent_fit c (center (par s)) scale [y] trimming in
            (col 0 Ys, my, sy)
          else (y, [0], [1]) in
        let centring :=
          if center_data (par s) then mk_robcent (center (par s)) scale my sy
          else centring in
        ret (mk_prepared X X0 n p scale dimensions V centring Xs mX sX K
               (Some y) (Some ys) my sy)
      else raise (MyException "X and y number of rows must agree")
  | _, _ =>
      ret (mk_prepared X X0 n p scale dimensions V centring Xs mX sX K
             None None [] [])
  end.

(** The matrices filled by the component loop. *)
Record fit_state : Type := mk_fit_state {
  st_E : matrix;
  st_W : matrix;
  st_T : matrix;
  st_P : matrix;
  st_B : matrix;
  st_R : matrix;
  st_B_scaled : matrix;
  st_C : vec;
  st_assovec : vec;
  st_Maxobjf : vec;
  st_bi : vec
}.

(** Lines 502 to 518: the initial state. *)
Definition initial_state (q : prepared) (h : nat) : fit_state :=
  let p := p_p q in
  let n := p_n q in
  mk_fit_state (p_Xs q) (zeros_matrix p h) (zeros_matrix n h)
    (zeros_matrix p h) (zeros_matrix p h) (zeros_matrix p h)
    (zeros_matrix p h) (zeros h) (zeros h) (zeros h) (zeros p).

(** Lines 520 to 569: the grids, the cached bounds and the two keyword
    dictionaries.  [alphamat2] is bound only when [p > 2] and read
    whatever [p] is. *)
Definition grid_arguments (q : prepared) (l : fit_locals)
  : M (gp_kwargs * gp_kwargs) :=
  s <- get_self ;;
  let ndir := l_ndir l in
  let optmax := snd (optrange s) in
  let alphamat := coarse_grid s ndir optmax in
  let c := mk_cache (stop0c s) (stop0s s) (stop1c s) (stop1s s) optmax in
  put_self (set_cache s c) ;;;
  let alphamat2 :=
    if (2 <? p_p q)%nat then Some (refine_grid c ndir) else None in
  let y := match l_flag l with
           | Two_block => p_ys q
           | One_block => None
           end in
  let grid_args :=
    mk_gp_kwargs (Some (alpha (par s))) (Some alphamat) (Some ndir)
      (Some (trimming (par s))) (Some (l_biascorr l))
      (Some "euclidean"%string) y None in
  match alphamat2 with
  | None => raise (UnboundLocalError "alphamat2")
  | Some a2 =>
      ret (grid_args,
           mk_gp_kwargs (Some (alpha (par s))) (Some a2) (Some ndir)
             (Some (trimming (par s))) (Some (l_biascorr l))
             (Some "euclidean"%string) y None)
  end.

(** Lines 575 to 663: the direction of one component and, for [p > 2],
    the value written to [Maxobjf[i]]. *)
Definition component_direction (p : nat) (maxiter : Z) (E : matrix)
  (grid_args grid_args_2 : gp_kwargs) : M (vec * option R) :=
  if (p =? 2)%nat then
    r <- _gridplane E ekw_empty grid_args ;;
    ret (fst r, None)
  else if (2 <? p)%nat then
    r <- pairwise_reducer E p maxiter grid_args grid_args_2 ;;
    ret (fst (fst r), Some (snd (fst r)))
  else raise (UnboundLocalError "wi").

(** Lines 696 to 712: the regression of the response on the score. *)
Definition regress (c : collaborators) (l : fit_locals) (scale : string)
  (y ys ti : vec) : M R :=
  s <- get_self ;;
  match l_regopt l with
  | None => raise (UnboundLocalError "regopt")
  | Some regopt =>
      if String.eqb regopt "OLS" then ret (dot ti ys / (norm ti) ^ 2)
      else if String.eqb regopt "robust" then
        match l_fun l, l_probp1 l, l_probp2 l, l_probp3 l with
        | Some fn, Some p1, Some p2, Some p3 =>
            ret (rm_fit c fn p1 p2 p3 (center (par s)) scale
                   (verbose (par s)) ti ys)
        | _, _, _, _ => raise (UnboundLocalError "fun")
        end
      else if String.eqb regopt "quantile" then
        match l_quantile l with
        | Some qt => ret (quantreg_fit c y ti qt)
        | None => raise (UnboundLocalError "quantile")
        end
      else raise (UnboundLocalError "ci")
  end.

(** Lines 573 to 717: the body of [for i in range(0,h)]. *)
Definition extract_component (c : collaborators) (q : prepared)
  (l : fit_locals) (grid_args grid_args_2 : gp_kwargs) (i : nat)
  (st : fit_state) : M fit_state :=
  let E := st_E st in
  d <- component_direction (p_p q) (l_maxiter l) E grid_args grid_args_2 ;;
  let wi := fst d in
  let Maxobjf :=
    match snd d with
    | Some objf => set_nth i objf (st_Maxobjf st)
    | None => st_Maxobjf st
    end in
  s <- get_self ;;
  let ti := mat_vec E wi in
  let pi := loading E ti in
  let wi :=
    match p_K q with
    | Some K => mat_vec K (normalize wi)
    | None => wi
    end in
  let wi0 := wi in
  let W := set_col i wi (st_W st) in
  let T := set_col i ti (st_T st) in
  let P := set_col i pi (st_P st) in
  assovec <-
    match l_flag l with
    | One_block => ret (st_assovec st)
    | Two_block =>
        f <- getattr "most" most ;;
        ret (set_nth i
               (index_value s f (ekw_of_kwargs grid_args) (mat_vec E wi0))
               (st_assovec st))
    end ;;
  let E := deflate E ti pi in
  let Rw :=
    mat_mul (firstn (i + 1) W)
      (pinv2 c (matT_mul (firstn (i + 1) P) (firstn (i + 1) W))) in
  match l_flag l, p_y q, p_ys q with
  | Two_block, Some y, Some ys =>
      ci <- regress c l (p_scale q) y ys ti ;;
      let C := set_nth i ci (st_C st) in
      let bi := mat_vec Rw (firstn (i + 1) C) in
      let bi_scaled := bi in
      let bi := vmul (map (fun sx => nth 0 (p_sy q) 0 / sx) (p_sX q)) bi in
      ret (mk_fit_state E W T P (set_col i bi (st_B st)) Rw
             (set_col i bi_scaled (st_B_scaled st)) C assovec Maxobjf bi)
  | _, _, _ =>
      ret (mk_fit_state E W T P (st_B st) Rw (st_B_scaled st) (st_C st)
             assovec Maxobjf (st_bi st))
  end.

(** Lines 721 to 790: map back from the compressed space, compute the
    intercepts and the fitted values, and set the attributes. *)
Definition finish (c : collaborators) (q : prepared) (l : fit_locals)
  (st : fit_state) : M matrix :=
  s <- get_self ;;
  let h := l_h l in
  let p := p_p q in
  let X0 := p_X0 q in
  let trimming := trimming (par s) in
  r <-
    (if p_dimensions q then
       let V := firstn p (p_V q) in
       let B := mat_mul V (st_B st) in
       match h with
       | O => raise (IndexError "index -1 is out of bounds for axis 1")
       | S h' =>
           let '(Xs, mX, sX) :=
             if center_data (par s)
             then robcent_fit c (center (par s)) (p_scale q) X0 trimming
             else (X0, zeros p, ones p) in
           let centring :=
             if center_data (par s)
             then mk_robcent (center (par s)) (p_scale q) mX sX
             else p_centring q in
           ret (B, mat_mul V (st_B_scaled st), mat_mul V (st_R st),
                mat_mul V (st_W st), mat_mul V (st_P st), col h' B,
                Xs, mX, sX, centring)
       end
     else
       ret (st_B st, st_B_scaled st, st_R st, st_W st, st_P st, st_bi st,
            p_Xs q, p_mX q, p_sX q, p_centring q)) ;;
  let '(B, B_scaled, Rw, W, P, bi, Xs, mX, sX, centring) := r in
  let s :=
    match l_flag l, p_y q, p_ys q with
    | Two_block, Some y, Some ys =>
        let resid := vsub y (mat_vec X0 bi) in
        let intercept :=
          if String.eqb (center (par s)) "mean"
          then trim_mean c resid trimming
          else median c resid in
        let yfit := map (fun x => x + intercept) (mat_vec X0 bi) in
        let b0 :=
          if negb (String.eqb (p_scale q) "None") then
            if String.eqb (center (par s)) "mean"
            then np_mean (vsub ys (mat_vec Xs bi))
            else median c (vsub ys (mat_vec Xs bi))
          else intercept in
        let r := vsub y yfit in
        mk_ppdire (par s) (constraint s) (optrange s) (licenter s) (most s)
          (X0_ s) (y0_ s) (cache s)
          (Some (mk_regression B intercept B_scaled b0 r yfit (st_C st)
                   (p_my q) (p_sy q)))
          (components s) (whitening_ s) (mixing_ s) (scaling_object_ s)
    | _, _, _ => s
    end in
  let attrs :=
    mk_components W P Rw (st_T st) (zeros h) (st_assovec st)
      (st_Maxobjf st) mX sX (p_scale q) in
  put_self
    (mk_ppdire (par s) (constraint s) (optrange s) (licenter s) (most s)
       (X0_ s) (y0_ s) (cache s) (regression s) (Some attrs)
       (match p_K q with
        | Some K => Some K
        | None => whitening_ s
        end)
       (if l_mixing l then Some (pinv c W) else mixing_ s)
       (if return_scaling_object (par s) then Some centring
        else scaling_object_ s)) ;;;
  ret (st_T st).

(** Lines 317 to 569 of [fit]: everything before the component loop. *)
Definition prepare_fit (c : collaborators) (g : globals) (X : matrix)
  (args : list vec) (kwargs : fit_kwargs)
  : M (fit_locals * prepared * (gp_kwargs * gp_kwargs)) :=
  l <- collect_arguments args kwargs ;;
  check_projection_index g kwargs ;;;
  d <- check_dimensions X (l_h l) ;;
  let '(X0, n, p) := d in
  q <- preprocess c g X X0 n p l ;;
  ga <- grid_arguments q l ;;
  ret (l, q, ga).

(** [ppdire.fit(X, *args, **kwargs)], in the module whose globals are
    [g]. *)
Definition fit (c : collaborators) (g : globals) (X : matrix)
  (args : list vec) (kwargs : fit_kwargs) : M matrix :=
  r <- prepare_fit c g X args kwargs ;;
  let '(l, q, ga) := r in
  st <- foldM (extract_component c q l (fst ga) (snd ga)) (seq 0 (l_h l))
          (initial_state q (l_h l)) ;;
  finish c q l st.

(** ** [predict] *)

(** [np.matmul(Xn, self.coef_) + self.intercept_]: one column of
    predictions per column of [coef_]. *)
Definition predict (Xn : matrix) : M matrix :=
  let '(n, p) := shape Xn in
  r <- getattr "coef_" regression ;;
  if negb (p =? nrows (coef_ r))%nat then
    raise (ValueError
      "New data must have seame number of columns as the ones the model has been trained with")
  else
    ret (map (fun b => map (fun x => x + intercept_ r) (mat_vec Xn b))
           (coef_ r)).

(** * Sample inputs and the statements of the contracts *)

(** A projection index used in the examples: the sum of squares of the
    projected scores (an unscaled variance). *)
Definition sample_index : pindex :=
  mk_pindex "sample" (fun _ v _ => sumsq v).

(** A projection index that returns the same value on every input. *)
Definition constant_index (v : R) : pindex :=
  mk_pindex "constant" (fun _ _ _ => v).

Definition index_params (ix : pindex) (h : nat) : params :=
  mk_params ix [] h 0 1 "mean" false false false false true false true.

(** An estimator as [__init__] builds it, and as it is once [fit] has
    built the index and cached the grid bounds. *)
Definition index_self (ix : pindex) (h : nat) : ppdire :=
  mk_ppdire (index_params ix h) "norm" (-1, 1) ["mean"; "median"]%string
    None None None None None None None None None.

Definition default_cache (s : ppdire) : grid_cache :=
  mk_cache (stop0c s) (stop0s s) (stop1c s) (stop1s s) (snd (optrange s)).

Definition index_ready (ix : pindex) (h : nat) : ppdire :=
  set_cache (set_most (index_self ix h) (pi_new ix []))
    (default_cache (index_self ix h)).

Definition index_world (ix : pindex) (h : nat) : world :=
  mk_world (index_ready ix h) [].

Definition sample_self (h : nat) : ppdire := index_self sample_index h.
Definition sample_ready (h : nat) : ppdire := index_ready sample_index h.
Definition sample_world (h : nat) : world := index_world sample_index h.

(** The keyword dictionary [fit] passes to the grid helpers, for a
    given number of directions. *)
Definition sample_grid_args (ndir : nat) : gp_kwargs :=
  mk_gp_kwargs (Some 1) (Some []) (Some ndir) (Some 0) (Some false)
    (Some "euclidean"%string) None None.

(** A block of two variables and three observations. *)
Definition sample_plane : matrix := [[1; 0; 1]; [0; 1; 1]].

(** Three variables, three observations, and a state of the reducer on
    them. *)
Definition sample_data : matrix := [[1; 0; 1]; [0; 1; 1]; [1; 1; 0]].

Definition sample_reducer : reducer_state := mk_reducer [1; 0; 1] [1; 0; 0].

(** What a successful call of [_gridplane] does to the world: one log
    entry and the five cached attributes. *)
Definition after_gridplane (w : world) (X : matrix) (kw : gp_kwargs) : world :=
  let s := obj w in
  mk_world
    (set_cache s
       (mk_cache (stop0c s) (stop0s s) (stop1c s) (stop1s s)
          (from_option (kw_optmax kw) (snd (optrange s)))))
    (trace w ++ [Call_gridplane X]).

(** The contract of [_gridplane] on a world [w]: the direction returned
    is the candidate of least angle among those of greatest index
    value, and has the norm of the scaling [optmax]. *)
Definition gridplane_contract (w : world) (f : evaluator) (X : matrix)
  (pa : ekw) (kw : gp_kwargs) (ndir : nat) : Prop :=
  let s := obj w in
  let o := from_option (kw_optmax kw) (snd (optrange s)) in
  let a0 := Rmax (stop0c s) (stop0s s) in
  let b0 := Rmax (stop1c s) (stop1s s) in
  let theta := fun i => a0 + INR i * ((b0 - a0) / INR ndir) in
  let cand := fun i => [cos (theta i) * o; sin (theta i) * o] in
  let value := fun i =>
    index_value s f (gp_pi_arguments s pa kw) (mat_vec X (cand i)) in
  (forall i, (i < ndir)%nat -> col i (coarse_grid s ndir o) = cand i) /\
  exists k,
    _gridplane X pa kw w = (after_gridplane w X kw, inr (cand k, value k)) /\
    (k < ndir)%nat /\
    (forall i, (i < ndir)%nat -> value i <= value k) /\
    (forall i, (i < k)%nat -> value i < value k) /\
    norm (cand k) = Rabs o.

(** The contract of [_gridplane_2] with the cached bounds [c], next to
    the coarse grid of [_gridplane]: a closed grid between the smaller
    bounds, each candidate divided by its stabilizing divisor, against
    an open grid between the larger bounds. *)
Definition refiner_contract (w : world) (c : grid_cache) (X : matrix)
  (q : R) (dv : Z) (pa : ekw) (kw : gp_kwargs) (ndir : nat) : Prop :=
  let s := obj w in
  let a2 := Rmin (_stop0c c) (_stop0s c) in
  let b2 := Rmin (_stop1c c) (_stop1s c) in
  let theta := fun i => a2 + INR i * ((b2 - a2) / INR (ndir - 1)) in
  let den := fun t => sqrt (1 + 2 * (cos t * sin t) * q) in
  let cand := fun i =>
    [cos (theta i) / den (theta i); sin (theta i) / den (theta i)] in
  let a0 := Rmax (stop0c s) (stop0s s) in
  let b0 := Rmax (stop1c s) (stop1s s) in
  let phi := fun i => a0 + INR i * ((b0 - a0) / INR ndir) in
  (theta 0%nat = a2 /\ ((1 < ndir)%nat -> theta (ndir - 1)%nat = b2)) /\
  (forall i, (i < ndir)%nat -> nth i (refine_angles c ndir) 0 = theta i) /\
  (forall i, (i < ndir)%nat ->
     col i (map (reexpress q) (refine_grid c ndir)) = cand i) /\
  (exists k m,
     (k < ndir)%nat /\
     _gridplane_2 X q dv pa kw w =
       (mk_world s (trace w ++ [Call_gridplane_2 X q dv]),
        inr (cand k, m))) /\
  (forall i, (i < ndir)%nat -> nth i (coarse_angles s ndir) 0 = phi i) /\
  (forall i, (i < ndir)%nat ->
     col i (coarse_grid s ndir 1) = [cos (phi i); sin (phi i)]) /\
  (a0 < b0 -> forall i, (i < ndir)%nat -> phi i < b0).

(** The state of the object while [fit] runs its component loop: the
    index is built and the bounds cached by [fit] are in place. *)
Definition fit_world (w : world) (f : evaluator) : Prop :=
  most (obj w) = Some f /\ cache (obj w) = Some (default_cache (obj w)).

(** The keyword dictionaries [fit] builds: a candidate matrix, a
    positive number of directions and no [optmax]. *)
Definition fit_grid_args (ga : gp_kwargs) (ndir : nat) : Prop :=
  kw_alphamat ga <> None /\ kw_ndir ga = Some ndir /\ (0 < ndir)%nat /\
  kw_optmax ga = None.

(** The call of the refiner made for variable [j] from the state [r]. *)
Definition refiner_call (Zc : matrix) (cap : Z) (j : nat)
  (r : reducer_state) : event :=
  Call_gridplane_2 (projmat Zc j r) (nth j (afin r) 0)
    (if (16 <? j)%nat then cap else Z.min (2 ^ Z.of_nat j) cap).

(** C4 in the words of the specification: the subdivision count of
    variable [j] is [min(2^j, 2^floor(log2(maxiter)))]. *)
Definition claimed_subdivision (maxiter : Z) (j : nat) : Z :=
  Z.min (2 ^ Z.of_nat j) (2 ^ Z.log2 maxiter).

(** The contract of a sweep: the cap is two to the integer nearest to
    [log2 maxiter], every variable gets one call of the refiner with
    [q = afin[j]] and its subdivision count, and the sweep of a world
    in which [fit] runs returns after one call per variable, in order. *)
Definition sweep_contract (w : world) (Zc : matrix) (p : nat) (maxiter : Z)
  (ga2 : gp_kwargs) (r : reducer_state) : Prop :=
  let k := round_log2 maxiter in
  let cap := (2 ^ k)%Z in
  (2 ^ (2 * k - 1) <= maxiter * maxiter < 2 ^ (2 * k + 1))%Z /\
  maxiter_2j maxiter w = (w, inr cap) /\
  (forall j r0 w0,
     fst (refine_variable Zc cap ga2 j r0 w0) =
       mk_world (obj w0) (trace w0 ++ [refiner_call Zc cap j r0])) /\
  exists r' evs,
    sweep Zc p cap ga2 r w = (mk_world (obj w) (trace w ++ evs), inr r') /\
    Forall2 (fun j ev => exists rj, ev = refiner_call Zc cap j rj)
      (seq 0 p) evs.

(** The contract of one pass of the outer loop under the constraint
    ['norm'] in a world in which [fit] runs: the pass returns, the
    best-so-far name is rebound exactly when the new objective differs
    from the previous one, and then to [afin] divided by its norm. *)
Definition outer_body_contract (w : world) (f : evaluator) (Zc : matrix)
  (p : nat) (cap : Z) (ga ga2 : gp_kwargs) (s : loop_state) : Prop :=
  exists w' s',
    outer_body Zc p cap ga ga2 s w = (w', inr s') /\
    obj w' = obj w /\
    ii s' = (ii s + 1)%Z /\
    objfold s' = objf s /\
    objf s' =
      index_value (obj w) f (with_q (ekw_of_kwargs ga) (afin (red s')))
        (mat_vec Zc (afin (red s'))) /\
    (objf s' = objfold s' -> afinbest s' = afinbest s) /\
    (objf s' <> objfold s' ->
       afinbest s' = Fresh (normalize (afin (red s'))) /\
       (sumsq (afin (red s')) <> 0 ->
          norm (normalize (afin (red s'))) = 1)).

(** A matrix proper: all columns have the length of the first. *)
Definition rectangular (A : matrix) : Prop :=
  Forall (fun c => length c = nrows A) A.


(** [fit(X)] without keyword arguments, and with some of them. *)
Definition no_kwargs : fit_kwargs :=
  mk_fit_kwargs None None None None None None None None None None None None
    None None None.

Definition kwargs_h (h : nat) : fit_kwargs :=
  mk_fit_kwargs None (Some h) None None None None None None None None None
    None None None None.

Definition kwargs_h_ndir_maxiter (h ndir : nat) (maxiter : Z) : fit_kwargs :=
  mk_fit_kwargs None (Some h) None (Some ndir) (Some maxiter) None None None
    None None None None None None None.

(** The module as it would be with the import of [dicomo] restored. *)
Definition repaired_globals : globals :=
  ("dicomo", "ppdire.dicomo.dicomo")%string :: module_globals.

(** The world [fit] leaves when it fails right after collecting its
    arguments: only [n_components] may have been overwritten. *)
Definition after_collect (kwargs : fit_kwargs) (w : world) : world :=
  match fk_h kwargs with
  | None => w
  | Some h =>
      mk_world (set_par (obj w) (set_n_components (par (obj w)) h)) (trace w)
  end.




(** Stand-ins for the collaborators, enough to run [fit] in the
    examples; the properties are stated for all collaborators. *)
Definition sample_collaborators : collaborators :=
  mk_collaborators
    (fun _ _ X _ => (X, zeros (ncols X), ones (ncols X)))
    (fun A => (A, ones (ncols A), A))
    (fun A => A)
    (fun A => A)
    (fun _ _ _ _ _ _ _ _ _ => 0)
    (fun _ _ _ => 0)
    (fun v _ => np_mean v)
    np_mean.

(** A response for [sample_data].  The sample call of [fit] is
    [fit(sample_data, sample_response, h=h, ndir=3, maxiter=5)] on a
    new estimator, in the repaired module. *)
Definition sample_response : vec := [1; 2; 3].


(** The state the sample call is in when it enters the component loop:
    the object, the log, the local variables, the preprocessed data and
    the two keyword dictionaries. *)
Definition sample_fit_object (h : nat) : ppdire :=
  set_cache
    (set_y0
       (set_X0
          (set_most
             (set_par (sample_self 1)
                (set_n_components (par (sample_self 1)) h))
             (pi_new sample_index []))
          sample_data)
       sample_response)
    (default_cache (sample_self 1)).

Definition sample_fit_world (h : nat) : world :=
  mk_world (sample_fit_object h)
    [Call_projection_index [];
     Warned "Without scaling, convergence to optima is not given"].

Definition sample_locals (h : nat) : fit_locals :=
  mk_fit_locals false h 3 5 false false Two_block (Some sample_response)
    (Some "OLS"%string) None None None None None.

Definition sample_prepared : prepared :=
  mk_prepared sample_data sample_data 3 3 "None" false []
    (mk_robcent "mean" "None" [] []) sample_data (zeros 3) (ones 3) None
    (Some sample_response) (Some sample_response) [0] [1].

Definition sample_fit_grid_args : gp_kwargs * gp_kwargs :=
  (mk_gp_kwargs (Some 1) (Some (coarse_grid (sample_self 1) 3 1))
     (Some 3%nat) (Some 0) (Some false) (Some "euclidean"%string)
     (Some sample_response) None,
   mk_gp_kwargs (Some 1)
     (Some (refine_grid (default_cache (sample_self 1)) 3))
     (Some 3%nat) (Some 0) (Some false) (Some "euclidean"%string)
     (Some sample_response) None).


(** * [transform] and the statements of further properties *)

(** [ppdire.transform].  [scale_data] is the method of the stored
    [robcent] object: [self.scaling_object_.scale_data(Xn, self.x_loc_,
    self.x_sca_)].  The number of columns is checked against [coef_],
    which only a fit with a response sets. *)
Definition transform
  (scale_data : robcent_obj -> matrix -> vec -> vec -> matrix) (Xn : matrix)
  : M matrix :=
  let '(n, p) := shape Xn in
  r <- getattr "coef_" regression ;;
  if negb (p =? nrows (coef_ r))%nat then
    raise (ValueError
      "New data must have seame number of columns as the ones the model has been trained with")
  else
    so <- getattr "scaling_object_" scaling_object_ ;;
    a <- getattr "x_loc_" components ;;
    ret (mat_mul (scale_data so Xn (x_loc_ a) (x_sca_ a)) (x_rotations_ a)).

(** The estimator with its cached grid bounds forgotten. *)
Definition without_cache (s : ppdire) : ppdire :=
  mk_ppdire (par s) (constraint s) (optrange s) (licenter s) (most s)
    (X0_ s) (y0_ s) None (regression s) (components s) (whitening_ s)
    (mixing_ s) (scaling_object_ s).

(** A computation keeps the part [proj] of the estimator when that part
    is the same after every run, failed or not. *)
Definition keeps {A B : Type} (proj : ppdire -> B) (m : M A) : Prop :=
  forall w, proj (obj (fst (m w))) = proj (obj w).


(** The state of the sequential fold before variable [j] is folded in:
    [afin] has one entry per variable, unit norm and zeros from [j] on,
    and the running score [Zopt] is the data times [afin]. *)
Definition folded (Zc : matrix) (j : nat) (r : reducer_state) : Prop :=
  length (afin r) = ncols Zc /\ sumsq (afin r) = 1 /\
  Zopt r = mat_vec Zc (afin r) /\
  forall i, (j <= i)%nat -> nth i (afin r) 0 = 0.

(** The scaling of the coarse grid for a call with the keyword
    dictionary [ga]: [kwargs.pop('optmax', self.optrange[1])]. *)
Definition grid_scaling (ga : gp_kwargs) (w : world) : R :=
  from_option (kw_optmax ga) (snd (optrange (obj w))).

(** The numbers of calls of [_gridplane] and of [_gridplane_2] in a
    log. *)
Definition coarse_calls (tr : list event) : nat :=
  length (filter (fun ev => match ev with
                            | Call_gridplane _ => true
                            | _ => false
                            end) tr).

Definition refiner_calls (tr : list event) : nat :=
  length (filter (fun ev => match ev with
                            | Call_gridplane_2 _ _ _ => true
                            | _ => false
                            end) tr).


(** What a run of the pairwise reducer amounts to in a world in which
    [fit] runs: it returns the last [afin] without touching the
    estimator, after [1 + (p - 2)] coarse searches and [p] refining
    searches for each of its [ii <= maxiter + 1] sweeps, the guard of
    the loop being false at the end. *)
Definition reducer_run_contract (w : world) (Zc : matrix) (p : nat)
  (maxiter : Z) (ga ga2 : gp_kwargs) : Prop :=
  exists w' s,
    pairwise_reducer Zc p maxiter ga ga2 w =
      (w', inr (afin (red s), objf s, s)) /\
    obj w' = obj w /\
    guard maxiter s = false /\ (0 <= ii s <= maxiter + 1)%Z /\
    coarse_calls (trace w') = (coarse_calls (trace w) + (1 + (p - 2)))%nat /\
    Z.of_nat (refiner_calls (trace w')) =
      (Z.of_nat (refiner_calls (trace w)) + Z.of_nat p * ii s)%Z.


(** The constructor arguments as [fit] works with them: an estimator
    that whitens has [center_data = True] and [scale_data = False]
    forced on it. *)
Definition settings (s : ppdire) : params :=
  if whiten_data (par s) then set_whitening_flags (par s) else par s.

(** The stored scaling object of an estimator that is told not to
    store one. *)
Definition unrequested_scaling_object (s : ppdire)
  : option (option robcent_obj) :=
  if return_scaling_object (par s) then None else Some (scaling_object_ s).

(** The error of [predict] and [transform] on new data whose number of
    columns is not the number of rows of [coef_]. *)
Definition column_mismatch : exn :=
  ValueError
    "New data must have seame number of columns as the ones the model has been trained with".

(** The response of a call [fit(X, *args, **kwargs)]: the keyword [y]
    or else the first positional argument. *)
Definition response (args : list vec) (kwargs : fit_kwargs) : option vec :=
  match fk_y kwargs with
  | Some y => Some y
  | None => hd_error args
  end.


(** What [fit] has neither computed nor stored when it fails before its
    grids are built: the cached bounds and the fitted attributes. *)
Definition fitted_part (s : ppdire)
  : option grid_cache * option component_attrs * option regression_attrs :=
  (cache s, components s, regression s).

(** The bounds and the scaling a successful call of [_gridplane] with
    the keyword dictionary [kw] caches on the estimator of [w]. *)
Definition cached_by_gridplane (kw : gp_kwargs) (w : world) : grid_cache :=
  mk_cache (stop0c (obj w)) (stop0s (obj w)) (stop1c (obj w))
    (stop1s (obj w)) (grid_scaling kw w).


(** The part of [fit_ready] that does not depend on the regression:
    what takes a call of [fit] to its component loop. *)
Definition data_ready (X : matrix) (args : list vec) (kwargs : fit_kwargs)
  (w : world) : Prop :=
  let q := par (obj w) in
  String.eqb (pi_id (projection_index q)) "ppdire.dicomo.dicomo" = false /\
  whiten_data q = false /\ center_data q = false /\
  In (center q) ["mean"; "median"]%string /\
  (from_option (fk_h kwargs) (n_components q) <=
   Nat.min (nrows X) (ncols X))%nat /\
  (2 < ncols X)%nat /\ (ncols X <= nrows X)%nat /\
  (1 <= from_option (fk_maxiter kwargs) 10000)%Z /\
  (0 < from_option (fk_ndir kwargs) 1000)%nat /\
  forall y, response args kwargs = Some y -> length y = nrows X.

(** The error of the regression step for an option [regopt] other than
    ['OLS'] when the response was passed by position: the names [fun]
    and [quantile] are bound only on the path of the keyword [y], and
    [ci] only by one of the three known options. *)
Definition regression_error (regopt : string) : exn :=
  if String.eqb regopt "robust" then UnboundLocalError "fun"
  else if String.eqb regopt "quantile" then UnboundLocalError "quantile"
  else UnboundLocalError "ci".
(** * Properties *)

(** ** Running the monad *)

Lemma bind_run {A B : Type} (m : M A) (k : A -> M B) (w w' : world) (a : A) :
  m w = (w', inr a) -> bind m k w = k a w'.
Proof. intros H. unfold bind. now rewrite H. Qed.

Lemma bind_fail {A B : Type} (m : M A) (k : A -> M B) (w w' : world)
  (e : exn) :
  m w = (w', inl e) -> bind m k w = (w', inl e).
Proof. intros H. unfold bind. now rewrite H. Qed.

Lemma bind_assoc {A B C : Type} (m : M A) (k1 : A -> M B) (k2 : B -> M C)
  (w : world) :
  bind (bind m k1) k2 w = bind m (fun x => bind (k1 x) k2) w.
Proof. unfold bind. destruct (m w) as [w' [e|a]]; reflexivity. Qed.

(** A computation either fails or returns. *)
Lemma run_cases {A : Type} (m : M A) (w : world) :
  (exists w' e, m w = (w', inl e)) \/ (exists w' a, m w = (w', inr a)).
Proof. destruct (m w) as [w' [e|a]]; eauto. Qed.

(** ** Lists, vectors and the maximum *)

Lemma fold_left_Rmax_ge_init (l : list R) (x : R) : x <= fold_left Rmax l x.
Proof.
  revert x; induction l as [|a l IH]; intros x; simpl.
  - lra.
  - eapply Rle_trans; [apply (Rmax_l x a)|apply IH].
Qed.

Lemma fold_left_Rmax_ub (l : list R) (x y : R) :
  In y l -> y <= fold_left Rmax l x.
Proof.
  revert x; induction l as [|a l IH]; intros x Hin; simpl in *.
  - contradiction.
  - destruct Hin as [->|Hin].
    + eapply Rle_trans; [apply (Rmax_r x y)|apply fold_left_Rmax_ge_init].
    + now apply IH.
Qed.

Lemma fold_left_Rmax_in (l : list R) (x : R) :
  fold_left Rmax l x = x \/ In (fold_left Rmax l x) l.
Proof.
  revert x; induction l as [|a l IH]; intros x; simpl.
  - now left.
  - destruct (IH (Rmax x a)) as [H|H].
    + rewrite H. unfold Rmax. destruct (Rle_dec x a); auto.
    + auto.
Qed.

Lemma np_max_spec (l : list R) (m : R) :
  np_max l = Some m -> In m l /\ forall y, In y l -> y <= m.
Proof.
  destruct l as [|x l]; simpl; [discriminate|].
  intros [= <-]. split.
  - destruct (fold_left_Rmax_in l x) as [H|H]; [left; now rewrite H|now right].
  - intros y [<-|Hy].
    + apply fold_left_Rmax_ge_init.
    + now apply fold_left_Rmax_ub.
Qed.

Lemma np_max_nonempty (l : list R) :
  l <> [] -> exists m, np_max l = Some m.
Proof. destruct l; [congruence|]. intros _. eexists. reflexivity. Qed.

Lemma np_where_eq_first (l : list R) (m : R) (i : nat) :
  In m l ->
  exists k rest,
    np_where_eq l m i = (i + k)%nat :: rest /\ (k < length l)%nat /\
    nth k l 0 = m /\ forall j, (j < k)%nat -> nth j l 0 <> m.
Proof.
  revert i; induction l as [|x l IH]; intros i Hin; simpl in *.
  - contradiction.
  - destruct (Req_dec_T x m) as [Heq|Hne].
    + exists 0%nat, (np_where_eq l m (S i)). repeat split.
      * now rewrite Nat.add_0_r.
      * lia.
      * exact Heq.
      * intros j Hj. lia.
    + destruct Hin as [Hx|Hin]; [contradiction|].
      destruct (IH (S i) Hin) as (k & rest & Hw & Hk & Hn & Hf).
      exists (S k), rest. repeat split.
      * rewrite Hw. f_equal. lia.
      * lia.
      * exact Hn.
      * intros [|j] Hj; [exact Hne|]. apply Hf. lia.
Qed.

Lemma nth_In_R (l : list R) (k : nat) :
  (k < length l)%nat -> In (nth k l 0) l.
Proof. apply nth_In. Qed.

(** The selection made by [select_max] on a non-empty list of values:
    the first position holding the maximum. *)
Lemma select_max_spec (meas : list R) (A : matrix) (w : world) :
  meas <> [] ->
  exists k,
    select_max meas A w = (w, inr (col k A, nth k meas 0)) /\
    (k < length meas)%nat /\
    (forall j, (j < length meas)%nat -> nth j meas 0 <= nth k meas 0) /\
    (forall j, (j < k)%nat -> nth j meas 0 < nth k meas 0).
Proof.
  intros Hne. destruct (np_max_nonempty meas Hne) as [m Hm].
  destruct (np_max_spec meas m Hm) as [Hin Hub].
  destruct (np_where_eq_first meas m 0 Hin) as (k & rest & Hw & Hk & Hn & Hf).
  exists k. unfold select_max. rewrite Hm, Hw. simpl. rewrite Hn.
  repeat split; auto.
  - intros j Hj. apply Hub. now apply nth_In.
  - intros j Hj.
    assert (nth j meas 0 <= m) by (apply Hub, nth_In; lia).
    specialize (Hf j Hj). lra.
Qed.

Lemma measure_spec (X : matrix) (d : ekw) (A : matrix) (ndir : nat)
  (w : world) (f : evaluator) :
  most (obj w) = Some f -> (0 < ndir)%nat ->
  measure X d A ndir w =
    (w, inr (map (fun i => index_value (obj w) f d (col i (mat_mul X A)))
               (seq 0 ndir))).
Proof.
  intros Hf Hn. unfold measure, bind, get_self, getattr, ret.
  destruct ndir as [|n]; [lia|]. now rewrite Hf.
Qed.

(** ** The grids *)

Lemma linspace_length (a b : R) (n : nat) (e : bool) :
  length (linspace a b n e) = n.
Proof. unfold linspace. now rewrite length_map, length_seq. Qed.

Lemma nth_map_in {A B : Type} (f : A -> B) (l : list A) (i : nat) (d : B)
  (a : A) :
  (i < length l)%nat -> nth i (map f l) d = f (nth i l a).
Proof.
  revert i; induction l as [|x l IH]; intros i Hi; simpl in *; [lia|].
  destruct i as [|i]; [reflexivity|]. apply IH. lia.
Qed.

Lemma linspace_nth (a b : R) (n : nat) (e : bool) (i : nat) :
  (i < n)%nat ->
  nth i (linspace a b n e) 0 =
    a + INR i * ((b - a) / INR (if e then (n - 1)%nat else n)).
Proof.
  intros Hi. unfold linspace.
  rewrite (nth_map_in _ _ _ _ 0%nat) by now rewrite length_seq.
  now rewrite seq_nth.
Qed.

Lemma rescale_nth (o : R) (angles : list R) (i : nat) :
  (i < length angles)%nat ->
  nth i (rescale o (grid_matrix angles)) [] =
    [cos (nth i angles 0) * o; sin (nth i angles 0) * o].
Proof.
  intros Hi. unfold rescale, grid_matrix.
  destruct (Req_dec_T o 1) as [->|Hne].
  - rewrite (nth_map_in _ _ _ _ 0) by exact Hi.
    unfold direction. now rewrite !Rmult_1_r.
  - rewrite map_map. now rewrite (nth_map_in _ _ _ _ 0) by exact Hi.
Qed.

Lemma rescale_length (o : R) (A : matrix) : length (rescale o A) = length A.
Proof. unfold rescale. destruct (Req_dec_T o 1); [|rewrite length_map]; auto. Qed.

Lemma coarse_grid_length (s : ppdire) (n : nat) (o : R) :
  length (coarse_grid s n o) = n.
Proof.
  unfold coarse_grid, grid_matrix, coarse_angles.
  now rewrite rescale_length, length_map, linspace_length.
Qed.

Lemma refine_grid_length (c : grid_cache) (n : nat) :
  length (refine_grid c n) = n.
Proof.
  unfold refine_grid, grid_matrix, refine_angles.
  now rewrite rescale_length, length_map, linspace_length.
Qed.

Lemma norm_direction (theta o : R) :
  norm [cos theta * o; sin theta * o] = Rabs o.
Proof.
  unfold norm, sumsq; simpl.
  replace (cos theta * o * (cos theta * o) + (sin theta * o * (sin theta * o) + 0))
    with (((sin theta)² + (cos theta)²) * (o * o)) by (unfold Rsqr; ring).
  rewrite sin2_cos2, Rmult_1_l. apply sqrt_Rsqr_abs.
Qed.

(** ** [_gridplane] *)

Lemma gridplane_run (w : world) (f : evaluator) (X : matrix) (pa : ekw)
  (kw : gp_kwargs) (a : matrix) (ndir : nat) :
  most (obj w) = Some f -> kw_alphamat kw = Some a ->
  gp_ndir pa kw = Some ndir -> (0 < ndir)%nat -> ncols X = 2%nat ->
  let s := obj w in
  let A := coarse_grid s ndir (from_option (kw_optmax kw) (snd (optrange s))) in
  let value := fun i =>
    index_value s f (gp_pi_arguments s pa kw) (mat_vec X (col i A)) in
  exists k,
    _gridplane X pa kw w = (after_gridplane w X kw, inr (col k A, value k)) /\
    (k < ndir)%nat /\
    (forall i, (i < ndir)%nat -> value i <= value k) /\
    (forall i, (i < k)%nat -> value i < value k).
Proof.
  intros Hf Ha Hn Hpos HX s A value.
  set (w1 := mk_world (obj w) (trace w ++ [Call_gridplane X])).
  set (meas := map (fun i => index_value s f (gp_pi_arguments s pa kw)
                               (col i (mat_mul X A))) (seq 0 ndir)).
  assert (Hlen : length meas = ndir)
    by (unfold meas; now rewrite length_map, length_seq).
  assert (Hne : meas <> [])
    by (intros E; rewrite E in Hlen; simpl in Hlen; lia).
  assert (Hval : forall i, (i < ndir)%nat -> nth i meas 0 = value i).
  { intros i Hi. unfold meas.
    rewrite (nth_map_in _ _ _ _ 0%nat) by now rewrite length_seq.
    rewrite seq_nth by exact Hi. simpl. unfold value, col, mat_mul.
    f_equal. apply nth_map_in. unfold A. now rewrite coarse_grid_length. }
  destruct (select_max_spec meas A w1 Hne) as (k & Hsel & Hk & Hub & Hfirst).
  exists k. rewrite Hlen in *. split; [|split; [exact Hk|split]].
  - unfold _gridplane.
    rewrite (bind_run (log _) _ w w1 tt) by reflexivity.
    rewrite (bind_run get_self _ w1 w1 s) by reflexivity.
    cbv beta zeta. rewrite Ha, Hn.
    rewrite (bind_run (check_plane X) _ w1 w1 tt)
      by (unfold check_plane; now rewrite HX).
    rewrite (bind_run _ _ w1 w1 meas) by (now apply measure_spec).
    rewrite (bind_run _ _ _ _ _ Hsel).
    rewrite (Hval k Hk). reflexivity.
  - intros i Hi. rewrite <- (Hval i Hi), <- (Hval k Hk). now apply Hub.
  - intros i Hi. rewrite <- (Hval i), <- (Hval k Hk) by lia. now apply Hfirst.
Qed.

(** C1 (as amended).  For every block of two columns, every number of
    directions [ndir >= 1] and every projection index, a call of
    [_gridplane] that is given a candidate matrix, as every call in
    [fit] is, returns a direction of the generated grid whose index
    value (squared when [square_pi]) is the greatest over the [ndir]
    candidates, the first such in angular order, of Euclidean norm
    [|optmax|]. *)
Theorem gridplane_first_maximum :
  forall (w : world) (f : evaluator) (X : matrix) (pa : ekw)
         (kw : gp_kwargs) (a : matrix) (ndir : nat),
    most (obj w) = Some f -> kw_alphamat kw = Some a ->
    gp_ndir pa kw = Some ndir -> (0 < ndir)%nat -> ncols X = 2%nat ->
    gridplane_contract w f X pa kw ndir.
Proof.
  intros w f X pa kw a ndir Hf Ha Hn Hpos HX.
  assert (Hc : forall i, (i < ndir)%nat ->
            col i (coarse_grid (obj w) ndir
                     (from_option (kw_optmax kw) (snd (optrange (obj w))))) =
            [cos (Rmax (stop0c (obj w)) (stop0s (obj w)) + INR i *
                    ((Rmax (stop1c (obj w)) (stop1s (obj w)) -
                      Rmax (stop0c (obj w)) (stop0s (obj w))) / INR ndir)) *
               from_option (kw_optmax kw) (snd (optrange (obj w)));
             sin (Rmax (stop0c (obj w)) (stop0s (obj w)) + INR i *
                    ((Rmax (stop1c (obj w)) (stop1s (obj w)) -
                      Rmax (stop0c (obj w)) (stop0s (obj w))) / INR ndir)) *
               from_option (kw_optmax kw) (snd (optrange (obj w)))]).
  { intros i Hi. unfold col, coarse_grid, coarse_angles.
    rewrite rescale_nth by now rewrite linspace_length.
    now rewrite linspace_nth by exact Hi. }
  unfold gridplane_contract. cbv zeta. split; [exact Hc|].
  destruct (gridplane_run w f X pa kw a ndir Hf Ha Hn Hpos HX)
    as (k & Hrun & Hk & Hub & Hfirst).
  cbv zeta in Hub, Hfirst, Hrun.
  exists k. rewrite Hrun, (Hc k Hk). split; [reflexivity|].
  split; [exact Hk|]. split; [|split].
  - intros i Hi. rewrite <- (Hc i Hi), <- (Hc k Hk). now apply Hub.
  - intros i Hi. rewrite <- (Hc i), <- (Hc k Hk) by lia. now apply Hfirst.
  - apply norm_direction.
Qed.

Lemma gridplane_first_maximum_witness :
  most (obj (sample_world 1)) = Some (pi_new sample_index []) /\
  kw_alphamat (sample_grid_args 3) = Some [] /\
  gp_ndir ekw_empty (sample_grid_args 3) = Some 3%nat /\
  (0 < 3)%nat /\ ncols sample_plane = 2%nat /\
  gridplane_contract (sample_world 1) (pi_new sample_index []) sample_plane
    ekw_empty (sample_grid_args 3) 3.
Proof.
  repeat (split; [reflexivity || lia|]).
  apply (gridplane_first_maximum (sample_world 1) (pi_new sample_index [])
           sample_plane ekw_empty (sample_grid_args 3) [] 3);
    reflexivity || lia.
Defined.

(** C1 as stated fails without a direction to scan: with [ndir = 0]
    the list of values is empty and [np.max] raises; and a call that
    passes no candidate matrix fails on [(alphamat != None).all()]. *)
Lemma gridplane_zero_directions_counterexample :
  _gridplane sample_plane ekw_empty (sample_grid_args 0) (sample_world 1) =
    (mk_world (sample_ready 1) [Call_gridplane sample_plane],
     inl (ValueError
       "zero-size array to reduction operation maximum which has no identity"))
  /\
  _gridplane sample_plane ekw_empty
    (mk_gp_kwargs None None (Some 5%nat) None None None None None)
    (sample_world 1) =
    (mk_world (sample_ready 1) [Call_gridplane sample_plane],
     inl (AttributeError "'bool' object has no attribute 'all'")).
Proof. split; reflexivity. Qed.

(** ** [_gridplane_2] *)

Lemma gridplane_2_run (w : world) (f : evaluator) (c : grid_cache)
  (X : matrix) (q : R) (dv : Z) (pa : ekw) (kw : gp_kwargs) (a : matrix)
  (ndir : nat) :
  most (obj w) = Some f -> cache (obj w) = Some c ->
  kw_alphamat kw = Some a -> gp_ndir pa kw = Some ndir -> (0 < ndir)%nat ->
  ncols X = 2%nat ->
  let s := obj w in
  let A := map (reexpress q) (refine_grid c ndir) in
  let value := fun i =>
    index_value s f (gp_pi_arguments s pa kw) (mat_vec X (col i A)) in
  exists k,
    _gridplane_2 X q dv pa kw w =
      (mk_world s (trace w ++ [Call_gridplane_2 X q dv]),
       inr (col k A, value k)) /\
    (k < ndir)%nat /\
    (forall i, (i < ndir)%nat -> value i <= value k) /\
    (forall i, (i < k)%nat -> value i < value k).
Proof.
  intros Hf Hc Ha Hn Hpos HX s A value.
  set (w1 := mk_world (obj w) (trace w ++ [Call_gridplane_2 X q dv])).
  set (meas := map (fun i => index_value s f (gp_pi_arguments s pa kw)
                               (col i (mat_mul X A))) (seq 0 ndir)).
  assert (Hlen : length meas = ndir)
    by (unfold meas; now rewrite length_map, length_seq).
  assert (Hne : meas <> [])
    by (intros E; rewrite E in Hlen; simpl in Hlen; lia).
  assert (Hval : forall i, (i < ndir)%nat -> nth i meas 0 = value i).
  { intros i Hi. unfold meas.
    rewrite (nth_map_in _ _ _ _ 0%nat) by now rewrite length_seq.
    rewrite seq_nth by exact Hi. simpl. unfold value, col, mat_mul.
    f_equal. apply nth_map_in. unfold A.
    now rewrite length_map, refine_grid_length. }
  destruct (select_max_spec meas A w1 Hne) as (k & Hsel & Hk & Hub & Hfirst).
  exists k. rewrite Hlen in *. split; [|split; [exact Hk|split]].
  - unfold _gridplane_2.
    rewrite (bind_run (log _) _ w w1 tt) by reflexivity.
    rewrite (bind_run get_self _ w1 w1 s) by reflexivity.
    cbv beta zeta. rewrite Ha.
    rewrite (bind_run (getattr _ cache) _ w1 w1 c)
      by (unfold getattr; simpl; now rewrite Hc).
    rewrite Hn.
    rewrite (bind_run (check_plane X) _ w1 w1 tt)
      by (unfold check_plane; now rewrite HX).
    rewrite (bind_run _ _ w1 w1 meas) by (now apply measure_spec).
    rewrite <- (Hval k Hk). exact Hsel.
  - intros i Hi. rewrite <- (Hval i Hi), <- (Hval k Hk). now apply Hub.
  - intros i Hi. rewrite <- (Hval i), <- (Hval k Hk) by lia. now apply Hfirst.
Qed.

(** Case analysis on the matches of a monadic computation, innermost
    scrutinee first. *)
Ltac destruct_inner x :=
  match x with
  | context [match ?y with _ => _ end] => destruct_inner y
  | _ => destruct x eqn:?
  end.

Ltac run_cases_tac :=
  repeat (simpl;
          match goal with
          | |- context [match ?x with _ => _ end] => destruct_inner x
          end);
  try reflexivity.

(** [_gridplane_2] logs its call first and logs nothing else, whatever
    happens next. *)
Lemma gridplane_2_trace (X : matrix) (q : R) (dv : Z) (pa : ekw)
  (kw : gp_kwargs) (w : world) :
  fst (_gridplane_2 X q dv pa kw w) =
    mk_world (obj w) (trace w ++ [Call_gridplane_2 X q dv]).
Proof.
  unfold _gridplane_2, measure, select_max, check_plane, getattr, log,
    get_self, bind, ret, raise.
  run_cases_tac.
Qed.

(** [div] has no influence on what [_gridplane_2] returns. *)
Lemma gridplane_2_ignores_div (X : matrix) (q : R) (d1 d2 : Z) (pa : ekw)
  (kw : gp_kwargs) (w : world) :
  snd (_gridplane_2 X q d1 pa kw w) = snd (_gridplane_2 X q d2 pa kw w).
Proof.
  unfold _gridplane_2, measure, select_max, check_plane, getattr, log,
    get_self, bind, ret, raise.
  run_cases_tac.
Qed.

Lemma reexpress_pair (q x y : R) :
  reexpress q [x; y] =
    [x / sqrt (1 + 2 * (x * y) * q); y / sqrt (1 + 2 * (x * y) * q)].
Proof. reflexivity. Qed.

Lemma open_grid_below_stop (a b : R) (n i : nat) :
  a < b -> (i < n)%nat -> a + INR i * ((b - a) / INR n) < b.
Proof.
  intros Hab Hi.
  assert (Hn : 0 < INR n) by (apply lt_0_INR; lia).
  assert (Hin : INR i < INR n) by now apply lt_INR.
  assert (Hq : INR i * ((b - a) / INR n) < b - a).
  { unfold Rdiv. rewrite <- Rmult_assoc.
    apply (Rmult_lt_reg_r (INR n)); [exact Hn|].
    rewrite Rmult_assoc, Rinv_l by lra. nra. }
  lra.
Qed.

(** C7.  The refiner scans a closed, evenly spaced grid over the sector
    between the smaller of the cached cosine and sine bounds (first
    angle at the start, last angle at the stop) and divides each
    candidate [(cos t, sin t)] by [sqrt (1 + 2 cos t sin t q)]; the
    coarse search scans an open grid over the sector between the larger
    bounds, which stays strictly below its stop.  [optmax] is [1], as
    [__init__] fixes it. *)
Theorem refiner_closed_grid :
  forall (w : world) (f : evaluator) (c : grid_cache) (X : matrix) (q : R)
         (dv : Z) (pa : ekw) (kw : gp_kwargs) (a : matrix) (ndir : nat),
    most (obj w) = Some f -> cache (obj w) = Some c -> optmax c = 1 ->
    kw_alphamat kw = Some a -> gp_ndir pa kw = Some ndir ->
    (0 < ndir)%nat -> ncols X = 2%nat ->
    refiner_contract w c X q dv pa kw ndir.
Proof.
  intros w f c X q dv pa kw a ndir Hf Hc Ho Ha Hn Hpos HX.
  unfold refiner_contract. cbv zeta.
  assert (Hang : forall i, (i < ndir)%nat ->
            nth i (refine_angles c ndir) 0 =
            Rmin (_stop0c c) (_stop0s c) + INR i *
              ((Rmin (_stop1c c) (_stop1s c) - Rmin (_stop0c c) (_stop0s c))
               / INR (ndir - 1)))
    by (intros i Hi; unfold refine_angles; now rewrite linspace_nth).
  assert (Hcand : forall i, (i < ndir)%nat ->
            col i (map (reexpress q) (refine_grid c ndir)) =
            reexpress q [cos (nth i (refine_angles c ndir) 0);
                         sin (nth i (refine_angles c ndir) 0)]).
  { intros i Hi. unfold col.
    rewrite (nth_map_in (reexpress q) (refine_grid c ndir) i [] ([] : vec))
      by now rewrite refine_grid_length.
    unfold refine_grid. rewrite Ho.
    rewrite rescale_nth
      by (unfold refine_angles; now rewrite linspace_length).
    now rewrite !Rmult_1_r. }
  split; [split|split; [exact Hang|split; [|split; [|split; [|split]]]]].
  - simpl. ring.
  - intros H1.
    assert (INR (ndir - 1) <> 0) by (apply not_0_INR; lia).
    field. assumption.
  - intros i Hi. rewrite (Hcand i Hi), reexpress_pair, (Hang i Hi).
    reflexivity.
  - destruct (gridplane_2_run w f c X q dv pa kw a ndir Hf Hc Ha Hn Hpos HX)
      as (k & Hrun & Hk & _).
    exists k. eexists. split; [exact Hk|].
    rewrite Hrun, (Hcand k Hk), reexpress_pair, (Hang k Hk). reflexivity.
  - intros i Hi. unfold coarse_angles. now rewrite linspace_nth.
  - intros i Hi. unfold col, coarse_grid.
    rewrite rescale_nth
      by (unfold coarse_angles; now rewrite linspace_length).
    unfold coarse_angles. rewrite linspace_nth by exact Hi.
    now rewrite !Rmult_1_r.
  - intros Hab i Hi. now apply open_grid_below_stop.
Qed.

Lemma refiner_closed_grid_witness :
  most (obj (sample_world 1)) = Some (pi_new sample_index []) /\
  cache (obj (sample_world 1)) = Some (default_cache (sample_self 1)) /\
  optmax (default_cache (sample_self 1)) = 1 /\
  kw_alphamat (sample_grid_args 3) = Some [] /\
  gp_ndir ekw_empty (sample_grid_args 3) = Some 3%nat /\
  (0 < 3)%nat /\ ncols sample_plane = 2%nat /\
  refiner_contract (sample_world 1) (default_cache (sample_self 1))
    sample_plane (1 / 2) 4 ekw_empty (sample_grid_args 3) 3.
Proof.
  repeat (split; [reflexivity || lia|]).
  apply (refiner_closed_grid (sample_world 1) (pi_new sample_index [])
           (default_cache (sample_self 1)) sample_plane (1 / 2) 4 ekw_empty
           (sample_grid_args 3) [] 3);
    reflexivity || lia.
Defined.

(** With the range [(-1, 1)] set by [__init__], the coarse sector is
    [[0, PI)] and the refiner's sector is [[-PI/2, PI/2]]. *)
Lemma default_sectors (s : ppdire) :
  optrange s = (-1, 1) ->
  Rmax (stop0c s) (stop0s s) = 0 /\ Rmax (stop1c s) (stop1s s) = PI /\
  Rmin (stop0c s) (stop0s s) = - (PI / 2) /\
  Rmin (stop1c s) (stop1s s) = PI / 2.
Proof.
  intros H. unfold stop0c, stop0s, stop1c, stop1s. rewrite H. simpl.
  assert (Hp : np_sign 1 = 1).
  { unfold np_sign. destruct (Rlt_dec 0 1); [reflexivity|lra]. }
  assert (Hm : np_sign (-1) = -1).
  { unfold np_sign. destruct (Rlt_dec 0 (-1)); [lra|].
    destruct (Rlt_dec (-1) 0); [reflexivity|lra]. }
  rewrite Hp, Hm. replace (-1) with (- (1)) by lra.
  rewrite acos_opp, asin_opp, acos_1, asin_1.
  pose proof PI_RGT_0.
  replace (PI - 0) with PI by lra.
  repeat split.
  - apply Rmax_left. lra.
  - apply Rmax_left. lra.
  - apply Rmin_right. lra.
  - apply Rmin_right. lra.
Qed.

(** ** The grid helpers as [fit] calls them *)

Lemma set_cache_same (s : ppdire) (c : grid_cache) :
  cache s = Some c -> set_cache s c = s.
Proof. destruct s; simpl; intros ->; reflexivity. Qed.

Lemma gp_ndir_empty (ga : gp_kwargs) (n : nat) :
  kw_ndir ga = Some n -> gp_ndir ekw_empty ga = Some n.
Proof. unfold gp_ndir. now intros ->. Qed.

Lemma col_coarse_grid_length (s : ppdire) (n : nat) (o : R) (k : nat) :
  (k < n)%nat -> length (col k (coarse_grid s n o)) = 2%nat.
Proof.
  intros Hk. unfold col, coarse_grid.
  now rewrite rescale_nth
    by (unfold coarse_angles; now rewrite linspace_length).
Qed.

Lemma col_refine_grid_length (c : grid_cache) (n : nat) (q : R) (k : nat) :
  (k < n)%nat ->
  length (col k (map (reexpress q) (refine_grid c n))) = 2%nat.
Proof.
  intros Hk. unfold col.
  rewrite (nth_map_in (reexpress q) (refine_grid c n) k [] ([] : vec))
    by now rewrite refine_grid_length.
  unfold reexpress. rewrite length_map. unfold refine_grid.
  now rewrite rescale_nth
    by (unfold refine_angles; now rewrite linspace_length).
Qed.

Lemma gridplane_in_fit (w : world) (f : evaluator) (ga : gp_kwargs)
  (n : nat) (X : matrix) :
  fit_world w f -> fit_grid_args ga n -> ncols X = 2%nat ->
  exists r,
    _gridplane X ekw_empty ga w =
      (mk_world (obj w) (trace w ++ [Call_gridplane X]), inr r) /\
    length (fst r) = 2%nat.
Proof.
  intros [Hf Hc] (Ha & Hn & Hpos & Ho) HX.
  destruct (kw_alphamat ga) as [a|] eqn:Ea; [|congruence].
  destruct (gridplane_run w f X ekw_empty ga a n Hf Ea (gp_ndir_empty _ _ Hn)
              Hpos HX) as (k & Hrun & Hk & _).
  eexists. split.
  - rewrite Hrun. unfold after_gridplane. rewrite Ho. simpl from_option.
    fold (default_cache (obj w)). now rewrite (set_cache_same _ _ Hc).
  - simpl. now apply col_coarse_grid_length.
Qed.

Lemma gridplane_2_in_fit (w : world) (f : evaluator) (ga : gp_kwargs)
  (n : nat) (X : matrix) (q : R) (dv : Z) :
  fit_world w f -> fit_grid_args ga n -> ncols X = 2%nat ->
  exists r,
    _gridplane_2 X q dv ekw_empty ga w =
      (mk_world (obj w) (trace w ++ [Call_gridplane_2 X q dv]), inr r) /\
    length (fst r) = 2%nat.
Proof.
  intros [Hf Hc] (Ha & Hn & Hpos & Ho) HX.
  destruct (kw_alphamat ga) as [a|] eqn:Ea; [|congruence].
  destruct (gridplane_2_run w f _ X q dv ekw_empty ga a n Hf Hc Ea
              (gp_ndir_empty _ _ Hn) Hpos HX) as (k & Hrun & Hk & _).
  eexists. split; [exact Hrun|].
  simpl. now apply col_refine_grid_length.
Qed.

Lemma fit_world_trace (w : world) (f : evaluator) (tr : list event) :
  fit_world w f -> fit_world (mk_world (obj w) tr) f.
Proof. intros H. exact H. Qed.

(** ** The sweep *)

Lemma set_nth_length (i : nat) (x : R) (v : vec) :
  length (set_nth i x v) = length v.
Proof.
  revert i; induction v as [|a v IH]; intros [|i]; simpl; auto.
Qed.

Lemma vscale_length (c : R) (v : vec) : length (vscale c v) = length v.
Proof. unfold vscale. apply length_map. Qed.

Lemma refine_variable_trace (Zc : matrix) (cap : Z) (ga2 : gp_kwargs)
  (j : nat) (r : reducer_state) (w : world) :
  fst (refine_variable Zc cap ga2 j r w) =
    mk_world (obj w) (trace w ++ [refiner_call Zc cap j r]).
Proof.
  unfold refine_variable, bind.
  pose proof (gridplane_2_trace (projmat Zc j r) (nth j (afin r) 0)
                (divv cap j) ekw_empty ga2 w) as H.
  destruct (_gridplane_2 _ _ _ _ _ w) as [w' [e|res]]; exact H.
Qed.

Lemma refine_variable_run (w : world) (f : evaluator) (ga2 : gp_kwargs)
  (n : nat) (Zc : matrix) (cap : Z) (j : nat) (r : reducer_state) :
  fit_world w f -> fit_grid_args ga2 n ->
  exists r',
    refine_variable Zc cap ga2 j r w =
      (mk_world (obj w) (trace w ++ [refiner_call Zc cap j r]), inr r') /\
    length (afin r') = length (afin r).
Proof.
  intros Hw Hga.
  destruct (gridplane_2_in_fit w f ga2 n (projmat Zc j r) (nth j (afin r) 0)
              (divv cap j) Hw Hga eq_refl) as (res & Hrun & _).
  eexists. split.
  - unfold refine_variable. rewrite (bind_run _ _ _ _ _ Hrun). reflexivity.
  - simpl. now rewrite set_nth_length, vscale_length.
Qed.

Lemma sweep_from_run (w : world) (f : evaluator) (ga2 : gp_kwargs) (n : nat)
  (Zc : matrix) (cap : Z) (k a : nat) (r : reducer_state) :
  fit_world w f -> fit_grid_args ga2 n ->
  exists r' evs,
    foldM (refine_variable Zc cap ga2) (seq a k) r w =
      (mk_world (obj w) (trace w ++ evs), inr r') /\
    Forall2 (fun j ev => exists rj, ev = refiner_call Zc cap j rj)
      (seq a k) evs /\
    length (afin r') = length (afin r).
Proof.
  intros Hw Hga. revert a r w Hw.
  induction k as [|k IH]; intros a r w Hw.
  - exists r, []. simpl. rewrite app_nil_r. destruct w. repeat split.
    constructor.
  - destruct (refine_variable_run w f ga2 n Zc cap a r Hw Hga)
      as (r1 & Hrun & Hlen).
    destruct (IH (S a) r1
                (mk_world (obj w) (trace w ++ [refiner_call Zc cap a r]))
                (fit_world_trace w f _ Hw))
      as (r' & evs & Hrest & Hall & Hlen').
    exists r', (refiner_call Zc cap a r :: evs). split; [|split].
    + simpl. rewrite (bind_run _ _ _ _ _ Hrun). rewrite Hrest. simpl.
      now rewrite <- app_assoc.
    + constructor; [now exists r|exact Hall].
    + congruence.
Qed.

Lemma round_log2_spec (m : Z) :
  (1 <= m)%Z ->
  (2 ^ (2 * round_log2 m - 1) <= m * m < 2 ^ (2 * round_log2 m + 1))%Z.
Proof.
  intros Hm. unfold round_log2.
  assert (Hpos : (0 < m * m)%Z) by nia.
  pose proof (Z.log2_spec (m * m) Hpos) as [Hlo Hhi].
  pose proof (Z.log2_nonneg (m * m)) as Hnn.
  set (L := Z.log2 (m * m)) in *.
  pose proof (Z.div_mod (L + 1) 2 ltac:(lia)) as Hdm.
  pose proof (Z.mod_pos_bound (L + 1) 2 ltac:(lia)) as Hb.
  set (k := ((L + 1) / 2)%Z) in *.
  assert (Hc : ((L + 1) mod 2 = 0 \/ (L + 1) mod 2 = 1)%Z) by lia.
  destruct Hc as [Hc|Hc]; rewrite Hc in Hdm.
  - replace (2 * k - 1)%Z with L by lia.
    replace (2 * k + 1)%Z with (Z.succ L + 1)%Z by lia.
    split; [exact Hlo|].
    eapply Z.lt_le_trans; [exact Hhi|].
    apply Z.pow_le_mono_r; lia.
  - replace (2 * k + 1)%Z with (Z.succ L) by lia.
    split; [|exact Hhi].
    eapply Z.le_trans; [|exact Hlo].
    apply Z.pow_le_mono_r; lia.
Qed.

Lemma maxiter_2j_run (m : Z) (w : world) :
  (1 <= m)%Z -> maxiter_2j m w = (w, inr (2 ^ round_log2 m)%Z).
Proof.
  intros Hm. unfold maxiter_2j.
  destruct (m =? 0)%Z eqn:E0; [lia|].
  destruct (m <? 0)%Z eqn:E1; [lia|]. reflexivity.
Qed.

(** C4 (as amended).  In every sweep of the outer loop the refiner is
    called once per variable [j = 0 .. p-1], in order, with
    [q = afin[j]] and the subdivision count [2^round(log2(maxiter))]
    for [j > 16] and [min(2^j, 2^round(log2(maxiter)))] otherwise. *)
Theorem sweep_calls_refiner :
  forall (w : world) (f : evaluator) (ga2 : gp_kwargs) (n : nat)
         (Zc : matrix) (p : nat) (maxiter : Z) (r : reducer_state),
    (1 <= maxiter)%Z -> fit_world w f -> fit_grid_args ga2 n ->
    sweep_contract w Zc p maxiter ga2 r.
Proof.
  intros w f ga2 n Zc p maxiter r Hm Hw Hga.
  unfold sweep_contract. cbv zeta. split; [|split; [|split]].
  - now apply round_log2_spec.
  - now apply maxiter_2j_run.
  - intros j r0 w0. apply refine_variable_trace.
  - destruct (sweep_from_run w f ga2 n Zc (2 ^ round_log2 maxiter) p 0 r
                Hw Hga) as (r' & evs & Hrun & Hall & _).
    exists r', evs. split; [exact Hrun|exact Hall].
Qed.

Lemma sweep_calls_refiner_witness :
  (1 <= 3)%Z /\
  fit_world (sample_world 1) (pi_new sample_index []) /\
  fit_grid_args (sample_grid_args 3) 3 /\
  sweep_contract (sample_world 1) sample_data 3 3 (sample_grid_args 3)
    sample_reducer.
Proof.
  assert (H1 : (1 <= 3)%Z) by lia.
  assert (H2 : fit_world (sample_world 1) (pi_new sample_index []))
    by (split; reflexivity).
  assert (H3 : fit_grid_args (sample_grid_args 3) 3)
    by (repeat split; try discriminate; lia).
  repeat (split; [assumption|]).
  exact (sweep_calls_refiner (sample_world 1) (pi_new sample_index [])
           (sample_grid_args 3) 3 sample_data 3 3 sample_reducer H1 H2 H3).
Defined.

(** C4 as stated fails at [maxiter = 3], [j = 2]: the cap is
    [2^round(log2 3) = 4] and the call carries [4], where the claim has
    [min(2^2, 2^floor(log2 3)) = 2]; and the count passed has no effect
    on what the refiner scans or returns. *)
Lemma subdivision_count_counterexample :
  maxiter_2j 3 (sample_world 1) = (sample_world 1, inr 4%Z) /\
  fst (refine_variable sample_data 4 (sample_grid_args 3) 2 sample_reducer
         (sample_world 1)) =
    mk_world (sample_ready 1)
      [Call_gridplane_2 (projmat sample_data 2 sample_reducer) 0 4] /\
  claimed_subdivision 3 2 = 2%Z /\
  snd (_gridplane_2 sample_plane 0 4 ekw_empty (sample_grid_args 3)
         (sample_world 1)) =
  snd (_gridplane_2 sample_plane 0 2 ekw_empty (sample_grid_args 3)
         (sample_world 1)).
Proof.
  split; [reflexivity|]. split; [|split; [reflexivity|]].
  - rewrite refine_variable_trace. reflexivity.
  - apply gridplane_2_ignores_div.
Qed.

(** ** The outer loop *)

Lemma sumsq_nonneg (v : vec) : 0 <= sumsq v.
Proof.
  unfold sumsq. induction v as [|a v IH]; simpl; [lra|].
  pose proof (Rle_0_sqr a) as H. unfold Rsqr in H. lra.
Qed.

Lemma sumsq_div (v : vec) (c : R) :
  sumsq (map (fun x => x / c) v) = sumsq v * (/ c * / c).
Proof.
  unfold sumsq. induction v as [|a v IH]; simpl; [ring|].
  rewrite IH. unfold Rdiv. ring.
Qed.

Lemma norm_normalize (v : vec) : sumsq v <> 0 -> norm (normalize v) = 1.
Proof.
  intros Hne. pose proof (sumsq_nonneg v) as Hnn.
  assert (Hpos : 0 < sumsq v) by lra.
  assert (Hs : 0 < sqrt (sumsq v)) by now apply sqrt_lt_R0.
  unfold norm, normalize. rewrite sumsq_div.
  replace (sumsq v * (/ sqrt (sumsq v) * / sqrt (sumsq v))) with 1.
  - apply sqrt_1.
  - rewrite <- (sqrt_sqrt (sumsq v)) at 1 by lra. field. lra.
Qed.

Lemma outer_body_run (w : world) (f : evaluator) (ga ga2 : gp_kwargs)
  (n : nat) (Zc : matrix) (p : nat) (cap : Z) (s : loop_state) :
  fit_world w f -> fit_grid_args ga2 n ->
  exists r' evs,
    let objf' :=
      index_value (obj w) f (with_q (ekw_of_kwargs ga) (afin r'))
        (mat_vec Zc (afin r')) in
    outer_body Zc p cap ga ga2 s w =
      (mk_world (obj w) (trace w ++ evs),
       inr (mk_loop r' objf' (objf s)
              (if Req_dec_T objf' (objf s) then afinbest s
               else if String.eqb (constraint (obj w)) "norm"
                    then Fresh (normalize (afin r'))
                    else Alias)
              (ii s + 1)%Z)) /\
    length (afin r') = length (afin (red s)).
Proof.
  intros Hw Hga.
  destruct (sweep_from_run w f ga2 n Zc cap p 0 (red s) Hw Hga)
    as (r' & evs & Hrun & _ & Hlen).
  destruct Hw as [Hf Hc].
  exists r'.
  exists (evs ++ if verbose (par (obj w))
                 then [Printed_number (ii s + 1)%Z] else []).
  cbv zeta. split; [|exact Hlen].
  unfold outer_body, sweep. rewrite (bind_run _ _ _ _ _ Hrun).
  set (w1 := mk_world (obj w) (trace w ++ evs)).
  rewrite (bind_run get_self _ w1 w1 (obj w)) by reflexivity.
  rewrite (bind_run (getattr _ most) _ w1 w1 f)
    by (unfold getattr; simpl; now rewrite Hf).
  cbv zeta.
  destruct (verbose (par (obj w))).
  - rewrite (bind_run (log _) _ w1 _ tt) by reflexivity.
    unfold ret, w1. simpl. now rewrite <- app_assoc.
  - rewrite (bind_run (ret tt) _ w1 w1 tt) by reflexivity.
    unfold ret, w1. simpl. now rewrite app_nil_r.
Qed.

(** C5 (as amended).  For [p > 2] under the constraint ['norm'], one
    pass of the outer loop rebinds the best-so-far vector exactly when
    the objective after the sweep differs from the objective before it,
    whether higher or lower, and the value it is bound to is [afin]
    divided by its Euclidean norm, of norm 1 whenever [afin] is not the
    zero vector. *)
Theorem best_rebound_on_change :
  forall (w : world) (f : evaluator) (ga ga2 : gp_kwargs) (n : nat)
         (Zc : matrix) (p : nat) (cap : Z) (s : loop_state),
    fit_world w f -> fit_grid_args ga2 n ->
    constraint (obj w) = "norm"%string ->
    outer_body_contract w f Zc p cap ga ga2 s.
Proof.
  intros w f ga ga2 n Zc p cap s Hw Hga Hnorm.
  destruct (outer_body_run w f ga ga2 n Zc p cap s Hw Hga)
    as (r' & evs & Hrun & _).
  cbv zeta in Hrun. unfold outer_body_contract.
  eexists. eexists. split; [exact Hrun|]. simpl.
  rewrite Hnorm. simpl String.eqb.
  repeat split.
  - intros Heq. destruct (Req_dec_T _ _); [reflexivity|contradiction].
  - destruct (Req_dec_T _ _); [contradiction|reflexivity].
  - apply norm_normalize.
Qed.

Lemma best_rebound_on_change_witness :
  fit_world (sample_world 1) (pi_new sample_index []) /\
  fit_grid_args (sample_grid_args 3) 3 /\
  constraint (obj (sample_world 1)) = "norm"%string /\
  outer_body_contract (sample_world 1) (pi_new sample_index []) sample_data
    3 4 (sample_grid_args 3) (sample_grid_args 3)
    (mk_loop sample_reducer (-1000) 2 Alias 0).
Proof.
  assert (H2 : fit_world (sample_world 1) (pi_new sample_index []))
    by (split; reflexivity).
  assert (H3 : fit_grid_args (sample_grid_args 3) 3)
    by (repeat split; try discriminate; lia).
  repeat (split; [assumption || reflexivity|]).
  exact (best_rebound_on_change (sample_world 1) (pi_new sample_index [])
           (sample_grid_args 3) (sample_grid_args 3) 3 sample_data 3 4
           (mk_loop sample_reducer (-1000) 2 Alias 0) H2 H3 eq_refl).
Defined.

(** C5 as stated fails when a sweep changes the objective without
    improving it.  With an index that is constantly [-2000] the first
    pass starts from the stored objective [-1000], ends on [-2000], and
    rebinds the best-so-far vector all the same. *)
Lemma best_rebound_without_improvement_counterexample :
  exists w' s',
    outer_body sample_data 3 4 (sample_grid_args 3) (sample_grid_args 3)
      (mk_loop sample_reducer (-1000) (-2000) Alias 0)
      (index_world (constant_index (-2000)) 1) = (w', inr s') /\
    objf s' < objfold s' /\
    afinbest s' = Fresh (normalize (afin (red s'))).
Proof.
  assert (H2 : fit_world (index_world (constant_index (-2000)) 1)
                 (pi_new (constant_index (-2000)) []))
    by (split; reflexivity).
  assert (H3 : fit_grid_args (sample_grid_args 3) 3)
    by (repeat split; try discriminate; lia).
  destruct (outer_body_run _ _ (sample_grid_args 3) _ _ sample_data 3 4
              (mk_loop sample_reducer (-1000) (-2000) Alias 0) H2 H3)
    as (r' & evs & Hrun & _).
  cbv zeta in Hrun. eexists. eexists. split; [exact Hrun|].
  simpl. unfold index_value. simpl. split; [lra|].
  destruct (Req_dec_T (-2000) (-1000)); [lra|reflexivity].
Qed.

Lemma while_sweeping_run (w : world) (f : evaluator) (ga ga2 : gp_kwargs)
  (n : nat) (Zc : matrix) (p : nat) (cap maxiter : Z) (fuel : nat)
  (s : loop_state) :
  fit_world w f -> fit_grid_args ga2 n ->
  exists s' evs,
    while_sweeping fuel maxiter (outer_body Zc p cap ga ga2) s w =
      (mk_world (obj w) (trace w ++ evs), inr s') /\
    (ii s <= ii s' <= ii s + Z.of_nat fuel)%Z /\
    (guard maxiter s' = false \/ ii s' = (ii s + Z.of_nat fuel)%Z) /\
    length (afin (red s')) = length (afin (red s)).
Proof.
  intros Hw Hga. revert s w Hw.
  induction fuel as [|fuel IH]; intros s w Hw.
  - exists s, []. simpl. rewrite app_nil_r. destruct w.
    split; [reflexivity|]. split; [lia|]. split; [right; lia|reflexivity].
  - simpl while_sweeping. destruct (guard maxiter s) eqn:Hg.
    + destruct (outer_body_run w f ga ga2 n Zc p cap s Hw Hga)
        as (r1 & evs1 & Hrun & Hlen1).
      cbv zeta in Hrun. rewrite (bind_run _ _ _ _ _ Hrun).
      match type of Hrun with _ = (_, inr ?t) => set (s1 := t) in * end.
      destruct (IH s1 (mk_world (obj w) (trace w ++ evs1))
                  (fit_world_trace w f _ Hw))
        as (s' & evs & Hrest & Hii & Hexit & Hlen).
      exists s', (evs1 ++ evs). rewrite Hrest. simpl obj. simpl trace.
      rewrite <- app_assoc. split; [reflexivity|].
      replace (ii s1) with (ii s + 1)%Z in * by reflexivity.
      split; [lia|]. split.
      * destruct Hexit as [H|H]; [now left|right; lia].
      * rewrite Hlen. exact Hlen1.
    + exists s, []. unfold ret. rewrite app_nil_r. destruct w.
      split; [reflexivity|]. split; [lia|]. split; [now left|reflexivity].
Qed.

(** The loop leaves only when its guard fails, and never after more
    than [maxiter + 1] passes. *)
Lemma while_sweeping_exit (w : world) (f : evaluator) (ga ga2 : gp_kwargs)
  (n : nat) (Zc : matrix) (p : nat) (cap maxiter : Z) (s : loop_state) :
  fit_world w f -> fit_grid_args ga2 n -> ii s = 0%Z ->
  exists s' evs,
    while_sweeping (Z.to_nat (maxiter + 1)) maxiter
      (outer_body Zc p cap ga ga2) s w =
      (mk_world (obj w) (trace w ++ evs), inr s') /\
    guard maxiter s' = false /\ (0 <= ii s')%Z /\
    ((0 <= maxiter + 1)%Z -> (ii s' <= maxiter + 1)%Z) /\
    length (afin (red s')) = length (afin (red s)).
Proof.
  intros Hw Hga H0.
  destruct (while_sweeping_run w f ga ga2 n Zc p cap maxiter
              (Z.to_nat (maxiter + 1)) s Hw Hga)
    as (s' & evs & Hrun & Hii & Hexit & Hlen).
  exists s', evs. split; [exact Hrun|]. rewrite H0 in *.
  split; [|split; [lia|split; [lia|exact Hlen]]].
  destruct Hexit as [H|H]; [exact H|].
  unfold guard. apply andb_false_iff. left. apply Z.ltb_ge. lia.
Qed.

(** ** The pairwise reducer *)

Lemma zeros_length (n : nat) : length (zeros n) = n.
Proof. apply repeat_length. Qed.

Lemma scale_prefix_length (k : nat) (c : R) (v : vec) :
  length (scale_prefix k c v) = length v.
Proof.
  unfold scale_prefix.
  rewrite length_app, vscale_length, <- length_app, firstn_skipn.
  reflexivity.
Qed.

Lemma seed_run (w : world) (f : evaluator) (ga : gp_kwargs) (n : nat)
  (Zc : matrix) (p : nat) :
  fit_world w f -> fit_grid_args ga n -> (2 <= length Zc)%nat ->
  exists r,
    seed Zc p ga w =
      (mk_world (obj w) (trace w ++ [Call_gridplane (firstn 2 Zc)]), inr r) /\
    length (afin r) = p.
Proof.
  intros Hw Hga HZ.
  assert (HX : ncols (firstn 2 Zc) = 2%nat)
    by (unfold ncols; rewrite length_firstn; lia).
  destruct (gridplane_in_fit w f ga n (firstn 2 Zc) Hw Hga HX)
    as (res & Hrun & _).
  eexists. split.
  - unfold seed. rewrite (bind_run _ _ _ _ _ Hrun). reflexivity.
  - cbn [afin]. now rewrite !set_nth_length, zeros_length.
Qed.

Lemma fold_variable_run (w : world) (f : evaluator) (ga : gp_kwargs)
  (n : nat) (Zc : matrix) (j : nat) (r : reducer_state) :
  fit_world w f -> fit_grid_args ga n ->
  exists r',
    fold_variable Zc ga j r w =
      (mk_world (obj w) (trace w ++ [Call_gridplane (projmat Zc j r)]),
       inr r') /\
    length (afin r') = length (afin r).
Proof.
  intros Hw Hga.
  destruct (gridplane_in_fit w f ga n (projmat Zc j r) Hw Hga eq_refl)
    as (res & Hrun & _).
  eexists. split.
  - unfold fold_variable. rewrite (bind_run _ _ _ _ _ Hrun). reflexivity.
  - simpl. now rewrite set_nth_length, scale_prefix_length.
Qed.

Lemma fold_from_run (w : world) (f : evaluator) (ga : gp_kwargs) (n : nat)
  (Zc : matrix) (k a : nat) (r : reducer_state) :
  fit_world w f -> fit_grid_args ga n ->
  exists r' evs,
    foldM (fold_variable Zc ga) (seq a k) r w =
      (mk_world (obj w) (trace w ++ evs), inr r') /\
    length evs = k /\
    (forall ev, In ev evs -> exists X, ev = Call_gridplane X) /\
    length (afin r') = length (afin r).
Proof.
  intros Hw Hga. revert a r w Hw.
  induction k as [|k IH]; intros a r w Hw.
  - exists r, []. simpl. rewrite app_nil_r. destruct w.
    repeat split. intros ev [].
  - destruct (fold_variable_run w f ga n Zc a r Hw Hga)
      as (r1 & Hrun & Hlen).
    destruct (IH (S a) r1
                (mk_world (obj w) (trace w ++ [Call_gridplane (projmat Zc a r)]))
                (fit_world_trace w f _ Hw))
      as (r' & evs & Hrest & Hn & Hall & Hlen').
    exists r', (Call_gridplane (projmat Zc a r) :: evs).
    split; [|split; [|split]].
    + simpl. rewrite (bind_run _ _ _ _ _ Hrun). rewrite Hrest. simpl.
      now rewrite <- app_assoc.
    + simpl. now rewrite Hn.
    + intros ev [<-|Hin]; [eauto|now apply Hall].
    + congruence.
Qed.

(** The reducer returns in every world in which [fit] runs it: the
    loop has left because its guard failed, after at most
    [maxiter + 1] passes, and the direction is the last [afin]. *)
Lemma pairwise_reducer_run (w : world) (f : evaluator) (ga ga2 : gp_kwargs)
  (n n2 : nat) (Zc : matrix) (p : nat) (maxiter : Z) :
  fit_world w f -> fit_grid_args ga n -> fit_grid_args ga2 n2 ->
  (2 <= length Zc)%nat -> (1 <= maxiter)%Z ->
  exists s' evs,
    pairwise_reducer Zc p maxiter ga ga2 w =
      (mk_world (obj w) (trace w ++ evs),
       inr (afin (red s'), objf s', s')) /\
    guard maxiter s' = false /\ (0 <= ii s' <= maxiter + 1)%Z /\
    length (afin (red s')) = p.
Proof.
  intros Hw Hga Hga2 HZ Hm.
  destruct (seed_run w f ga n Zc p Hw Hga HZ) as (r0 & Hseed & Hl0).
  set (w1 := mk_world (obj w) (trace w ++ [Call_gridplane (firstn 2 Zc)])).
  destruct (fold_from_run w1 f ga n Zc (p - 2) 2 r0
              (fit_world_trace w f _ Hw) Hga)
    as (r1 & evs1 & Hfold & _ & _ & Hl1).
  set (w2 := mk_world (obj w1) (trace w1 ++ evs1)) in *.
  set (s0 := mk_loop r1 (-1000)
               (index_value (obj w) f (ekw_of_kwargs ga)
                  (mat_vec Zc (afin r1))) Alias 0%Z).
  destruct (while_sweeping_exit w2 f ga ga2 n2 Zc p
              (2 ^ round_log2 maxiter) maxiter s0
              (fit_world_trace w f _ Hw) Hga2 eq_refl)
    as (s' & evs2 & Hloop & Hg & Hge & Hle & Hl2).
  exists s', ([Call_gridplane (firstn 2 Zc)] ++ evs1 ++ evs2).
  split; [|split; [exact Hg|split; [lia|]]].
  - unfold pairwise_reducer.
    rewrite (bind_run _ _ _ _ _ Hseed). fold w1.
    rewrite (bind_run _ _ _ _ _ Hfold).
    rewrite (bind_run get_self _ w2 w2 (obj w)) by reflexivity.
    destruct Hw as [Hf Hc].
    rewrite (bind_run (getattr _ most) _ w2 w2 f)
      by (unfold getattr; simpl; now rewrite Hf).
    cbv zeta.
    rewrite (bind_run _ _ w2 w2 _ (maxiter_2j_run maxiter w2 Hm)).
    fold s0. rewrite (bind_run _ _ _ _ _ Hloop).
    unfold ret, w2, w1. simpl. now rewrite <- !app_assoc.
  - rewrite Hl2. simpl. congruence.
Qed.

Lemma relative_change_from_start : relative_change_large 1 (-1000) = true.
Proof.
  unfold relative_change_large.
  destruct (Req_dec_T (-1000) 0); [lra|].
  destruct (Rgt_dec _ _) as [|H]; [reflexivity|]. exfalso. apply H.
  rewrite (Rabs_right (1 - -1000)), (Rabs_left (-1000)) by lra.
  replace (- -1000) with 1000 by lra. lra.
Qed.

Lemma relative_change_after_first : relative_change_large (-1000) 1 = true.
Proof.
  unfold relative_change_large.
  destruct (Req_dec_T 1 0); [lra|].
  destruct (Rgt_dec _ _) as [|H]; [reflexivity|]. exfalso. apply H.
  rewrite (Rabs_left (-1000 - 1)), (Rabs_right 1) by lra. lra.
Qed.

Lemma relative_change_none (x : R) : relative_change_large x x = false.
Proof.
  unfold relative_change_large.
  destruct (Req_dec_T x 0).
  - destruct (Req_dec_T x x); [reflexivity|congruence].
  - destruct (Rgt_dec _ _) as [H|]; [|reflexivity]. exfalso.
    rewrite Rminus_diag, Rabs_R0 in H. unfold Rdiv in H.
    rewrite Rmult_0_l in H. lra.
Qed.

Lemma index_value_one (s : ppdire) (f : evaluator) (d : ekw) (v : vec) :
  (forall u e, f u e = 1) -> index_value s f d v = 1.
Proof.
  intros H. unfold index_value. rewrite H.
  destruct (square_pi (par s)); simpl; lra.
Qed.

(** With an index that is constantly [1] the loop makes two passes
    whenever [maxiter >= 1]: one from the stored objective [-1000], one
    more to see the objective repeat. *)
Lemma constant_index_two_passes (w : world) (f : evaluator)
  (ga ga2 : gp_kwargs) (n : nat) (Zc : matrix) (p : nat) (cap maxiter : Z)
  (r : reducer_state) :
  fit_world w f -> fit_grid_args ga2 n -> (forall u e, f u e = 1) ->
  (1 <= maxiter)%Z ->
  exists s' evs,
    while_sweeping (Z.to_nat (maxiter + 1)) maxiter
      (outer_body Zc p cap ga ga2) (mk_loop r (-1000) 1 Alias 0) w =
      (mk_world (obj w) (trace w ++ evs), inr s') /\
    ii s' = 2%Z.
Proof.
  intros Hw Hga Hone Hm.
  destruct (Z.to_nat (maxiter + 1)) as [|[|fuel]] eqn:Efuel; try lia.
  simpl while_sweeping.
  assert (Hg0 : guard maxiter (mk_loop r (-1000) 1 Alias 0) = true).
  { unfold guard. simpl. rewrite relative_change_from_start.
    apply andb_true_iff. split; [apply Z.ltb_lt; lia|reflexivity]. }
  rewrite Hg0.
  destruct (outer_body_run w f ga ga2 n Zc p cap
              (mk_loop r (-1000) 1 Alias 0) Hw Hga)
    as (r1 & evs1 & Hrun1 & _).
  cbv zeta in Hrun1. rewrite (index_value_one _ _ _ _ Hone) in Hrun1.
  rewrite (bind_run _ _ _ _ _ Hrun1). simpl objf. simpl ii.
  match goal with
  | |- context [guard maxiter ?t] => set (s1 := t)
  end.
  assert (Hg1 : guard maxiter s1 = true).
  { unfold guard, s1. simpl. rewrite relative_change_after_first.
    apply andb_true_iff. split; [apply Z.ltb_lt; lia|reflexivity]. }
  rewrite Hg1.
  set (w1 := mk_world (obj w) (trace w ++ evs1)).
  destruct (outer_body_run w1 f ga ga2 n Zc p cap s1
              (fit_world_trace w f _ Hw) Hga)
    as (r2 & evs2 & Hrun2 & _).
  cbv zeta in Hrun2. rewrite (index_value_one _ _ _ _ Hone) in Hrun2.
  rewrite (bind_run _ _ _ _ _ Hrun2).
  match goal with
  | |- context [while_sweeping fuel maxiter _ ?t] => set (s2 := t)
  end.
  assert (Hg2 : guard maxiter s2 = false).
  { unfold guard, s2, s1. simpl. rewrite relative_change_none.
    apply andb_false_r. }
  exists s2, (evs1 ++ evs2). split.
  - destruct fuel as [|fuel]; simpl while_sweeping.
    + unfold ret, w1. simpl. now rewrite <- app_assoc.
    + rewrite Hg2. unfold ret, w1. simpl. now rewrite <- app_assoc.
  - reflexivity.
Qed.

(** C3, the code against the claim.  With [maxiter = 1] and an index
    that is constantly [1], the outer loop of the reducer on three
    variables makes two full sweeps: its guard is [ii < maxiter + 1].
    The direction it hands back is the last [afin], whatever the
    best-so-far vector was. *)
Theorem outer_loop_sweeps_past_maxiter :
  exists w' s',
    pairwise_reducer sample_data 3 1 (sample_grid_args 3)
      (sample_grid_args 3) (index_world (constant_index 1) 1) =
      (w', inr (afin (red s'), objf s', s')) /\
    ii s' = 2%Z /\ (1 < ii s')%Z.
Proof.
  set (w := index_world (constant_index 1) 1).
  set (f := pi_new (constant_index 1) []).
  assert (Hw : fit_world w f) by (split; reflexivity).
  assert (Hga : fit_grid_args (sample_grid_args 3) 3)
    by (repeat split; try discriminate; lia).
  assert (Hone : forall u e, f u e = 1) by reflexivity.
  destruct (seed_run w f _ 3 sample_data 3 Hw Hga ltac:(simpl; lia))
    as (r0 & Hseed & _).
  set (w1 := mk_world (obj w)
               (trace w ++ [Call_gridplane (firstn 2 sample_data)])).
  destruct (fold_from_run w1 f _ 3 sample_data (3 - 2) 2 r0
              (fit_world_trace w f _ Hw) Hga)
    as (r1 & evs1 & Hfold & _).
  set (w2 := mk_world (obj w1) (trace w1 ++ evs1)) in *.
  destruct (constant_index_two_passes w2 f (sample_grid_args 3)
              (sample_grid_args 3) 3 sample_data 3 (2 ^ round_log2 1) 1 r1
              (fit_world_trace w f _ Hw) Hga Hone ltac:(lia))
    as (s' & evs2 & Hloop & Hii).
  eexists. exists s'. split; [|split; [exact Hii|lia]].
  unfold pairwise_reducer.
  rewrite (bind_run _ _ _ _ _ Hseed). fold w1.
  rewrite (bind_run _ _ _ _ _ Hfold).
  rewrite (bind_run get_self _ w2 w2 (obj w)) by reflexivity.
  rewrite (bind_run (getattr _ most) _ w2 w2 f) by reflexivity.
  cbv zeta. rewrite (index_value_one _ _ _ _ Hone).
  rewrite (bind_run _ _ w2 w2 _ (maxiter_2j_run 1 w2 ltac:(lia))).
  rewrite (bind_run _ _ _ _ _ Hloop). reflexivity.
Qed.

(** ** Deflation *)

Lemma vadd_length (u v : vec) :
  length u = length v -> length (vadd u v) = length u.
Proof.
  revert v; induction u as [|a u IH]; intros [|b v] H; simpl in *;
    try discriminate; auto.
Qed.

Lemma vsub_length (u v : vec) :
  length u = length v -> length (vsub u v) = length u.
Proof.
  revert v; induction u as [|a u IH]; intros [|b v] H; simpl in *;
    try discriminate; auto.
Qed.

Lemma lincomb_length (n : nat) (A : matrix) (w : vec) :
  Forall (fun c => length c = n) A -> length (lincomb n A w) = n.
Proof.
  intros HA. revert w. induction HA as [|c A Hc HA IH]; intros w; simpl.
  - apply zeros_length.
  - destruct w as [|wj w]; [apply zeros_length|].
    rewrite vadd_length; rewrite vscale_length; [exact Hc|].
    now rewrite IH.
Qed.

Lemma mat_vec_length (A : matrix) (w : vec) :
  rectangular A -> length (mat_vec A w) = nrows A.
Proof. intros H. unfold mat_vec. now apply lincomb_length. Qed.






Lemma deflate_map (E : matrix) (t : vec) (g : vec -> R) :
  deflate E t (map g E) = map (fun c => vsub c (vscale (g c) t)) E.
Proof. induction E as [|c E IH]; simpl; [reflexivity|now rewrite IH]. Qed.

Lemma deflate_loading (E : matrix) (t : vec) :
  deflate E t (loading E t) =
    map (fun c => vsub c (vscale (dot c t / (norm t) ^ 2) t)) E.
Proof.
  unfold loading, matT_vec. rewrite map_map. apply deflate_map.
Qed.



(** The deflated residual is a proper matrix of the same shape. *)
Lemma deflation_step_shape (E : matrix) (wi : vec) :
  rectangular E ->
  rectangular (deflate E (mat_vec E wi) (loading E (mat_vec E wi))) /\
  shape (deflate E (mat_vec E wi) (loading E (mat_vec E wi))) = shape E.
Proof.
  intros Hrect. set (ti := mat_vec E wi).
  assert (Hti : length ti = nrows E) by now apply mat_vec_length.
  rewrite deflate_loading.
  assert (Hcols : forall c, In c E ->
            length (vsub c (vscale (dot c ti / (norm ti) ^ 2) ti)) = nrows E).
  { intros c Hc. unfold rectangular in Hrect.
    rewrite Forall_forall in Hrect.
    rewrite vsub_length; rewrite ?vscale_length; rewrite (Hrect c Hc); auto. }
  split.
  - unfold rectangular. rewrite Forall_forall. intros d Hd.
    apply in_map_iff in Hd. destruct Hd as (c & <- & Hc).
    rewrite (Hcols c Hc). unfold nrows.
    destruct E as [|c0 E]; [contradiction|]. simpl.
    symmetry. apply (Hcols c0). now left.
  - unfold shape, ncols. rewrite length_map. f_equal.
    unfold nrows. destruct E as [|c0 E]; [reflexivity|]. simpl.
    apply (Hcols c0). now left.
Qed.



(** ** [fit]: the argument collection and the test on the index *)

Lemma collect_arguments_run (args : list vec) (kwargs : fit_kwargs)
  (w : world) :
  exists l,
    collect_arguments args kwargs w = (after_collect kwargs w, inr l) /\
    l_h l = from_option (fk_h kwargs) (n_components (par (obj w))) /\
    l_ndir l = from_option (fk_ndir kwargs) 1000%nat /\
    l_maxiter l = from_option (fk_maxiter kwargs) 10000%Z /\
    l_compression l = from_option (fk_compression kwargs) false.
Proof.
  unfold collect_arguments, after_collect, bind, get_self, put_self, ret.
  destruct (fk_h kwargs) as [h|]; simpl;
    destruct (fk_y kwargs) as [y|]; simpl.
  - destruct (String.eqb _ "robust"); eexists; repeat split.
  - destruct args; eexists; repeat split.
  - destruct (String.eqb _ "robust"); eexists; repeat split.
  - destruct args; eexists; repeat split.
Qed.

Lemma dicomo_unbound : lookup "dicomo" module_globals = None.
Proof. reflexivity. Qed.

Lemma check_projection_index_shipped (kwargs : fit_kwargs) (w : world) :
  check_projection_index module_globals kwargs w =
    (w, inl (NameError "dicomo")).
Proof. reflexivity. Qed.

Lemma fit_dicomo_unbound (c : collaborators) (X : matrix) (args : list vec)
  (kwargs : fit_kwargs) (w : world) :
  fit c module_globals X args kwargs w =
    (after_collect kwargs w, inl (NameError "dicomo")) /\
  trace (after_collect kwargs w) = trace w.
Proof.
  split.
  - destruct (collect_arguments_run args kwargs w) as (l & Hl & _).
    unfold fit. apply bind_fail. unfold prepare_fit.
    rewrite (bind_run _ _ _ _ _ Hl).
    now rewrite (bind_fail _ _ _ _ _
                   (check_projection_index_shipped kwargs _)).
  - unfold after_collect. now destruct (fk_h kwargs).
Qed.

(** C2.  In the module as shipped, every call of [fit] raises
    [NameError] on the name [dicomo], whatever the data, the arguments
    and the projection index: the log of calls is unchanged, no index
    is built, no attribute of a fitted model is set, and only
    [n_components] may have been overwritten. *)
Theorem fit_raises_NameError :
  forall (c : collaborators) (X : matrix) (args : list vec)
         (kwargs : fit_kwargs) (w : world),
    fit c module_globals X args kwargs w =
      (after_collect kwargs w, inl (NameError "dicomo")) /\
    trace (after_collect kwargs w) = trace w /\
    most (obj (after_collect kwargs w)) = most (obj w) /\
    components (obj (after_collect kwargs w)) = components (obj w) /\
    regression (obj (after_collect kwargs w)) = regression (obj w).
Proof.
  intros c X args kwargs w. split.
  - apply fit_dicomo_unbound.
  - unfold after_collect. destruct (fk_h kwargs); repeat split.
Qed.

(** ** [fit]: the check of the number of components *)

(** When it is reached, the check comes before any numeric work: the
    index has been built and the data copied, nothing else. *)
Lemma check_dimensions_raises (X : matrix) (h : nat) (w : world) :
  (Nat.min (nrows X) (ncols X) < h)%nat ->
  exists s,
    check_dimensions X h w =
      (mk_world s
         (trace w ++ [Call_projection_index (pi_arguments (par (obj w)))]),
       inl (MyException
              "number of components cannot exceed number of samples")) /\
    components s = components (obj w) /\ cache s = cache (obj w).
Proof.
  intros Hh. unfold check_dimensions, bind, get_self, log, put_self, shape.
  simpl. apply Nat.ltb_lt in Hh. rewrite Hh.
  eexists. split; [reflexivity|].
  destruct (copy (par (obj w))); split; reflexivity.
Qed.

(** C8, the code against the claim.  A call that asks for four
    components of a 3-by-3 matrix fails in the shipped module with
    [NameError], not with the dimensionality error: the test on
    [dicomo] comes first.  Nothing has been computed and nothing logged
    at that point. *)
Theorem fit_too_many_components :
  forall (c : collaborators) (w : world),
    (Nat.min (nrows sample_data) (ncols sample_data) < 4)%nat /\
    fit c module_globals sample_data [] (kwargs_h 4) w =
      (after_collect (kwargs_h 4) w, inl (NameError "dicomo")) /\
    trace (after_collect (kwargs_h 4) w) = trace w.
Proof.
  intros c w. split; [simpl; lia|].
  destruct (fit_dicomo_unbound c sample_data [] (kwargs_h 4) w) as [H _].
  split; [exact H|reflexivity].
Qed.

(** ** [fit] in a module in which [dicomo] is bound *)

Lemma bind_inv {A B : Type} (m : M A) (k : A -> M B) (w w' : world) (b : B) :
  bind m k w = (w', inr b) ->
  exists w1 a, m w = (w1, inr a) /\ k a w1 = (w', inr b).
Proof.
  unfold bind. destruct (m w) as [w1 [e|a]]; intros H; [discriminate|].
  now exists w1, a.
Qed.

Lemma is_dicomo_repaired (w : world) :
  is_dicomo repaired_globals w =
    (w, inr (String.eqb (pi_id (projection_index (par (obj w))))
               "ppdire.dicomo.dicomo")).
Proof. reflexivity. Qed.

Lemma check_projection_index_repaired (kwargs : fit_kwargs) (w : world) :
  String.eqb (pi_id (projection_index (par (obj w))))
    "ppdire.dicomo.dicomo" = false ->
  check_projection_index repaired_globals kwargs w = (w, inr tt).
Proof.
  intros H. unfold check_projection_index.
  rewrite (bind_run _ _ _ _ _ (is_dicomo_repaired w)). now rewrite H.
Qed.

(** With [dicomo] bound the check of [h] is the first thing to fail:
    the index has been built, nothing else has run. *)
Lemma dimension_check_first (c : collaborators) (X : matrix)
  (args : list vec) (kwargs : fit_kwargs) (w : world) :
  String.eqb (pi_id (projection_index (par (obj w))))
    "ppdire.dicomo.dicomo" = false ->
  (Nat.min (nrows X) (ncols X) <
   from_option (fk_h kwargs) (n_components (par (obj w))))%nat ->
  exists s,
    fit c repaired_globals X args kwargs w =
      (mk_world s
         (trace w ++ [Call_projection_index (pi_arguments (par (obj w)))]),
       inl (MyException
              "number of components cannot exceed number of samples")) /\
    components s = components (obj w) /\ cache s = cache (obj w).
Proof.
  intros Hd Hh.
  destruct (collect_arguments_run args kwargs w) as (l & Hl & Hlh & _).
  assert (Hd' : String.eqb
                  (pi_id (projection_index (par (obj (after_collect kwargs w)))))
                  "ppdire.dicomo.dicomo" = false)
    by (unfold after_collect; destruct (fk_h kwargs); exact Hd).
  rewrite <- Hlh in Hh.
  destruct (check_dimensions_raises X (l_h l) (after_collect kwargs w) Hh)
    as (s & Hc & Hcomp & Hcache).
  exists s. split.
  - unfold fit.
    assert (Hp : prepare_fit c repaired_globals X args kwargs w =
                 (mk_world s
                    (trace w ++
                     [Call_projection_index (pi_arguments (par (obj w)))]),
                  inl (MyException
                    "number of components cannot exceed number of samples"))).
    { unfold prepare_fit. rewrite (bind_run _ _ _ _ _ Hl).
      rewrite (bind_run _ _ _ _ _
                 (check_projection_index_repaired kwargs _ Hd')).
      rewrite (bind_fail _ _ _ _ _ Hc).
      unfold after_collect. now destruct (fk_h kwargs). }
    now rewrite (bind_fail _ _ _ _ _ Hp).
  - unfold after_collect in Hcomp, Hcache.
    destruct (fk_h kwargs); split; assumption.
Qed.

(** The dictionary for the refiner cannot be built for two variables
    or fewer. *)
Lemma grid_arguments_unbound (q : prepared) (l : fit_locals) (w : world) :
  (p_p q <= 2)%nat ->
  grid_arguments q l w =
    (mk_world (set_cache (obj w) (default_cache (obj w))) (trace w),
     inl (UnboundLocalError "alphamat2")).
Proof.
  intros Hp. unfold grid_arguments, bind, get_self, put_self. simpl.
  destruct (2 <? p_p q)%nat eqn:E; [apply Nat.ltb_lt in E; lia|].
  reflexivity.
Qed.

(** C9, the code against the claim.  On a matrix of two variables
    [fit] never reaches its component loop.  Even with [dicomo] bound
    it fails with [UnboundLocalError] on [alphamat2], a name bound only
    when [p > 2] and read for every [p]; [_gridplane] has not been
    called.  In the shipped module the call fails earlier, as every
    call does. *)
Theorem fit_two_variables :
  forall (c : collaborators),
    ncols sample_plane = 2%nat /\
    (exists w',
       fit c repaired_globals sample_plane [] no_kwargs
         (mk_world (sample_self 1) []) =
         (w', inl (UnboundLocalError "alphamat2")) /\
       trace w' =
         [Call_projection_index [];
          Warned "Without scaling, convergence to optima is not given"]) /\
    fit c module_globals sample_plane [] no_kwargs
      (mk_world (sample_self 1) []) =
      (mk_world (sample_self 1) [], inl (NameError "dicomo")).
Proof.
  intros c. split; [reflexivity|]. split.
  - eexists. split; [vm_compute; reflexivity|reflexivity].
  - apply fit_dicomo_unbound.
Qed.

(** ** The component loop *)

Lemma set_col_length (i : nat) (v : vec) (A : matrix) :
  length (set_col i v A) = length A.
Proof.
  revert i; induction A as [|c A IH]; intros [|i]; simpl; auto.
Qed.



(** What a pass of the component loop does to the residual, the
    scores, the loadings and, with a response, the coefficients: it
    deflates [E] by the score of its direction, and writes the new
    coefficient vector [bi] into column [i] of [B]. *)
Lemma extract_component_deflates (c : collaborators) (q : prepared)
  (l : fit_locals) (ga ga2 : gp_kwargs) (i : nat) (st st' : fit_state)
  (w w' : world) :
  extract_component c q l ga ga2 i st w = (w', inr st') ->
  exists wi,
    st_E st' =
      deflate (st_E st) (mat_vec (st_E st) wi)
        (loading (st_E st) (mat_vec (st_E st) wi)) /\
    st_T st' = set_col i (mat_vec (st_E st) wi) (st_T st) /\
    st_P st' =
      set_col i (loading (st_E st) (mat_vec (st_E st) wi)) (st_P st) /\
    (l_flag l = Two_block -> p_y q <> None -> p_ys q <> None ->
     st_B st' = set_col i (st_bi st') (st_B st)).
Proof.
  unfold extract_component, bind, get_self, getattr, ret.
  destruct (component_direction _ _ _ _ _ w) as [w1 [e|d]];
    [discriminate|].
  repeat (simpl;
          match goal with
          | |- context [match ?x with _ => _ end] => destruct_inner x
          end);
    intros H; try discriminate; injection H as <- <-;
    exists (fst d); simpl; repeat split; intros; congruence.
Qed.

Lemma foldM_seq_inv {St : Type} (f : nat -> St -> M St)
  (I : nat -> St -> Prop) :
  (forall i s w w' s', f i s w = (w', inr s') -> I i s -> I (S i) s') ->
  forall k a s w w' s',
    foldM f (seq a k) s w = (w', inr s') -> I a s -> I (a + k)%nat s'.
Proof.
  intros Hstep. induction k as [|k IH]; intros a s w w' s' Hrun HI.
  - simpl in Hrun. injection Hrun as <- <-. now rewrite Nat.add_0_r.
  - simpl in Hrun. apply bind_inv in Hrun.
    destruct Hrun as (w1 & s1 & H1 & Hrest).
    replace (a + S k)%nat with (S a + k)%nat by lia.
    eapply IH; [exact Hrest|]. eapply Hstep; eauto.
Qed.



Lemma check_dimensions_inv (X : matrix) (h : nat) (w w' : world)
  (d : matrix * nat * nat) :
  check_dimensions X h w = (w', inr d) -> d = (X, nrows X, ncols X).
Proof.
  unfold check_dimensions, bind, get_self, log, put_self, shape, ret, raise.
  simpl. destruct (Nat.min (nrows X) (ncols X) <? h)%nat; [discriminate|].
  now intros [= _ <-].
Qed.

Lemma collect_arguments_flag (args : list vec) (kwargs : fit_kwargs)
  (w w' : world) (l : fit_locals) :
  collect_arguments args kwargs w = (w', inr l) ->
  l_h l = from_option (fk_h kwargs) (n_components (par (obj w))) /\
  (fk_y kwargs <> None \/ args <> [] ->
   l_flag l = Two_block /\ l_y l <> None).
Proof.
  unfold collect_arguments, bind, get_self, put_self, ret.
  destruct (fk_h kwargs) as [h|]; simpl;
    destruct (fk_y kwargs) as [y|]; simpl;
    try destruct (String.eqb _ "robust"); try destruct args;
    intros [= _ <-]; simpl; (split; [reflexivity|]);
    intros [H|H]; try congruence; split; congruence.
Qed.

Ltac split_runs :=
  repeat (simpl;
          match goal with
          | |- context [match ?x with _ => _ end] => destruct_inner x
          end).

(** The preprocessing keeps the copy [X0] of the data and, with a
    response, keeps the response and its transformed copy. *)
Lemma preprocess_inv (c : collaborators) (g : globals) (X X0 : matrix)
  (n p : nat) (l : fit_locals) (w w' : world) (q : prepared) :
  preprocess c g X X0 n p l w = (w', inr q) ->
  p_X0 q = X0 /\
  (l_flag l = Two_block -> l_y l <> None ->
   p_y q <> None /\ p_ys q <> None).
Proof.
  unfold preprocess, is_dicomo, pi_mode, load_global, bind, get_self,
    put_self, log, ret, raise.
  split_runs; intros H; try discriminate; injection H as <- <-; simpl;
    (split; [reflexivity|]); intros; split; congruence.
Qed.

(** What [finish] stores with a response: [coef_] is [B], or [B]
    mapped back from the compressed space, and the fitted values are
    computed from that matrix's last column. *)
Lemma finish_regression (c : collaborators) (q : prepared) (l : fit_locals)
  (st : fit_state) (w w' : world) (T : matrix) :
  finish c q l st w = (w', inr T) ->
  l_flag l = Two_block -> p_y q <> None -> p_ys q <> None ->
  exists r bi,
    regression (obj w') = Some r /\
    fitted_ r = map (fun x => x + intercept_ r) (mat_vec (p_X0 q) bi) /\
    ((coef_ r = st_B st /\ bi = st_bi st) \/
     (exists h', l_h l = S h' /\
                 length (coef_ r) = length (st_B st) /\
                 bi = col h' (coef_ r))).
Proof.
  intros H Hf Hy Hys. revert H.
  destruct (p_y q) as [y|] eqn:Ey; [|congruence].
  destruct (p_ys q) as [ys|] eqn:Eys; [|congruence].
  unfold finish, bind, get_self, put_self, ret, raise.
  rewrite Hf, Ey, Eys.
  split_runs; intros H; try discriminate; injection H as <- <-; simpl;
    eexists; eexists; (split; [reflexivity|]); simpl;
    (split; [reflexivity|]).
  all: try (left; split; reflexivity).
  all: right; eexists; split; [reflexivity|]; split;
    [unfold mat_mul; now rewrite length_map|reflexivity].
Qed.

Lemma prepare_fit_inv (c : collaborators) (g : globals) (X : matrix)
  (args : list vec) (kwargs : fit_kwargs) (w w' : world) (l : fit_locals)
  (q : prepared) (ga : gp_kwargs * gp_kwargs) :
  prepare_fit c g X args kwargs w = (w', inr (l, q, ga)) ->
  l_h l = from_option (fk_h kwargs) (n_components (par (obj w))) /\
  p_X0 q = X /\
  (fk_y kwargs <> None \/ args <> [] ->
   l_flag l = Two_block /\ p_y q <> None /\ p_ys q <> None).
Proof.
  unfold prepare_fit. intros H.
  apply bind_inv in H. destruct H as (w1 & l1 & Hc & H).
  apply bind_inv in H. destruct H as (w2 & [] & _ & H).
  apply bind_inv in H. destruct H as (w3 & d & Hd & H).
  apply check_dimensions_inv in Hd. subst d.
  apply bind_inv in H. destruct H as (w4 & q1 & Hp & H).
  apply bind_inv in H. destruct H as (w5 & ga1 & _ & H).
  injection H as _ <- <- <-.
  destruct (collect_arguments_flag _ _ _ _ _ Hc) as [Hh Hflag].
  destruct (preprocess_inv _ _ _ _ _ _ _ _ _ _ Hp) as [HX0 Hy].
  split; [exact Hh|]. split; [exact HX0|].
  intros Htwo. destruct (Hflag Htwo) as [Hfl Hly].
  destruct (Hy Hfl Hly). auto.
Qed.

Lemma zeros_matrix_length (p h : nat) : length (zeros_matrix p h) = h.
Proof. apply repeat_length. Qed.


(** ** [fit] returns *)

Lemma regress_OLS (c : collaborators) (l : fit_locals) (scale : string)
  (y ys ti : vec) (w : world) :
  l_regopt l = Some "OLS"%string ->
  regress c l scale y ys ti w = (w, inr (dot ti ys / (norm ti) ^ 2)).
Proof.
  intros H. unfold regress, bind, get_self. rewrite H. reflexivity.
Qed.

Lemma deflate_loading_length (E : matrix) (t : vec) :
  length (deflate E t (loading E t)) = length E.
Proof. rewrite deflate_loading. apply length_map. Qed.

(** A pass of the component loop on more than two variables with a
    response and least squares returns, in every world in which [fit]
    runs it. *)
Lemma extract_component_run (c : collaborators) (q : prepared)
  (l : fit_locals) (ga ga2 : gp_kwargs) (n n2 : nat) (i : nat)
  (st : fit_state) (w : world) (f : evaluator) (y ys : vec) :
  fit_world w f -> fit_grid_args ga n -> fit_grid_args ga2 n2 ->
  (2 < p_p q)%nat -> (2 <= length (st_E st))%nat -> (1 <= l_maxiter l)%Z ->
  l_flag l = Two_block -> p_y q = Some y -> p_ys q = Some ys ->
  l_regopt l = Some "OLS"%string ->
  exists st' evs,
    extract_component c q l ga ga2 i st w =
      (mk_world (obj w) (trace w ++ evs), inr st') /\
    length (st_E st') = length (st_E st).
Proof.
  intros Hw Hga Hga2 Hp HE Hm Hfl Hy Hys Hreg.
  destruct (pairwise_reducer_run w f ga ga2 n n2 (st_E st) (p_p q)
              (l_maxiter l) Hw Hga Hga2 HE Hm)
    as (s' & evs & Hrun & _).
  assert (Hdir : component_direction (p_p q) (l_maxiter l) (st_E st) ga ga2 w =
                 (mk_world (obj w) (trace w ++ evs),
                  inr (afin (red s'), Some (objf s')))).
  { unfold component_direction.
    destruct (p_p q =? 2)%nat eqn:E2; [apply Nat.eqb_eq in E2; lia|].
    destruct (2 <? p_p q)%nat eqn:E3; [|apply Nat.ltb_ge in E3; lia].
    now rewrite (bind_run _ _ _ _ _ Hrun). }
  destruct Hw as [Hf Hc].
  eexists. exists evs. split.
  - unfold extract_component. rewrite (bind_run _ _ _ _ _ Hdir).
    cbv beta zeta.
    set (w1 := mk_world (obj w) (trace w ++ evs)).
    rewrite (bind_run get_self _ w1 w1 (obj w)) by reflexivity.
    rewrite Hfl. cbv beta iota. rewrite bind_assoc.
    rewrite (bind_run (getattr _ most) _ w1 w1 f)
      by (unfold getattr; simpl; now rewrite Hf).
    rewrite (bind_run (ret _) _ w1 w1 _ eq_refl).
    rewrite Hy, Hys.
    rewrite (bind_run _ _ w1 w1 _ (regress_OLS c l _ _ _ _ w1 Hreg)).
    reflexivity.
  - cbn [st_E]. apply deflate_loading_length.
Qed.

Lemma component_loop_run (c : collaborators) (q : prepared) (l : fit_locals)
  (ga ga2 : gp_kwargs) (n n2 : nat) (f : evaluator) (y ys : vec)
  (k a : nat) (st : fit_state) (w : world) :
  fit_world w f -> fit_grid_args ga n -> fit_grid_args ga2 n2 ->
  (2 < p_p q)%nat -> (2 <= length (st_E st))%nat -> (1 <= l_maxiter l)%Z ->
  l_flag l = Two_block -> p_y q = Some y -> p_ys q = Some ys ->
  l_regopt l = Some "OLS"%string ->
  exists st' evs,
    foldM (extract_component c q l ga ga2) (seq a k) st w =
      (mk_world (obj w) (trace w ++ evs), inr st').
Proof.
  intros Hw Hga Hga2 Hp HE Hm Hfl Hy Hys Hreg. revert a st w Hw HE.
  induction k as [|k IH]; intros a st w Hw HE.
  - exists st, []. simpl. rewrite app_nil_r. now destruct w.
  - destruct (extract_component_run c q l ga ga2 n n2 a st w f y ys
                Hw Hga Hga2 Hp HE Hm Hfl Hy Hys Hreg)
      as (st1 & evs1 & Hrun & Hlen).
    destruct (IH (S a) st1 (mk_world (obj w) (trace w ++ evs1))
                (fit_world_trace w f _ Hw) ltac:(lia))
      as (st' & evs & Hrest).
    exists st', (evs1 ++ evs). simpl.
    rewrite (bind_run _ _ _ _ _ Hrun), Hrest. simpl.
    now rewrite <- app_assoc.
Qed.

Lemma finish_run (c : collaborators) (q : prepared) (l : fit_locals)
  (st : fit_state) (w : world) :
  p_dimensions q = false ->
  exists s, finish c q l st w = (mk_world s (trace w), inr (st_T st)).
Proof.
  intros Hd. unfold finish, bind, get_self, put_self, ret.
  rewrite Hd. simpl. eexists. reflexivity.
Qed.

Lemma check_dimensions_run (X : matrix) (h : nat) (w : world) :
  (h <= Nat.min (nrows X) (ncols X))%nat ->
  check_dimensions X h w =
    (mk_world
       (let s := set_most (obj w)
                   (pi_new (projection_index (par (obj w)))
                      (pi_arguments (par (obj w)))) in
        if copy (par s) then set_X0 s X else s)
       (trace w ++ [Call_projection_index (pi_arguments (par (obj w)))]),
     inr (X, nrows X, ncols X)).
Proof.
  intros Hh. unfold check_dimensions, bind, get_self, log, put_self, shape.
  simpl. destruct (Nat.min (nrows X) (ncols X) <? h)%nat eqn:E;
    [apply Nat.ltb_lt in E; lia|]. reflexivity.
Qed.

(** The sample call of [fit] reaches its component loop. *)
Lemma sample_prepare_fit (h : nat) :
  (h <= 3)%nat ->
  prepare_fit sample_collaborators repaired_globals sample_data
    [sample_response] (kwargs_h_ndir_maxiter h 3 5)
    (mk_world (sample_self 1) []) =
    (sample_fit_world h,
     inr (sample_locals h, sample_prepared, sample_fit_grid_args)).
Proof.
  intros Hh. unfold prepare_fit.
  rewrite (bind_run _ _ _
             (mk_world (set_par (sample_self 1)
                          (set_n_components (par (sample_self 1)) h)) [])
             (sample_locals h)) by reflexivity.
  rewrite (bind_run _ _ _ _ _
             (check_projection_index_repaired
                (kwargs_h_ndir_maxiter h 3 5)
                (mk_world (set_par (sample_self 1)
                             (set_n_components (par (sample_self 1)) h)) [])
                eq_refl)).
  rewrite (bind_run _ _ _ _ _
             (check_dimensions_run sample_data h
                (mk_world (set_par (sample_self 1)
                             (set_n_components (par (sample_self 1)) h)) [])
                ltac:(simpl; lia))).
  cbv beta iota zeta.
  rewrite (bind_run _ _ _
             (mk_world
                (set_y0
                   (set_X0
                      (set_most
                         (set_par (sample_self 1)
                            (set_n_components (par (sample_self 1)) h))
                         (pi_new sample_index []))
                      sample_data)
                   sample_response)
                [Call_projection_index [];
                 Warned "Without scaling, convergence to optima is not given"])
             sample_prepared) by reflexivity.
  rewrite (bind_run _ _ _ (sample_fit_world h) sample_fit_grid_args)
    by reflexivity.
  reflexivity.
Qed.

(** The sample call of [fit] returns for up to three components. *)
Lemma sample_fit_returns (h : nat) :
  (h <= 3)%nat ->
  exists w' T,
    fit sample_collaborators repaired_globals sample_data [sample_response]
      (kwargs_h_ndir_maxiter h 3 5) (mk_world (sample_self 1) []) =
      (w', inr T).
Proof.
  intros Hh. unfold fit.
  rewrite (bind_run _ _ _ _ _ (sample_prepare_fit h Hh)). cbv beta iota.
  assert (Hw : fit_world (sample_fit_world h) (pi_new sample_index []))
    by (split; reflexivity).
  assert (Hga : fit_grid_args (fst sample_fit_grid_args) 3)
    by (repeat split; try discriminate; lia).
  assert (Hga2 : fit_grid_args (snd sample_fit_grid_args) 3)
    by (repeat split; try discriminate; lia).
  destruct (component_loop_run sample_collaborators sample_prepared
              (sample_locals h) (fst sample_fit_grid_args)
              (snd sample_fit_grid_args) 3 3 (pi_new sample_index [])
              sample_response sample_response h 0
              (initial_state sample_prepared h) (sample_fit_world h)
              Hw Hga Hga2 ltac:(simpl; lia) ltac:(simpl; lia)
              ltac:(simpl; lia) eq_refl eq_refl eq_refl eq_refl)
    as (st & evs & Hloop).
  change (l_h (sample_locals h)) with h.
  rewrite (bind_run _ _ _ _ _ Hloop).
  destruct (finish_run sample_collaborators sample_prepared (sample_locals h)
              st (mk_world (obj (sample_fit_world h))
                    (trace (sample_fit_world h) ++ evs)) eq_refl)
    as (s & Hfin).
  rewrite Hfin. eauto.
Qed.




(** ** [fit] needs more than two variables *)

Lemma preprocess_keeps_p (c : collaborators) (g : globals) (X X0 : matrix)
  (n p : nat) (l : fit_locals) (w w' : world) (q : prepared) :
  preprocess c g X X0 n p l w = (w', inr q) ->
  (n <? p)%nat = false -> p_p q = p.
Proof.
  intros H Hnp. revert H.
  unfold preprocess, is_dicomo, pi_mode, load_global, bind, get_self,
    put_self, log, ret, raise.
  rewrite Hnp.
  split_runs; intros H; try discriminate; injection H as <- <-; reflexivity.
Qed.

Lemma grid_arguments_inv (q : prepared) (l : fit_locals) (w w' : world)
  (ga : gp_kwargs * gp_kwargs) :
  grid_arguments q l w = (w', inr ga) -> (2 < p_p q)%nat.
Proof.
  unfold grid_arguments, bind, get_self, put_self, ret, raise. simpl.
  destruct (2 <? p_p q)%nat eqn:E; [|discriminate].
  intros _. now apply Nat.ltb_lt.
Qed.

(** Whatever the module, the index and the arguments, [fit] returns
    only on data with more than two variables, unless the data are
    compressed first: on two variables it never gets to call
    [_gridplane] from its branch [p == 2]. *)
Lemma fit_returns_needs_three_variables (c : collaborators) (g : globals)
  (X : matrix) (args : list vec) (kwargs : fit_kwargs) (w w' : world)
  (T : matrix) :
  fit c g X args kwargs w = (w', inr T) ->
  (ncols X <= nrows X)%nat -> (2 < ncols X)%nat.
Proof.
  intros Hfit Hnp. unfold fit in Hfit.
  apply bind_inv in Hfit. destruct Hfit as (w1 & [[l q] ga] & H & _).
  unfold prepare_fit in H.
  apply bind_inv in H. destruct H as (wa & l1 & _ & H).
  apply bind_inv in H. destruct H as (wb & [] & _ & H).
  apply bind_inv in H. destruct H as (wc & d & Hd & H).
  apply check_dimensions_inv in Hd. subst d.
  apply bind_inv in H. destruct H as (wd & q1 & Hp & H).
  apply bind_inv in H. destruct H as (we & ga1 & Hga & _).
  apply grid_arguments_inv in Hga.
  rewrite (preprocess_keeps_p _ _ _ _ _ _ _ _ _ _ Hp) in Hga;
    [exact Hga|apply Nat.ltb_ge; exact Hnp].
Qed.

(** ** The residual along the component loop *)

(** Every pass of the loop is a deflation step on a residual that is
    still a proper matrix. *)
Lemma loop_keeps_rectangular (c : collaborators) (q : prepared)
  (l : fit_locals) (ga ga2 : gp_kwargs) (k a : nat) (st st' : fit_state)
  (w w' : world) :
  foldM (extract_component c q l ga ga2) (seq a k) st w = (w', inr st') ->
  rectangular (st_E st) -> rectangular (st_E st').
Proof.
  intros Hrun Hrect.
  apply (foldM_seq_inv (extract_component c q l ga ga2)
           (fun _ s => rectangular (st_E s)) ) with (k := k) (a := a)
           (s := st) (w := w) (w' := w'); [|exact Hrun|exact Hrect].
  intros i s w1 w2 s' Hstep Hs.
  destruct (extract_component_deflates _ _ _ _ _ _ _ _ _ _ Hstep)
    as (wi & HE & _).
  rewrite HE.
  destruct (deflation_step_shape (st_E s) wi Hs) as [H _]. exact H.
Qed.

(** ** What the branch [p == 2] would do *)

Lemma gridplane_trace (X : matrix) (pa : ekw) (kw : gp_kwargs) (w : world) :
  trace (fst (_gridplane X pa kw w)) = trace w ++ [Call_gridplane X].
Proof.
  unfold _gridplane, measure, select_max, check_plane, getattr, log,
    get_self, put_self, bind, ret, raise.
  run_cases_tac.
Qed.

(** Were it reached, the branch would take its direction from one call
    of [_gridplane] on the residual matrix, and make no other call. *)
Lemma component_direction_plane (maxiter : Z) (E : matrix)
  (ga ga2 : gp_kwargs) (w : world) :
  trace (fst (component_direction 2 maxiter E ga ga2 w)) =
    trace w ++ [Call_gridplane E].
Proof.
  unfold component_direction. change (2 =? 2)%nat with true. cbv iota.
  pose proof (gridplane_trace E ekw_empty ga w) as H.
  unfold bind. destruct (_gridplane E ekw_empty ga w) as [w' [e|r]]; exact H.
Qed.

(** * Further properties *)

(** ** Vector algebra *)

Lemma vadd_comm (u v : vec) : vadd u v = vadd v u.
Proof.
  revert v; induction u as [|a u IH]; intros [|b v]; simpl; auto.
  now rewrite IH, Rplus_comm.
Qed.

Lemma vadd_assoc (u v t : vec) : vadd (vadd u v) t = vadd u (vadd v t).
Proof.
  revert v t; induction u as [|a u IH]; intros [|b v] [|c t]; simpl; auto.
  now rewrite IH, Rplus_assoc.
Qed.

Lemma vscale_vadd (c : R) (u v : vec) :
  vscale c (vadd u v) = vadd (vscale c u) (vscale c v).
Proof.
  revert v; induction u as [|a u IH]; intros [|b v]; simpl; auto.
  fold (vscale c (vadd u v)). rewrite IH. f_equal. ring.
Qed.

Lemma vscale_vscale (a c : R) (u : vec) :
  vscale c (vscale a u) = vscale (a * c) u.
Proof.
  unfold vscale. rewrite map_map. apply map_ext. intros x. ring.
Qed.

Lemma vscale_plus (a b : R) (u : vec) :
  vadd (vscale a u) (vscale b u) = vscale (a + b) u.
Proof.
  induction u as [|x u IH]; simpl; auto.
  fold (vscale a u) (vscale b u) (vscale (a + b) u). rewrite IH.
  f_equal. ring.
Qed.

Lemma vscale_zeros (c : R) (n : nat) : vscale c (zeros n) = zeros n.
Proof.
  unfold vscale, zeros. induction n as [|n IH]; simpl; auto.
  rewrite IH. f_equal. ring.
Qed.

Lemma vscale_0 (u : vec) : vscale 0 u = zeros (length u).
Proof.
  unfold vscale, zeros. induction u as [|x u IH]; simpl; auto.
  rewrite IH. f_equal. ring.
Qed.

Lemma vadd_zeros_r (u : vec) (n : nat) : length u = n -> vadd u (zeros n) = u.
Proof.
  revert n; induction u as [|x u IH]; intros [|n] H; simpl in *;
    try discriminate; auto.
  fold (zeros n). rewrite IH by lia. f_equal. ring.
Qed.

Lemma vadd_zeros_l (u : vec) (n : nat) : length u = n -> vadd (zeros n) u = u.
Proof. intros H. rewrite vadd_comm. now apply vadd_zeros_r. Qed.

Lemma nth_vscale (j : nat) (c : R) (v : vec) :
  nth j (vscale c v) 0 = nth j v 0 * c.
Proof.
  revert j; induction v as [|x v IH]; intros [|j]; simpl; try ring.
  apply IH.
Qed.

Lemma nth_set_nth_same (j : nat) (x : R) (v : vec) :
  (j < length v)%nat -> nth j (set_nth j x v) 0 = x.
Proof.
  revert j; induction v as [|a v IH]; intros [|j] H; simpl in *; try lia; auto.
  apply IH. lia.
Qed.

Lemma nth_set_nth_other (i j : nat) (x : R) (v : vec) :
  i <> j -> nth i (set_nth j x v) 0 = nth i v 0.
Proof.
  revert i j; induction v as [|a v IH]; intros [|i] [|j] H; simpl; auto;
    try congruence.
Qed.

Lemma lincomb_vscale (n : nat) (A : matrix) (c : R) (w : vec) :
  lincomb n A (vscale c w) = vscale c (lincomb n A w).
Proof.
  revert w; induction A as [|a A IH]; intros [|x w]; simpl;
    try (now rewrite vscale_zeros).
  fold (vscale c w). rewrite IH, vscale_vadd, vscale_vscale. reflexivity.
Qed.

Lemma lincomb_set_nth (n : nat) (A : matrix) (j : nat) (x : R) (w : vec) :
  (j < length A)%nat -> (j < length w)%nat ->
  lincomb n A (set_nth j x w) =
    vadd (lincomb n A w) (vscale (x - nth j w 0) (col j A)).
Proof.
  revert j w; induction A as [|a A IH]; intros [|j] [|y w] HA Hw;
    simpl in *; try lia.
  - unfold col; simpl.
    rewrite (vadd_comm (vscale y a)), vadd_assoc, vscale_plus, vadd_comm.
    f_equal. f_equal. ring.
  - rewrite IH by lia. unfold col; simpl. now rewrite vadd_assoc.
Qed.

Lemma lincomb_zeros (n : nat) (A : matrix) (k : nat) :
  Forall (fun c => length c = n) A -> lincomb n A (zeros k) = zeros n.
Proof.
  intros H; revert k; induction H as [|a A Ha HA IH]; intros [|k]; simpl; auto.
  fold (zeros k). rewrite IH, vscale_0, Ha.
  apply vadd_zeros_r, zeros_length.
Qed.

Lemma sumsq_vscale (c : R) (v : vec) : sumsq (vscale c v) = c * c * sumsq v.
Proof.
  unfold sumsq. induction v as [|x v IH]; simpl; [ring|].
  fold (vscale c v). rewrite IH. ring.
Qed.

Lemma sumsq_set_nth (j : nat) (x : R) (v : vec) :
  (j < length v)%nat ->
  sumsq (set_nth j x v) = sumsq v - nth j v 0 * nth j v 0 + x * x.
Proof.
  unfold sumsq. revert j; induction v as [|a v IH]; intros [|j] H;
    simpl in *; try lia; [ring|].
  rewrite IH by lia. ring.
Qed.

Lemma sumsq_zeros (n : nat) : sumsq (zeros n) = 0.
Proof.
  unfold sumsq, zeros. induction n as [|n IH]; simpl; [reflexivity|].
  rewrite IH. ring.
Qed.

Lemma nth_zeros (i n : nat) : nth i (zeros n) 0 = 0.
Proof.
  unfold zeros. revert i; induction n as [|n IH]; intros [|i]; simpl; auto.
Qed.

(** ** What a returning grid search returned *)

Lemma gridplane_inv (X : matrix) (pa : ekw) (kw : gp_kwargs) (w w' : world)
  (r : vec * R) :
  _gridplane X pa kw w = (w', inr r) ->
  exists ndir k,
    gp_ndir pa kw = Some ndir /\ (k < ndir)%nat /\ ncols X = 2%nat /\
    fst r =
      col k (coarse_grid (obj w) ndir
               (from_option (kw_optmax kw) (snd (optrange (obj w))))) /\
    w' = after_gridplane w X kw.
Proof.
  unfold _gridplane. intros H.
  apply bind_inv in H. destruct H as (w1 & [] & H1 & H).
  unfold log in H1. injection H1 as <-.
  apply bind_inv in H. destruct H as (w2 & s & H2 & H).
  unfold get_self in H2. injection H2 as <- <-. simpl obj in H.
  cbv beta zeta in H.
  destruct (kw_alphamat kw) as [a|]; [|discriminate H].
  destruct (gp_ndir pa kw) as [ndir|]; [|discriminate H].
  apply bind_inv in H. destruct H as (w3 & [] & H3 & H).
  unfold check_plane in H3.
  destruct (ncols X =? 2)%nat eqn:EX; [|discriminate H3].
  injection H3 as <-.
  apply bind_inv in H. destruct H as (w4 & meas & Hm & H).
  unfold measure in Hm.
  apply bind_inv in Hm. destruct Hm as (w5 & s5 & H5 & Hm).
  unfold get_self in H5. injection H5 as <- <-.
  apply bind_inv in H. destruct H as (w6 & r6 & Hsel & H).
  destruct ndir as [|n].
  - injection Hm as <- <-. discriminate Hsel.
  - apply bind_inv in Hm. destruct Hm as (w7 & f & Hf & Hm).
    injection Hm as <- <-.
    unfold getattr in Hf. simpl obj in Hf.
    destruct (most (obj w)) as [f'|]; [|discriminate Hf].
    injection Hf as <- <-.
    match type of Hsel with
    | select_max ?m ?A ?w0 = _ =>
        assert (Hne : m <> []) by (simpl; discriminate);
        destruct (select_max_spec m A w0 Hne) as (k & Hk & Hlt & _);
        rewrite Hk in Hsel; simpl length in Hlt;
        rewrite ?length_map, ?length_seq in Hlt
    end.
    injection Hsel as <- <-.
    apply bind_inv in H. destruct H as (w8 & [] & Hput & H).
    unfold put_self in Hput. injection Hput as <-.
    injection H as <- <-.
    exists (S n), k. repeat split; auto.
    now apply Nat.eqb_eq.
Qed.

Lemma gridplane_2_inv (X : matrix) (q : R) (dv : Z) (pa : ekw)
  (kw : gp_kwargs) (w w' : world) (r : vec * R) :
  _gridplane_2 X q dv pa kw w = (w', inr r) ->
  exists c ndir k,
    cache (obj w) = Some c /\ gp_ndir pa kw = Some ndir /\ (k < ndir)%nat /\
    fst r = reexpress q (col k (refine_grid c ndir)) /\
    w' = mk_world (obj w) (trace w ++ [Call_gridplane_2 X q dv]).
Proof.
  unfold _gridplane_2. intros H.
  apply bind_inv in H. destruct H as (w1 & [] & H1 & H).
  unfold log in H1. injection H1 as <-.
  apply bind_inv in H. destruct H as (w2 & s & H2 & H).
  unfold get_self in H2. injection H2 as <- <-. simpl obj in H.
  cbv beta zeta in H.
  destruct (kw_alphamat kw) as [a|]; [|discriminate H].
  apply bind_inv in H. destruct H as (w3 & c & Hc & H).
  unfold getattr in Hc. simpl obj in Hc.
  destruct (cache (obj w)) as [c'|] eqn:Ec; [|discriminate Hc].
  injection Hc as <- <-.
  destruct (gp_ndir pa kw) as [ndir|]; [|discriminate H].
  apply bind_inv in H. destruct H as (w4 & [] & H4 & H).
  unfold check_plane in H4.
  destruct (ncols X =? 2)%nat eqn:EX; [|discriminate H4].
  injection H4 as <-.
  apply bind_inv in H. destruct H as (w5 & meas & Hm & Hsel).
  unfold measure in Hm.
  apply bind_inv in Hm. destruct Hm as (w6 & s6 & H6 & Hm).
  unfold get_self in H6. injection H6 as <- <-.
  destruct ndir as [|n].
  - injection Hm as <- <-. discriminate Hsel.
  - apply bind_inv in Hm. destruct Hm as (w7 & f & Hf & Hm).
    injection Hm as <- <-.
    unfold getattr in Hf. simpl obj in Hf.
    destruct (most (obj w)) as [f'|]; [|discriminate Hf].
    injection Hf as <- <-.
    match type of Hsel with
    | select_max ?m ?A ?w0 = _ =>
        assert (Hne : m <> []) by (simpl; discriminate);
        destruct (select_max_spec m A w0 Hne) as (k & Hk & Hlt & _);
        rewrite Hk in Hsel; simpl length in Hlt;
        rewrite ?length_map, ?length_seq in Hlt
    end.
    injection Hsel as <- <-.
    exists c', (S n), k. repeat split; auto.
    simpl. unfold col.
    apply (nth_map_in (reexpress q) (refine_grid c' (S n)) k [] ([] : vec)).
    now rewrite refine_grid_length.
Qed.

Lemma coarse_grid_col (s : ppdire) (ndir : nat) (o : R) (k : nat) :
  (k < ndir)%nat ->
  exists theta, col k (coarse_grid s ndir o) = [cos theta * o; sin theta * o].
Proof.
  intros Hk. eexists. unfold col, coarse_grid.
  now rewrite rescale_nth
    by (unfold coarse_angles; now rewrite linspace_length).
Qed.

Lemma refine_grid_col (c : grid_cache) (ndir : nat) (k : nat) :
  (k < ndir)%nat ->
  exists theta,
    col k (refine_grid c ndir) = [cos theta * optmax c; sin theta * optmax c].
Proof.
  intros Hk. eexists. unfold col, refine_grid.
  now rewrite rescale_nth
    by (unfold refine_angles; now rewrite linspace_length).
Qed.

(** ** The sequential fold *)

Lemma foldM_seq_run_inv {St : Type} (f : nat -> St -> M St)
  (I : nat -> world -> St -> Prop) (k : nat) :
  forall a,
    (forall i s w w' s',
       (a <= i < a + k)%nat -> f i s w = (w', inr s') -> I i w s ->
       I (S i) w' s') ->
    forall s w w' s',
      foldM f (seq a k) s w = (w', inr s') -> I a w s -> I (a + k)%nat w' s'.
Proof.
  induction k as [|k IH]; intros a Hstep s w w' s' Hrun HI.
  - simpl in Hrun. injection Hrun as <- <-. now rewrite Nat.add_0_r.
  - simpl in Hrun. apply bind_inv in Hrun.
    destruct Hrun as (w1 & s1 & H1 & Hrest).
    replace (a + S k)%nat with (S a + k)%nat by lia.
    apply (IH (S a)) with (s := s1) (w := w1); [|exact Hrest|].
    + intros i s2 w2 w3 s3 Hi. apply Hstep. lia.
    + apply (Hstep a s w); [lia|exact H1|exact HI].
Qed.

Lemma unit_circle (theta o : R) :
  o = 1 ->
  cos theta * o * (cos theta * o) + sin theta * o * (sin theta * o) = 1.
Proof.
  intros ->. pose proof (sin2_cos2 theta) as H. unfold Rsqr in H.
  rewrite !Rmult_1_r. lra.
Qed.

Lemma scale_prefix_tail_zero (k : nat) (c : R) (v : vec) :
  (forall i, (k <= i)%nat -> nth i v 0 = 0) -> scale_prefix k c v = vscale c v.
Proof.
  unfold scale_prefix. revert k; induction v as [|a v IH]; intros k H.
  - now rewrite firstn_nil, skipn_nil.
  - destruct k as [|k].
    + simpl. f_equal.
      * pose proof (H 0%nat (Nat.le_refl 0)) as H0. simpl in H0.
        rewrite H0. ring.
      * apply (IH 0%nat). intros i Hi. apply (H (S i)). lia.
    + simpl. f_equal. apply IH. intros i Hi. apply (H (S i)). lia.
Qed.

Lemma seed_folded (Zc : matrix) (p : nat) (ga : gp_kwargs) (w w' : world)
  (r : reducer_state) :
  rectangular Zc -> p = ncols Zc -> grid_scaling ga w = 1 ->
  seed Zc p ga w = (w', inr r) ->
  folded Zc 2 r /\ w' = after_gridplane w (firstn 2 Zc) ga.
Proof.
  intros Hrect Hp Ho H. unfold seed in H.
  apply bind_inv in H. destruct H as (wa & res & Hg & H).
  injection H as <- <-.
  apply gridplane_inv in Hg.
  destruct Hg as (ndir & k & _ & Hk & HX & Hwi & Hw).
  split; [|exact Hw].
  destruct (coarse_grid_col (obj w) ndir
              (from_option (kw_optmax ga) (snd (optrange (obj w)))) k Hk)
    as [theta Hcol].
  rewrite Hcol in Hwi. fold (grid_scaling ga w) in Hwi. rewrite Hwi.
  destruct Zc as [|c0 [|c1 rest]]; try discriminate HX.
  subst p. unfold folded, w0, w1. simpl afin. simpl Zopt. simpl nth.
  unfold zeros. simpl repeat. simpl set_nth. fold (zeros (length rest)).
  split; [|split; [|split]].
  - simpl. now rewrite zeros_length.
  - match goal with
    | |- sumsq (?a :: ?b :: ?t) = 1 =>
        change (a * a + (b * b + sumsq t) = 1)
    end.
    rewrite sumsq_zeros, Rplus_0_r. now apply unit_circle.
  - unfold mat_vec, nrows. simpl.
    rewrite lincomb_zeros; [reflexivity|].
    unfold rectangular in Hrect. simpl in Hrect.
    inversion Hrect as [|? ? _ H1]. inversion H1 as [|? ? _ H2]. exact H2.
  - intros i Hi. destruct i as [|[|i]]; try lia. simpl. apply nth_zeros.
Qed.

Lemma fold_step_folded (Zc : matrix) (ga : gp_kwargs) (j : nat)
  (r r' : reducer_state) (w w' : world) :
  (j < ncols Zc)%nat -> grid_scaling ga w = 1 ->
  fold_variable Zc ga j r w = (w', inr r') -> folded Zc j r ->
  folded Zc (S j) r' /\ w' = after_gridplane w (projmat Zc j r) ga.
Proof.
  intros Hj Ho H (Hlen & Hnorm & Hz & Htail). unfold fold_variable in H.
  apply bind_inv in H. destruct H as (wa & res & Hg & H).
  injection H as <- <-.
  apply gridplane_inv in Hg.
  destruct Hg as (ndir & k & _ & Hk & HX & Hwi & Hw).
  split; [|exact Hw].
  destruct (coarse_grid_col (obj w) ndir
              (from_option (kw_optmax ga) (snd (optrange (obj w)))) k Hk)
    as [theta Hcol].
  rewrite Hcol in Hwi. fold (grid_scaling ga w) in Hwi. rewrite Hwi.
  unfold folded, w0, w1, update_Zopt. simpl afin. simpl Zopt. simpl nth.
  rewrite Nat.add_1_r.
  rewrite scale_prefix_tail_zero by (intros i Hi; apply Htail; lia).
  assert (Hj0 : nth j (vscale (cos theta * grid_scaling ga w) (afin r)) 0 = 0)
    by (rewrite nth_vscale, Htail by lia; ring).
  split; [|split; [|split]].
  - now rewrite set_nth_length, vscale_length.
  - rewrite sumsq_set_nth by (rewrite vscale_length; lia).
    rewrite Hj0, sumsq_vscale, Hnorm.
    pose proof (unit_circle theta _ Ho) as Hc. lra.
  - unfold mat_vec.
    rewrite lincomb_set_nth by (rewrite ?vscale_length; unfold ncols in *; lia).
    rewrite lincomb_vscale, Hj0, Hz. unfold mat_vec. unfold w0, w1. simpl.
    now rewrite Rminus_0_r.
  - intros i Hi. rewrite nth_set_nth_other by lia.
    rewrite nth_vscale, Htail by lia. ring.
Qed.

Lemma seed_and_fold_folded (Zc : matrix) (p : nat) (ga : gp_kwargs)
  (w wa wb : world) (ra rb : reducer_state) :
  rectangular Zc -> p = ncols Zc -> grid_scaling ga w = 1 ->
  seed Zc p ga w = (wa, inr ra) ->
  foldM (fold_variable Zc ga) (seq 2 (p - 2)) ra wa = (wb, inr rb) ->
  length (afin rb) = p /\ sumsq (afin rb) = 1 /\
  Zopt rb = mat_vec Zc (afin rb).
Proof.
  intros Hrect Hp Ho Hseed Hfold.
  destruct (seed_folded Zc p ga w wa ra Hrect Hp Ho Hseed) as [Hf Hwa].
  assert (Hoa : grid_scaling ga wa = 1) by (rewrite Hwa; exact Ho).
  pose proof (foldM_seq_run_inv (fold_variable Zc ga)
                (fun j w r => folded Zc j r /\ grid_scaling ga w = 1)
                (p - 2) 2) as Hinv.
  destruct (Hinv) with (s := ra) (w := wa) (w' := wb) (s' := rb)
    as [(Hlen & Hnorm & Hz & _) _]; [|exact Hfold|now split|].
  - intros i s w1 w2 s2 Hi Hstep [Hs Hw1].
    destruct (fold_step_folded Zc ga i s s2 w1 w2) as [Hs2 Hw2]; auto.
    + subst p. lia.
    + split; [exact Hs2|]. rewrite Hw2. exact Hw1.
  - repeat split; auto. congruence.
Qed.

(** X1.  The seed step and the sequential fold of the pairwise reducer,
    run on a proper matrix with one entry of [afin] per variable and
    the grid scaling [1] that [__init__] fixes, leave a combination
    [afin] of unit norm whose score is the running score:
    [Zopt = Z * afin]. *)
Theorem fold_builds_unit_combination :
  forall (Zc : matrix) (p : nat) (ga : gp_kwargs) (w wa wb : world)
         (ra rb : reducer_state),
    rectangular Zc -> p = ncols Zc -> grid_scaling ga w = 1 ->
    seed Zc p ga w = (wa, inr ra) ->
    foldM (fold_variable Zc ga) (seq 2 (p - 2)) ra wa = (wb, inr rb) ->
    length (afin rb) = p /\ sumsq (afin rb) = 1 /\
    Zopt rb = mat_vec Zc (afin rb).
Proof. exact seed_and_fold_folded. Qed.

Lemma fold_builds_unit_combination_witness :
  exists wa ra wb rb,
    rectangular sample_data /\ 3%nat = ncols sample_data /\
    grid_scaling (sample_grid_args 3) (sample_world 1) = 1 /\
    seed sample_data 3 (sample_grid_args 3) (sample_world 1) = (wa, inr ra) /\
    foldM (fold_variable sample_data (sample_grid_args 3)) (seq 2 (3 - 2)) ra
      wa = (wb, inr rb) /\
    length (afin rb) = 3%nat /\ sumsq (afin rb) = 1 /\
    Zopt rb = mat_vec sample_data (afin rb).
Proof.
  assert (Hw : fit_world (sample_world 1) (pi_new sample_index []))
    by (split; reflexivity).
  assert (Hga : fit_grid_args (sample_grid_args 3) 3)
    by (repeat split; try discriminate; lia).
  assert (Hrect : rectangular sample_data) by (repeat constructor).
  assert (Ho : grid_scaling (sample_grid_args 3) (sample_world 1) = 1)
    by reflexivity.
  destruct (seed_run (sample_world 1) _ _ 3 sample_data 3 Hw Hga)
    as (ra & Hseed & _); [simpl; lia|].
  destruct (fold_from_run _ _ _ 3 sample_data (3 - 2) 2 ra
              (fit_world_trace _ _
                 (trace (sample_world 1) ++
                  [Call_gridplane (firstn 2 sample_data)]) Hw) Hga)
    as (rb & evs & Hfold & _).
  eexists _, ra, _, rb.
  split; [exact Hrect|split; [reflexivity|split; [exact Ho|]]].
  split; [exact Hseed|split; [exact Hfold|]].
  exact (fold_builds_unit_combination sample_data 3 (sample_grid_args 3) _ _ _
           ra rb Hrect eq_refl Ho Hseed Hfold).
Defined.

(** ** The refining step *)

Lemma refine_variable_inv (Zc : matrix) (cap : Z) (ga2 : gp_kwargs) (j : nat)
  (r r' : reducer_state) (w w' : world) :
  refine_variable Zc cap ga2 j r w = (w', inr r') ->
  exists c theta wi,
    cache (obj w) = Some c /\
    wi = reexpress (nth j (afin r) 0)
           [cos theta * optmax c; sin theta * optmax c] /\
    r' = mk_reducer (update_Zopt Zc j wi r)
           (set_nth j (nth j (vscale (w0 wi) (afin r)) 0 + w1 wi)
              (vscale (w0 wi) (afin r))) /\
    w' = mk_world (obj w) (trace w ++ [refiner_call Zc cap j r]).
Proof.
  intros H. unfold refine_variable in H.
  apply bind_inv in H. destruct H as (wa & res & Hg & H).
  injection H as <- <-.
  apply gridplane_2_inv in Hg.
  destruct Hg as (c & ndir & k & Hc & _ & Hk & Hwi & Hw).
  destruct (refine_grid_col c ndir k Hk) as [theta Hcol].
  rewrite Hcol in Hwi.
  exists c, theta, (fst res). rewrite <- Hwi. repeat split; auto.
Qed.

Lemma refine_step_score (Zc : matrix) (j : nat) (wi : vec)
  (r : reducer_state) :
  (j < ncols Zc)%nat -> (j < length (afin r))%nat ->
  Zopt r = mat_vec Zc (afin r) ->
  update_Zopt Zc j wi r =
    mat_vec Zc
      (set_nth j (nth j (vscale (w0 wi) (afin r)) 0 + w1 wi)
         (vscale (w0 wi) (afin r))).
Proof.
  intros Hj Hl Hz. unfold update_Zopt, mat_vec.
  rewrite lincomb_set_nth by (rewrite ?vscale_length; unfold ncols in *; lia).
  rewrite lincomb_vscale, Hz. unfold mat_vec.
  f_equal. f_equal. ring.
Qed.

Lemma stabilized_unit (x y q : R) :
  x * x + y * y = 1 -> Rabs q < 1 ->
  let d := sqrt (1 + 2 * (x * y) * q) in
  x / d * (x / d) + 2 * (x / d * q) * (y / d) + y / d * (y / d) = 1.
Proof.
  intros Hxy Hq d.
  apply Rabs_def2 in Hq. destruct Hq as [Hq1 Hq2].
  pose proof (Rle_0_sqr (x - y)) as T1. unfold Rsqr in T1.
  pose proof (Rle_0_sqr (x + y)) as T2. unfold Rsqr in T2.
  assert (H1 : 2 * (x * y) <= 1) by nra.
  assert (H2 : -1 <= 2 * (x * y)) by nra.
  assert (HD : 0 < 1 + 2 * (x * y) * q).
  { clear T1 T2 Hxy d. set (t := 2 * (x * y)) in *.
    destruct (Rle_dec 0 q); nra. }
  assert (Hd : d * d = 1 + 2 * (x * y) * q) by (apply sqrt_sqrt; lra).
  assert (Hd0 : 0 < d) by (apply sqrt_lt_R0; exact HD).
  transitivity ((x * x + y * y + 2 * (x * y) * q) / (d * d)).
  - field. lra.
  - rewrite Hd, Hxy. field. lra.
Qed.

(** X2.  One refining step on variable [j] keeps [afin] at unit norm:
    with the cached scaling [1], a combination of unit norm whose
    entry [j] is not [1] or [-1] is replaced by a combination of unit
    norm.  This is what the divisor [sqrt(1 + 2 cos t sin t q)] of
    [_gridplane_2] is for. *)
Theorem refine_step_keeps_unit_norm :
  forall (Zc : matrix) (cap : Z) (ga2 : gp_kwargs) (j : nat)
         (r r' : reducer_state) (w w' : world) (c : grid_cache),
    cache (obj w) = Some c -> optmax c = 1 ->
    (j < length (afin r))%nat -> sumsq (afin r) = 1 ->
    Rabs (nth j (afin r) 0) < 1 ->
    refine_variable Zc cap ga2 j r w = (w', inr r') ->
    sumsq (afin r') = 1 /\ length (afin r') = length (afin r).
Proof.
  intros Zc cap ga2 j r r' w w' c Hc Ho Hj Hnorm Hq H.
  apply refine_variable_inv in H.
  destruct H as (c' & theta & wi & Hc' & Hwi & Hr & _).
  rewrite Hc in Hc'. injection Hc' as <-. rewrite Ho in Hwi.
  rewrite reexpress_pair in Hwi.
  subst r'. cbn [afin]. split; [|now rewrite set_nth_length, vscale_length].
  rewrite sumsq_set_nth by (rewrite vscale_length; exact Hj).
  rewrite sumsq_vscale, nth_vscale, Hnorm.
  pose proof (stabilized_unit (cos theta * 1) (sin theta * 1)
                (nth j (afin r) 0) (unit_circle theta 1 eq_refl) Hq) as Hs.
  cbv zeta in Hs.
  assert (E0 : w0 wi =
            cos theta * 1 /
            sqrt (1 + 2 * (cos theta * 1 * (sin theta * 1)) *
                      nth j (afin r) 0))
    by (rewrite Hwi; reflexivity).
  assert (E1 : w1 wi =
            sin theta * 1 /
            sqrt (1 + 2 * (cos theta * 1 * (sin theta * 1)) *
                      nth j (afin r) 0))
    by (rewrite Hwi; reflexivity).
  rewrite E0, E1. lra.
Qed.

Lemma refine_step_keeps_unit_norm_witness :
  exists w' r',
    cache (obj (sample_world 1)) = Some (default_cache (sample_self 1)) /\
    optmax (default_cache (sample_self 1)) = 1 /\
    (1 < length (afin sample_reducer))%nat /\
    sumsq (afin sample_reducer) = 1 /\
    Rabs (nth 1 (afin sample_reducer) 0) < 1 /\
    refine_variable sample_data 4 (sample_grid_args 3) 1 sample_reducer
      (sample_world 1) = (w', inr r') /\
    sumsq (afin r') = 1 /\ length (afin r') = length (afin sample_reducer).
Proof.
  assert (Hw : fit_world (sample_world 1) (pi_new sample_index []))
    by (split; reflexivity).
  assert (Hga : fit_grid_args (sample_grid_args 3) 3)
    by (repeat split; try discriminate; lia).
  assert (Hc : cache (obj (sample_world 1)) =
               Some (default_cache (sample_self 1))) by reflexivity.
  assert (Ho : optmax (default_cache (sample_self 1)) = 1) by reflexivity.
  assert (Hj : (1 < length (afin sample_reducer))%nat) by (simpl; lia).
  assert (Hn : sumsq (afin sample_reducer) = 1)
    by (unfold sumsq; simpl; lra).
  assert (Hq : Rabs (nth 1 (afin sample_reducer) 0) < 1)
    by (simpl; rewrite Rabs_R0; lra).
  destruct (refine_variable_run _ _ _ 3 sample_data 4 1 sample_reducer Hw Hga)
    as (r' & Hrun & _).
  eexists _, r'.
  repeat (split; [assumption|]).
  split; [exact Hrun|].
  exact (refine_step_keeps_unit_norm sample_data 4 (sample_grid_args 3) 1
           sample_reducer r' _ _ _ Hc Ho Hj Hn Hq Hrun).
Defined.

(** ** The sweeps of the outer loop *)

Lemma sweep_keeps_score (Zc : matrix) (p : nat) (cap : Z) (ga2 : gp_kwargs)
  (r r' : reducer_state) (w w' : world) :
  (p <= ncols Zc)%nat -> (p <= length (afin r))%nat ->
  Zopt r = mat_vec Zc (afin r) ->
  sweep Zc p cap ga2 r w = (w', inr r') ->
  Zopt r' = mat_vec Zc (afin r') /\ length (afin r') = length (afin r) /\
  obj w' = obj w.
Proof.
  intros Hp Hl Hz H. unfold sweep in H.
  apply (foldM_seq_run_inv (refine_variable Zc cap ga2)
           (fun _ wa ra =>
              Zopt ra = mat_vec Zc (afin ra) /\
              length (afin ra) = length (afin r) /\ obj wa = obj w)
           p 0) with (s := r) (w := w); [|exact H|auto].
  intros i s wa wb s' Hi Hstep (Hs & Hls & Hwa).
  apply refine_variable_inv in Hstep.
  destruct Hstep as (_ & _ & wi & _ & _ & -> & ->).
  cbn [afin Zopt obj]. split; [|split; [|exact Hwa]].
  - apply refine_step_score; [lia|lia|exact Hs].
  - now rewrite set_nth_length, vscale_length.
Qed.

Lemma sweep_keeps_obj (Zc : matrix) (cap : Z) (ga2 : gp_kwargs) (l : list nat)
  (r : reducer_state) (w : world) :
  obj (fst (foldM (refine_variable Zc cap ga2) l r w)) = obj w.
Proof.
  revert r w; induction l as [|j l IH]; intros r w; [reflexivity|].
  simpl. unfold bind.
  pose proof (refine_variable_trace Zc cap ga2 j r w) as Ht.
  destruct (refine_variable Zc cap ga2 j r w) as [wa [e|ra]]; simpl in Ht;
    subst wa; [reflexivity|].
  now rewrite IH.
Qed.

Lemma outer_body_inv (Zc : matrix) (p : nat) (cap : Z) (ga ga2 : gp_kwargs)
  (s s' : loop_state) (w w' : world) :
  outer_body Zc p cap ga ga2 s w = (w', inr s') ->
  exists wa f,
    sweep Zc p cap ga2 (red s) w = (wa, inr (red s')) /\
    most (obj w) = Some f /\ obj w' = obj w /\
    objf s' =
      index_value (obj w) f (with_q (ekw_of_kwargs ga) (afin (red s')))
        (mat_vec Zc (afin (red s'))) /\
    objfold s' = objf s /\ ii s' = (ii s + 1)%Z.
Proof.
  intros H. unfold outer_body in H.
  apply bind_inv in H. destruct H as (wa & r & Hsw & H).
  assert (Hobj : obj wa = obj w).
  { pose proof (sweep_keeps_obj Zc cap ga2 (seq 0 p) (red s) w) as Hk.
    unfold sweep in Hsw. now rewrite Hsw in Hk. }
  apply bind_inv in H. destruct H as (wb & self & Hself & H).
  unfold get_self in Hself. injection Hself as <- <-.
  apply bind_inv in H. destruct H as (wc & f & Hf & H).
  unfold getattr in Hf.
  destruct (most (obj wa)) as [f'|] eqn:Ef; [|discriminate Hf].
  injection Hf as <- <-. cbv zeta in H.
  apply bind_inv in H. destruct H as (wd & [] & Hv & H).
  injection H as <- <-. cbn [red objf objfold ii].
  exists wa, f'. rewrite <- Hobj, Ef.
  repeat split; auto.
  destruct (verbose (par (obj wa))); injection Hv as <-; reflexivity.
Qed.

Lemma while_sweeping_inv (I : world -> loop_state -> Prop) (maxiter : Z)
  (body : loop_state -> M loop_state) :
  (forall s w w' s', body s w = (w', inr s') -> I w s -> I w' s') ->
  forall fuel s w w' s',
    while_sweeping fuel maxiter body s w = (w', inr s') -> I w s -> I w' s'.
Proof.
  intros Hstep. induction fuel as [|fuel IH]; intros s w w' s' H HI.
  - injection H as <- <-. exact HI.
  - simpl in H. destruct (guard maxiter s).
    + apply bind_inv in H. destruct H as (wa & sa & Hb & H).
      apply (IH sa wa); [exact H|]. now apply (Hstep s w).
    + injection H as <- <-. exact HI.
Qed.

Lemma pairwise_reducer_inv (Zc : matrix) (p : nat) (maxiter : Z)
  (ga ga2 : gp_kwargs) (w w' : world) (wi : vec) (m : R) (s : loop_state) :
  pairwise_reducer Zc p maxiter ga ga2 w = (w', inr (wi, m, s)) ->
  exists wa ra wb rb f cap,
    seed Zc p ga w = (wa, inr ra) /\
    foldM (fold_variable Zc ga) (seq 2 (p - 2)) ra wa = (wb, inr rb) /\
    most (obj wb) = Some f /\
    while_sweeping (Z.to_nat (maxiter + 1)) maxiter
      (outer_body Zc p cap ga ga2)
      (mk_loop rb (-1000)
         (index_value (obj wb) f (ekw_of_kwargs ga) (mat_vec Zc (afin rb)))
         Alias 0%Z) wb = (w', inr s) /\
    wi = afin (red s) /\ m = objf s.
Proof.
  intros H. unfold pairwise_reducer in H.
  apply bind_inv in H. destruct H as (wa & ra & Hseed & H).
  apply bind_inv in H. destruct H as (wb & rb & Hfold & H).
  apply bind_inv in H. destruct H as (wc & self & Hself & H).
  unfold get_self in Hself. injection Hself as <- <-.
  apply bind_inv in H. destruct H as (wd & f & Hf & H).
  unfold getattr in Hf.
  destruct (most (obj wb)) as [f'|] eqn:Ef; [|discriminate Hf].
  injection Hf as <- <-. cbv zeta in H.
  apply bind_inv in H. destruct H as (we & cap & Hcap & H).
  assert (we = wb).
  { unfold maxiter_2j in Hcap.
    destruct (maxiter =? 0)%Z; [discriminate Hcap|].
    destruct (maxiter <? 0)%Z; [discriminate Hcap|].
    now injection Hcap as <- _. }
  subst we.
  apply bind_inv in H. destruct H as (wf & sf & Hloop & H).
  injection H as <- <- <- <-.
  exists wa, ra, wb, rb, f', cap. repeat split; auto.
Qed.

(** X3.  Whenever the pairwise reducer returns, the direction it
    returns is the running combination [afin] of its last sweep, with
    one entry per variable, and the running score the sweeps worked on
    is the data times that direction: [Zopt = Z * wi]. *)
Theorem reducer_score_is_combination :
  forall (Zc : matrix) (p : nat) (maxiter : Z) (ga ga2 : gp_kwargs)
         (w w' : world) (wi : vec) (m : R) (s : loop_state),
    rectangular Zc -> p = ncols Zc -> grid_scaling ga w = 1 ->
    pairwise_reducer Zc p maxiter ga ga2 w = (w', inr (wi, m, s)) ->
    wi = afin (red s) /\ length wi = p /\ Zopt (red s) = mat_vec Zc wi.
Proof.
  intros Zc p maxiter ga ga2 w w' wi m s Hrect Hp Ho H.
  apply pairwise_reducer_inv in H.
  destruct H as (wa & ra & wb & rb & f & cap & Hseed & Hfold & _ & Hloop
                 & -> & _).
  destruct (seed_and_fold_folded Zc p ga w wa wb ra rb Hrect Hp Ho
              Hseed Hfold) as (Hl & _ & Hz).
  split; [reflexivity|].
  pose proof (while_sweeping_inv
                (fun _ t =>
                   length (afin (red t)) = p /\
                   Zopt (red t) = mat_vec Zc (afin (red t)))
                maxiter (outer_body Zc p cap ga ga2)) as Hinv.
  apply Hinv with (fuel := Z.to_nat (maxiter + 1)) (w := wb) (w' := w')
                  (s := mk_loop rb (-1000)
                          (index_value (obj wb) f (ekw_of_kwargs ga)
                             (mat_vec Zc (afin rb))) Alias 0%Z);
    [|exact Hloop|now split].
  intros t w1 w2 t' Hb [Htl Htz].
  apply outer_body_inv in Hb. destruct Hb as (wc & f' & Hsw & _).
  destruct (sweep_keeps_score Zc p cap ga2 (red t) (red t') w1 wc)
    as (Hz' & Hl' & _); auto; try lia.
  split; [congruence|exact Hz'].
Qed.

Lemma reducer_score_is_combination_witness :
  exists w' s,
    rectangular sample_data /\ 3%nat = ncols sample_data /\
    grid_scaling (sample_grid_args 3) (sample_world 1) = 1 /\
    pairwise_reducer sample_data 3 3 (sample_grid_args 3) (sample_grid_args 3)
      (sample_world 1) = (w', inr (afin (red s), objf s, s)) /\
    afin (red s) = afin (red s) /\ length (afin (red s)) = 3%nat /\
    Zopt (red s) = mat_vec sample_data (afin (red s)).
Proof.
  assert (Hw : fit_world (sample_world 1) (pi_new sample_index []))
    by (split; reflexivity).
  assert (Hga : fit_grid_args (sample_grid_args 3) 3)
    by (repeat split; try discriminate; lia).
  assert (Hrect : rectangular sample_data) by (repeat constructor).
  assert (Ho : grid_scaling (sample_grid_args 3) (sample_world 1) = 1)
    by reflexivity.
  destruct (pairwise_reducer_run _ _ _ _ 3 3 sample_data 3 3 Hw Hga Hga)
    as (s & evs & Hrun & _); [simpl; lia|lia|].
  eexists _, s.
  split; [exact Hrect|split; [reflexivity|split; [exact Ho|]]].
  split; [exact Hrun|].
  exact (reducer_score_is_combination sample_data 3 3 _ _ _ _ _ _ s Hrect
           eq_refl Ho Hrun).
Defined.

(** X4.  The value the pairwise reducer returns, which [fit] stores in
    [Maxobjf_], is the projection index (squared when [square_pi]) of
    the score [Z * wi] of the direction [wi] it returns, evaluated with
    the keyword [q = wi]: the value of the last sweep, whatever the
    sweeps before it reached.  When the loop makes no sweep the value
    is the placeholder [-1000]. *)
Theorem reducer_value_is_index_of_score :
  forall (Zc : matrix) (p : nat) (maxiter : Z) (ga ga2 : gp_kwargs)
         (w w' : world) (wi : vec) (m : R) (s : loop_state),
    pairwise_reducer Zc p maxiter ga ga2 w = (w', inr (wi, m, s)) ->
    exists f,
      most (obj w') = Some f /\
      ((ii s = 0%Z /\ m = -1000) \/
       ((0 < ii s)%Z /\
        m = index_value (obj w') f (with_q (ekw_of_kwargs ga) wi)
              (mat_vec Zc wi))).
Proof.
  intros Zc p maxiter ga ga2 w w' wi m s H.
  apply pairwise_reducer_inv in H.
  destruct H as (wa & ra & wb & rb & f & cap & _ & _ & Hf & Hloop & -> & ->).
  exists f.
  pose proof (while_sweeping_inv
                (fun w1 t =>
                   obj w1 = obj wb /\
                   ((ii t = 0%Z /\ objf t = -1000) \/
                    ((0 < ii t)%Z /\
                     objf t = index_value (obj wb) f
                                (with_q (ekw_of_kwargs ga) (afin (red t)))
                                (mat_vec Zc (afin (red t))))))
                maxiter (outer_body Zc p cap ga ga2)) as Hinv.
  destruct Hinv with (fuel := Z.to_nat (maxiter + 1)) (w := wb) (w' := w')
                     (s := mk_loop rb (-1000)
                             (index_value (obj wb) f (ekw_of_kwargs ga)
                                (mat_vec Zc (afin rb))) Alias 0%Z)
                     (s' := s) as [Hobj Hval];
    [|exact Hloop|split; [reflexivity|left; split; reflexivity]|].
  - intros t w1 w2 t' Hb [Ho Ht].
    apply outer_body_inv in Hb.
    destruct Hb as (wc & f' & _ & Hf' & Ho2 & Hobjf & _ & Hii).
    rewrite Ho in Hf', Hobjf. rewrite Hf in Hf'. injection Hf' as <-.
    split; [congruence|]. right. split; [|exact Hobjf].
    destruct Ht as [[H0 _]|[H0 _]]; lia.
  - rewrite Hobj. split; [exact Hf|exact Hval].
Qed.

Lemma reducer_value_is_index_of_score_witness :
  exists w' s,
    pairwise_reducer sample_data 3 3 (sample_grid_args 3) (sample_grid_args 3)
      (sample_world 1) = (w', inr (afin (red s), objf s, s)) /\
    exists f,
      most (obj w') = Some f /\
      ((ii s = 0%Z /\ objf s = -1000) \/
       ((0 < ii s)%Z /\
        objf s = index_value (obj w') f
                   (with_q (ekw_of_kwargs (sample_grid_args 3))
                      (afin (red s)))
                   (mat_vec sample_data (afin (red s))))).
Proof.
  assert (Hw : fit_world (sample_world 1) (pi_new sample_index []))
    by (split; reflexivity).
  assert (Hga : fit_grid_args (sample_grid_args 3) 3)
    by (repeat split; try discriminate; lia).
  destruct (pairwise_reducer_run _ _ _ _ 3 3 sample_data 3 3 Hw Hga Hga)
    as (s & evs & Hrun & _); [simpl; lia|lia|].
  eexists _, s. split; [exact Hrun|].
  exact (reducer_value_is_index_of_score sample_data 3 3 _ _ _ _ _ _ s Hrun).
Defined.

(** ** Counting the grid searches *)

Lemma coarse_calls_app (a b : list event) :
  coarse_calls (a ++ b) = (coarse_calls a + coarse_calls b)%nat.
Proof. unfold coarse_calls. now rewrite filter_app, length_app. Qed.

Lemma refiner_calls_app (a b : list event) :
  refiner_calls (a ++ b) = (refiner_calls a + refiner_calls b)%nat.
Proof. unfold refiner_calls. now rewrite filter_app, length_app. Qed.


Lemma sweep_counts (Zc : matrix) (p : nat) (cap : Z) (ga2 : gp_kwargs)
  (r r' : reducer_state) (w w' : world) :
  sweep Zc p cap ga2 r w = (w', inr r') ->
  coarse_calls (trace w') = coarse_calls (trace w) /\
  refiner_calls (trace w') = (refiner_calls (trace w) + p)%nat.
Proof.
  intros H. unfold sweep in H.
  pose proof (foldM_seq_run_inv (refine_variable Zc cap ga2)
                (fun j wa _ =>
                   coarse_calls (trace wa) = coarse_calls (trace w) /\
                   refiner_calls (trace wa) = (refiner_calls (trace w) + j)%nat)
                p 0) as Hinv.
  apply Hinv with (s := r) (w := w) (s' := r'); [|exact H|split; auto].
  intros i s wa wb s' _ Hstep [Hc Hr].
  pose proof (refine_variable_trace Zc cap ga2 i s wa) as Ht.
  rewrite Hstep in Ht. simpl in Ht. subst wb. simpl trace.
  rewrite coarse_calls_app, refiner_calls_app, Hc, Hr.
  unfold refiner_call, coarse_calls, refiner_calls. simpl. lia.
Qed.

Lemma outer_body_counts (Zc : matrix) (p : nat) (cap : Z)
  (ga ga2 : gp_kwargs) (s s' : loop_state) (w w' : world) :
  outer_body Zc p cap ga ga2 s w = (w', inr s') ->
  coarse_calls (trace w') = coarse_calls (trace w) /\
  refiner_calls (trace w') = (refiner_calls (trace w) + p)%nat.
Proof.
  intros H. unfold outer_body in H.
  apply bind_inv in H. destruct H as (wa & r & Hsw & H).
  apply sweep_counts in Hsw. destruct Hsw as [Hc Hr].
  apply bind_inv in H. destruct H as (wb & self & Hself & H).
  unfold get_self in Hself. injection Hself as <- <-.
  apply bind_inv in H. destruct H as (wc & f & Hf & H).
  unfold getattr in Hf.
  destruct (most (obj wa)) as [f'|]; [|discriminate Hf].
  injection Hf as <- <-. cbv zeta in H.
  apply bind_inv in H. destruct H as (wd & [] & Hv & H).
  injection H as <- _.
  destruct (verbose (par (obj wa))); injection Hv as <-; [|now split].
  simpl trace. rewrite coarse_calls_app, refiner_calls_app, Hc, Hr.
  unfold coarse_calls, refiner_calls. simpl. lia.
Qed.

Lemma seed_world (Zc : matrix) (p : nat) (ga : gp_kwargs) (w w' : world)
  (r : reducer_state) :
  seed Zc p ga w = (w', inr r) -> w' = after_gridplane w (firstn 2 Zc) ga.
Proof.
  intros H. unfold seed in H.
  apply bind_inv in H. destruct H as (wa & res & Hg & H).
  injection H as <- _. apply gridplane_inv in Hg.
  now destruct Hg as (_ & _ & _ & _ & _ & _ & Hw).
Qed.

Lemma fold_variable_world (Zc : matrix) (ga : gp_kwargs) (j : nat)
  (r r' : reducer_state) (w w' : world) :
  fold_variable Zc ga j r w = (w', inr r') ->
  w' = after_gridplane w (projmat Zc j r) ga.
Proof.
  intros H. unfold fold_variable in H.
  apply bind_inv in H. destruct H as (wa & res & Hg & H).
  injection H as <- _. apply gridplane_inv in Hg.
  now destruct Hg as (_ & _ & _ & _ & _ & _ & Hw).
Qed.

Lemma reducer_call_counts (Zc : matrix) (p : nat) (maxiter : Z)
  (ga ga2 : gp_kwargs) (w w' : world) (wi : vec) (m : R) (s : loop_state) :
  pairwise_reducer Zc p maxiter ga ga2 w = (w', inr (wi, m, s)) ->
  coarse_calls (trace w') = (coarse_calls (trace w) + (1 + (p - 2)))%nat /\
  Z.of_nat (refiner_calls (trace w')) =
    (Z.of_nat (refiner_calls (trace w)) + Z.of_nat p * ii s)%Z.
Proof.
  intros H. apply pairwise_reducer_inv in H.
  destruct H as (wa & ra & wb & rb & f & cap & Hseed & Hfold & _ & Hloop & _).
  apply seed_world in Hseed.
  assert (Ha : coarse_calls (trace wa) = (coarse_calls (trace w) + 1)%nat /\
               refiner_calls (trace wa) = refiner_calls (trace w)).
  { subst wa. unfold after_gridplane. simpl trace.
    rewrite coarse_calls_app, refiner_calls_app.
    unfold coarse_calls, refiner_calls. simpl. lia. }
  assert (Hb : coarse_calls (trace wb) =
               (coarse_calls (trace w) + 1 + (2 + (p - 2) - 2))%nat /\
               refiner_calls (trace wb) = refiner_calls (trace w)).
  { pose proof (foldM_seq_run_inv (fold_variable Zc ga)
                  (fun j w1 _ =>
                     coarse_calls (trace w1) =
                       (coarse_calls (trace w) + 1 + (j - 2))%nat /\
                     refiner_calls (trace w1) = refiner_calls (trace w))
                  (p - 2) 2) as Hinv.
    apply Hinv with (s := ra) (w := wa) (s' := rb);
      [|exact Hfold|simpl; destruct Ha; split; lia].
    intros i t w1 w2 t' Hi Hstep [Hc Hr].
    apply fold_variable_world in Hstep. subst w2.
    unfold after_gridplane. simpl trace.
    rewrite coarse_calls_app, refiner_calls_app, Hc, Hr.
    unfold coarse_calls, refiner_calls. simpl. lia. }
  destruct Hb as [Hbc Hbr].
  pose proof (while_sweeping_inv
                (fun w1 t =>
                   coarse_calls (trace w1) = coarse_calls (trace wb) /\
                   Z.of_nat (refiner_calls (trace w1)) =
                     (Z.of_nat (refiner_calls (trace wb)) +
                      Z.of_nat p * ii t)%Z)
                maxiter (outer_body Zc p cap ga ga2)) as Hinv.
  destruct Hinv with (fuel := Z.to_nat (maxiter + 1)) (w := wb) (w' := w')
                     (s := mk_loop rb (-1000)
                             (index_value (obj wb) f (ekw_of_kwargs ga)
                                (mat_vec Zc (afin rb))) Alias 0%Z)
                     (s' := s) as [Hc Hr];
    [|exact Hloop|split; [reflexivity|simpl; lia]|].
  - intros t w1 w2 t' Hbody [Hc Hr].
    pose proof (outer_body_counts _ _ _ _ _ _ _ _ _ Hbody) as [Hc' Hr'].
    apply outer_body_inv in Hbody.
    destruct Hbody as (_ & _ & _ & _ & _ & _ & _ & Hii).
    split; [congruence|]. rewrite Hr', Hii. lia.
  - split; [rewrite Hc, Hbc; lia|]. rewrite Hr, Hbr. reflexivity.
Qed.

(** X5.  In a world in which [fit] runs, on a matrix of at least two
    columns and with [maxiter >= 1], the pairwise reducer returns, and
    returns the last [afin], without changing the estimator.  The loop
    has left with its guard false after [ii <= maxiter + 1] sweeps, and
    the run has made [1 + (p - 2)] coarse grid searches and [p]
    refining searches per sweep. *)
Theorem reducer_returns_within_bound :
  forall (w : world) (f : evaluator) (ga ga2 : gp_kwargs) (n n2 : nat)
         (Zc : matrix) (p : nat) (maxiter : Z),
    fit_world w f -> fit_grid_args ga n -> fit_grid_args ga2 n2 ->
    (2 <= ncols Zc)%nat -> (1 <= maxiter)%Z ->
    reducer_run_contract w Zc p maxiter ga ga2.
Proof.
  intros w f ga ga2 n n2 Zc p maxiter Hw Hga Hga2 HZ Hm.
  destruct (pairwise_reducer_run w f ga ga2 n n2 Zc p maxiter Hw Hga Hga2 HZ
              Hm) as (s & evs & Hrun & Hg & Hii & _).
  exists (mk_world (obj w) (trace w ++ evs)), s.
  split; [exact Hrun|split; [reflexivity|split; [exact Hg|split; [exact Hii|]]]].
  exact (reducer_call_counts _ _ _ _ _ _ _ _ _ _ Hrun).
Qed.

Lemma reducer_returns_within_bound_witness :
  fit_world (sample_world 1) (pi_new sample_index []) /\
  fit_grid_args (sample_grid_args 3) 3 /\
  (2 <= ncols sample_data)%nat /\ (1 <= 3)%Z /\
  reducer_run_contract (sample_world 1) sample_data 3 3 (sample_grid_args 3)
    (sample_grid_args 3).
Proof.
  assert (Hw : fit_world (sample_world 1) (pi_new sample_index []))
    by (split; reflexivity).
  assert (Hga : fit_grid_args (sample_grid_args 3) 3)
    by (repeat split; try discriminate; lia).
  assert (HZ : (2 <= ncols sample_data)%nat) by (simpl; lia).
  assert (Hm : (1 <= 3)%Z) by lia.
  repeat (split; [assumption|]).
  exact (reducer_returns_within_bound (sample_world 1) _ _ _ 3 3 sample_data 3
           3 Hw Hga Hga HZ Hm).
Defined.



(** ** What a computation leaves untouched *)

Lemma keeps_ret {A B : Type} (proj : ppdire -> B) (a : A) :
  keeps proj (ret a).
Proof. intros w. reflexivity. Qed.

Lemma keeps_raise {A B : Type} (proj : ppdire -> B) (e : exn) :
  keeps proj (raise e : M A).
Proof. intros w. reflexivity. Qed.

Lemma keeps_log {B : Type} (proj : ppdire -> B) (ev : event) :
  keeps proj (log ev).
Proof. intros w. reflexivity. Qed.

Lemma keeps_get_self {B : Type} (proj : ppdire -> B) : keeps proj get_self.
Proof. intros w. reflexivity. Qed.

Lemma keeps_getattr {A B : Type} (proj : ppdire -> B) (name : string)
  (field : ppdire -> option A) :
  keeps proj (getattr name field).
Proof. intros w. unfold getattr. now destruct (field (obj w)). Qed.

Lemma keeps_bind {A B C : Type} (proj : ppdire -> B) (m : M A)
  (k : A -> M C) :
  keeps proj m -> (forall a, keeps proj (k a)) -> keeps proj (bind m k).
Proof.
  intros Hm Hk w. unfold bind. specialize (Hm w).
  destruct (m w) as [w1 [e|a]]; [exact Hm|].
  rewrite (Hk a w1). exact Hm.
Qed.

Lemma keeps_foldM {A St B : Type} (proj : ppdire -> B)
  (f : A -> St -> M St) (l : list A) (s : St) :
  (forall a t, keeps proj (f a t)) -> keeps proj (foldM f l s).
Proof.
  intros Hf. revert s; induction l as [|a l IH]; intros s.
  - apply keeps_ret.
  - simpl. apply keeps_bind; [apply Hf|exact IH].
Qed.

Lemma keeps_while {B : Type} (proj : ppdire -> B) (fuel : nat) (maxiter : Z)
  (body : loop_state -> M loop_state) (s : loop_state) :
  (forall t, keeps proj (body t)) ->
  keeps proj (while_sweeping fuel maxiter body s).
Proof.
  intros Hb. revert s; induction fuel as [|fuel IH]; intros s.
  - apply keeps_ret.
  - simpl. destruct (guard maxiter s); [|apply keeps_ret].
    apply keeps_bind; [apply Hb|exact IH].
Qed.

Lemma keeps_weaken {A B C : Type} (proj : ppdire -> B) (g : B -> C)
  (m : M A) :
  keeps proj m -> keeps (fun s => g (proj s)) m.
Proof. intros H w. now rewrite (H w). Qed.

Create HintDb kept discriminated.

#[export] Hint Resolve keeps_ret keeps_raise keeps_log keeps_get_self
  keeps_getattr : kept.

(** Splitting a computation along its binds and its case analyses. *)
Ltac keeps_tac :=
  repeat first
    [ solve [auto with kept]
    | apply keeps_bind; [|intros ?]
    | apply keeps_foldM; intros ? ?
    | apply keeps_while; intros ?
    | match goal with
      | |- keeps _ (match ?x with _ => _ end) => destruct x
      end ].

Lemma gridplane_keeps (X : matrix) (pa : ekw) (kw : gp_kwargs) :
  keeps without_cache (_gridplane X pa kw).
Proof.
  intros w.
  unfold _gridplane, measure, select_max, check_plane, getattr, log,
    get_self, put_self, bind, ret, raise.
  run_cases_tac.
Qed.

Lemma gridplane_2_keeps {B : Type} (proj : ppdire -> B) (X : matrix) (q : R)
  (dv : Z) (pa : ekw) (kw : gp_kwargs) :
  keeps proj (_gridplane_2 X q dv pa kw).
Proof. intros w. now rewrite gridplane_2_trace. Qed.

#[export] Hint Resolve gridplane_keeps gridplane_2_keeps : kept.

Lemma maxiter_2j_keeps {B : Type} (proj : ppdire -> B) (maxiter : Z) :
  keeps proj (maxiter_2j maxiter).
Proof. unfold maxiter_2j. keeps_tac. Qed.

#[export] Hint Resolve maxiter_2j_keeps : kept.

Lemma pairwise_reducer_keeps (Zc : matrix) (p : nat) (maxiter : Z)
  (ga ga2 : gp_kwargs) :
  keeps without_cache (pairwise_reducer Zc p maxiter ga ga2).
Proof.
  unfold pairwise_reducer, seed, fold_variable, outer_body, sweep,
    refine_variable.
  keeps_tac.
Qed.

Lemma component_direction_keeps (p : nat) (maxiter : Z) (E : matrix)
  (ga ga2 : gp_kwargs) :
  keeps without_cache (component_direction p maxiter E ga ga2).
Proof.
  pose proof pairwise_reducer_keeps as H.
  unfold component_direction. keeps_tac.
Qed.

Lemma regress_keeps {B : Type} (proj : ppdire -> B) (c : collaborators)
  (l : fit_locals) (scale : string) (y ys ti : vec) :
  keeps proj (regress c l scale y ys ti).
Proof. unfold regress. keeps_tac. Qed.

Lemma extract_component_keeps (c : collaborators) (q : prepared)
  (l : fit_locals) (ga ga2 : gp_kwargs) (i : nat) (st : fit_state) :
  keeps without_cache (extract_component c q l ga ga2 i st).
Proof.
  pose proof component_direction_keeps as H1.
  pose proof (regress_keeps without_cache) as H2.
  unfold extract_component. keeps_tac.
Qed.

(** X7.  The component loop of [fit], with all its grid searches,
    sweeps, regressions and deflations, changes nothing of the
    estimator but the five cached grid bounds, whether it ends normally
    or in an exception. *)
Theorem component_loop_keeps_estimator :
  forall (c : collaborators) (q : prepared) (l : fit_locals)
         (ga ga2 : gp_kwargs) (k a : nat) (st : fit_state) (w : world),
    without_cache
      (obj (fst (foldM (extract_component c q l ga ga2) (seq a k) st w))) =
    without_cache (obj w).
Proof.
  intros c q l ga ga2 k a st w.
  apply (keeps_foldM without_cache (extract_component c q l ga ga2)).
  intros i t. apply extract_component_keeps.
Qed.

(** ** What [fit] leaves untouched *)

Lemma loop_keeps {B : Type} (g : ppdire -> B) (c : collaborators)
  (q : prepared) (l : fit_locals) (ga ga2 : gp_kwargs) (ks : list nat)
  (st : fit_state) :
  keeps (fun s => g (without_cache s))
    (foldM (extract_component c q l ga ga2) ks st).
Proof.
  apply (keeps_weaken without_cache g).
  apply keeps_foldM. intros i t. apply extract_component_keeps.
Qed.

Ltac bool_hyps :=
  repeat match goal with
         | H : (_ && _)%bool = true |- _ => apply andb_prop in H; destruct H
         | H : negb _ = true |- _ => apply negb_true_iff in H
         end.

Ltac keeps_unfold :=
  intros w;
  unfold collect_arguments, check_projection_index, check_dimensions,
    preprocess, grid_arguments, finish, is_dicomo, pi_mode, load_global,
    getattr, log, get_self, put_self, bind, ret, raise;
  split_runs; try reflexivity; bool_hyps; try congruence.

Lemma collect_arguments_settings (args : list vec) (kwargs : fit_kwargs)
  (w : world) :
  settings (obj (fst (collect_arguments args kwargs w))) =
    set_n_components (settings (obj w))
      (from_option (fk_h kwargs) (n_components (par (obj w)))).
Proof.
  destruct (collect_arguments_run args kwargs w) as (l & -> & _).
  unfold after_collect, settings. simpl.
  destruct (fk_h kwargs) as [h|]; simpl;
    destruct (par (obj w)) as [? ? ? ? ? ? ? ? wh ? ? ? ?]; simpl;
    destruct wh; reflexivity.
Qed.

Lemma check_projection_index_keeps {B : Type} (proj : ppdire -> B)
  (g : globals) (kwargs : fit_kwargs) :
  keeps proj (check_projection_index g kwargs).
Proof.
  unfold check_projection_index, is_dicomo, pi_mode, load_global.
  keeps_tac.
Qed.

Lemma check_dimensions_keeps_settings (X : matrix) (h : nat) :
  keeps settings (check_dimensions X h).
Proof. keeps_unfold. Qed.

Lemma preprocess_keeps_settings (c : collaborators) (g : globals)
  (X X0 : matrix) (n p : nat) (l : fit_locals) :
  keeps settings (preprocess c g X X0 n p l).
Proof.
  keeps_unfold.
  all: unfold settings; simpl;
    repeat match goal with
           | H : whiten_data _ = _ |- _ => rewrite H
           end;
    reflexivity.
Qed.

Lemma grid_arguments_keeps (q : prepared) (l : fit_locals) :
  keeps without_cache (grid_arguments q l).
Proof. keeps_unfold. Qed.

Lemma finish_keeps_settings (c : collaborators) (q : prepared)
  (l : fit_locals) (st : fit_state) :
  keeps settings (finish c q l st).
Proof. keeps_unfold. Qed.

Lemma keeps_after {A B C : Type} (proj : ppdire -> B) (m : M A)
  (k : A -> M C) (w : world) :
  (forall a, keeps proj (k a)) ->
  proj (obj (fst (bind m k w))) = proj (obj (fst (m w))).
Proof.
  intros Hk. unfold bind. destruct (m w) as [w1 [e|a]]; [reflexivity|].
  apply Hk.
Qed.

Lemma fit_settings (c : collaborators) (g : globals) (X : matrix)
  (args : list vec) (kwargs : fit_kwargs) (w : world) :
  settings (obj (fst (fit c g X args kwargs w))) =
    set_n_components (settings (obj w))
      (from_option (fk_h kwargs) (n_components (par (obj w)))).
Proof.
  rewrite <- collect_arguments_settings with (args := args).
  unfold fit, prepare_fit. rewrite bind_assoc.
  apply keeps_after. intros l.
  assert (Hga : forall q l', keeps settings (grid_arguments q l'))
    by (intros q l';
        exact (keeps_weaken without_cache settings _
                 (grid_arguments_keeps q l'))).
  assert (Hloop : forall q l' ga ga2 ks st,
            keeps settings (foldM (extract_component c q l' ga ga2) ks st))
    by (intros; exact (loop_keeps settings _ _ _ _ _ _ _)).
  pose proof (check_projection_index_keeps settings g kwargs) as H1.
  pose proof check_dimensions_keeps_settings as H2.
  pose proof preprocess_keeps_settings as H3.
  pose proof finish_keeps_settings as H4.
  keeps_tac.
Qed.

(** X8.  Whatever its outcome, [fit] writes to the constructor
    arguments of the estimator in two ways only: [n_components]
    becomes the [h] passed to [fit], when one is passed, and an
    estimator with [whiten_data] may have [center_data] and
    [scale_data] overwritten.  Every other argument, and these three
    otherwise, are after the call what they were before it. *)
Theorem fit_writes_only_n_components :
  forall (c : collaborators) (g : globals) (X : matrix) (args : list vec)
         (kwargs : fit_kwargs) (w : world),
    settings (obj (fst (fit c g X args kwargs w))) =
      set_n_components (settings (obj w))
        (from_option (fk_h kwargs) (n_components (par (obj w)))).
Proof. exact fit_settings. Qed.

(** [fit] with the result of the preparation passed on in place. *)
Lemma fit_unfold (c : collaborators) (g : globals) (X : matrix)
  (args : list vec) (kwargs : fit_kwargs) (w : world) :
  fit c g X args kwargs w =
    (l <- collect_arguments args kwargs ;;
     check_projection_index g kwargs ;;;
     d <- check_dimensions X (l_h l) ;;
     let '(X0, n, p) := d in
     q <- preprocess c g X X0 n p l ;;
     ga <- grid_arguments q l ;;
     st <- foldM (extract_component c q l (fst ga) (snd ga)) (seq 0 (l_h l))
             (initial_state q (l_h l)) ;;
     finish c q l st) w.
Proof.
  unfold fit, prepare_fit, bind.
  destruct (collect_arguments args kwargs w) as [w1 [e|l]]; [reflexivity|].
  destruct (check_projection_index g kwargs w1) as [w2 [e|[]]];
    [reflexivity|].
  destruct (check_dimensions X (l_h l) w2) as [w3 [e|[[X0 n] p]]];
    [reflexivity|].
  destruct (preprocess c g X X0 n p l w3) as [w4 [e|q]]; [reflexivity|].
  destruct (grid_arguments q l w4) as [w5 [e|ga]]; reflexivity.
Qed.

Lemma keeps_after_run {A B C : Type} (proj : ppdire -> B) (m : M A)
  (k : A -> M C) (w : world) :
  (forall w1 a, m w = (w1, inr a) -> keeps proj (k a)) ->
  proj (obj (fst (bind m k w))) = proj (obj (fst (m w))).
Proof.
  intros Hk. unfold bind. destruct (m w) as [w1 [e|a]] eqn:E; [reflexivity|].
  now apply (Hk w1 a).
Qed.

Lemma collect_arguments_keeps_regression (args : list vec)
  (kwargs : fit_kwargs) :
  keeps regression (collect_arguments args kwargs).
Proof. keeps_unfold. Qed.

Lemma check_dimensions_keeps_regression (X : matrix) (h : nat) :
  keeps regression (check_dimensions X h).
Proof. keeps_unfold. Qed.

Lemma preprocess_keeps_regression (c : collaborators) (g : globals)
  (X X0 : matrix) (n p : nat) (l : fit_locals) :
  keeps regression (preprocess c g X X0 n p l).
Proof. keeps_unfold. Qed.

Lemma finish_one_block_keeps_regression (c : collaborators) (q : prepared)
  (l : fit_locals) (st : fit_state) :
  l_flag l = One_block -> keeps regression (finish c q l st).
Proof.
  intros Hfl w.
  unfold finish, getattr, log, get_self, put_self, bind, ret, raise.
  rewrite Hfl. split_runs; reflexivity.
Qed.

Lemma collect_arguments_one_block (kwargs : fit_kwargs) (w w1 : world)
  (l : fit_locals) :
  fk_y kwargs = None ->
  collect_arguments [] kwargs w = (w1, inr l) -> l_flag l = One_block.
Proof.
  intros Hy. unfold collect_arguments, bind, get_self, put_self, ret.
  rewrite Hy. destruct (fk_h kwargs); simpl; intros H;
    injection H as _ <-; reflexivity.
Qed.

Lemma fit_one_block_keeps_regression (c : collaborators) (g : globals)
  (X : matrix) (kwargs : fit_kwargs) (w : world) :
  fk_y kwargs = None ->
  regression (obj (fst (fit c g X [] kwargs w))) = regression (obj w).
Proof.
  intros Hy. rewrite fit_unfold.
  rewrite <- (collect_arguments_keeps_regression [] kwargs w).
  apply keeps_after_run. intros w1 l Hl.
  apply (collect_arguments_one_block kwargs w w1 l Hy) in Hl.
  assert (Hga : forall q, keeps regression (grid_arguments q l))
    by (intros q;
        exact (keeps_weaken without_cache regression _
                 (grid_arguments_keeps q l))).
  assert (Hloop : forall q ga ga2 ks st,
            keeps regression (foldM (extract_component c q l ga ga2) ks st))
    by (intros; exact (loop_keeps regression _ _ _ _ _ _ _)).
  pose proof (check_projection_index_keeps regression g kwargs) as H1.
  pose proof check_dimensions_keeps_regression as H2.
  pose proof preprocess_keeps_regression as H3.
  pose proof (fun q st =>
                finish_one_block_keeps_regression c q l st Hl) as H4.
  keeps_tac.
Qed.

(** X9.  A call of [fit] without a response sets no regression
    attribute.  On an estimator that has never been fitted with a
    response, [predict] and [transform] therefore raise
    [AttributeError] on [coef_] after it, whatever the new data:
    [transform] checks the number of columns against [coef_] before it
    does anything else. *)
Theorem fit_without_response_sets_no_coefficients :
  forall (c : collaborators) (g : globals)
         (sd : robcent_obj -> matrix -> vec -> vec -> matrix) (X : matrix)
         (kwargs : fit_kwargs) (w : world) (Xn : matrix),
    regression (obj w) = None -> fk_y kwargs = None ->
    let w' := fst (fit c g X [] kwargs w) in
    regression (obj w') = None /\
    predict Xn w' = (w', inl (AttributeError "coef_")) /\
    transform sd Xn w' = (w', inl (AttributeError "coef_")).
Proof.
  intros c g sd X kwargs w Xn Hr Hy w'.
  assert (H : regression (obj w') = None)
    by (unfold w'; now rewrite fit_one_block_keeps_regression).
  split; [exact H|].
  unfold predict, transform, bind, getattr. simpl. rewrite H. split; reflexivity.
Qed.

Lemma stage_keeps_scaling_object (c : collaborators) (g : globals)
  (X : matrix) (args : list vec) (kwargs : fit_kwargs) :
  keeps unrequested_scaling_object (collect_arguments args kwargs) /\
  (forall h, keeps unrequested_scaling_object (check_dimensions X h)) /\
  (forall X' X0 n p l,
     keeps unrequested_scaling_object (preprocess c g X' X0 n p l)) /\
  (forall q l st, keeps unrequested_scaling_object (finish c q l st)).
Proof.
  split; [|split; [|split]]; intros; keeps_unfold.
  all: unfold unrequested_scaling_object; simpl;
    repeat match goal with
           | H : return_scaling_object _ = _ |- _ => rewrite H
           end;
    reflexivity.
Qed.

Lemma fit_keeps_unrequested_scaling_object (c : collaborators) (g : globals)
  (X : matrix) (args : list vec) (kwargs : fit_kwargs) :
  keeps unrequested_scaling_object (fit c g X args kwargs).
Proof.
  destruct (stage_keeps_scaling_object c g X args kwargs)
    as (H0 & H1 & H2 & H3).
  assert (Hga : forall q l,
            keeps unrequested_scaling_object (grid_arguments q l))
    by (intros q l;
        exact (keeps_weaken without_cache unrequested_scaling_object _
                 (grid_arguments_keeps q l))).
  assert (Hloop : forall q l ga ga2 ks st,
            keeps unrequested_scaling_object
              (foldM (extract_component c q l ga ga2) ks st))
    by (intros;
        exact (loop_keeps unrequested_scaling_object _ _ _ _ _ _ _)).
  pose proof (check_projection_index_keeps unrequested_scaling_object g
                kwargs) as H4.
  unfold fit, prepare_fit. keeps_tac.
Qed.

(** X10.  On an estimator built with [return_scaling_object = False]
    and holding no scaling object, [transform] never returns a result,
    before or after any call of [fit], failed or not: it raises
    [AttributeError] on [coef_], the [ValueError] of the column check,
    or [AttributeError] on [scaling_object_], which [fit] stores only
    on request. *)
Theorem transform_needs_scaling_object :
  forall (c : collaborators) (g : globals)
         (sd : robcent_obj -> matrix -> vec -> vec -> matrix) (X : matrix)
         (args : list vec) (kwargs : fit_kwargs) (w : world) (Xn : matrix),
    return_scaling_object (par (obj w)) = false ->
    scaling_object_ (obj w) = None ->
    let w' := fst (fit c g X args kwargs w) in
    exists e,
      transform sd Xn w' = (w', inl e) /\
      (e = AttributeError "coef_" \/ e = column_mismatch \/
       e = AttributeError "scaling_object_").
Proof.
  intros c g sd X args kwargs w Xn Hr Hs w'.
  pose proof (fit_keeps_unrequested_scaling_object c g X args kwargs w) as H.
  fold w' in H. unfold unrequested_scaling_object in H.
  rewrite Hr, Hs in H.
  destruct (return_scaling_object (par (obj w'))); [discriminate|].
  injection H as H.
  unfold transform, bind, getattr, raise. simpl.
  destruct (regression (obj w')) as [r|]; [|eauto].
  destruct (negb (ncols Xn =? nrows (coef_ r))%nat);
    [unfold column_mismatch; eauto|].
  rewrite H. eauto 6.
Qed.

Lemma fit_without_response_sets_no_coefficients_witness :
  regression (obj (mk_world (sample_self 1) [])) = None /\
  fk_y (kwargs_h_ndir_maxiter 1 3 5) = None /\
  let w' :=
    fst (fit sample_collaborators repaired_globals sample_data []
           (kwargs_h_ndir_maxiter 1 3 5) (mk_world (sample_self 1) [])) in
  regression (obj w') = None /\
  predict sample_data w' = (w', inl (AttributeError "coef_")) /\
  transform (fun _ Xn _ _ => Xn) sample_data w' =
    (w', inl (AttributeError "coef_")).
Proof.
  split; [reflexivity|split; [reflexivity|]].
  exact (fit_without_response_sets_no_coefficients sample_collaborators
           repaired_globals (fun _ Xn _ _ => Xn) sample_data
           (kwargs_h_ndir_maxiter 1 3 5) (mk_world (sample_self 1) [])
           sample_data eq_refl eq_refl).
Defined.

Lemma transform_needs_scaling_object_witness :
  return_scaling_object
    (par (obj (mk_world
                 (set_par (sample_self 1)
                    (mk_params sample_index [] 1 0 1 "mean" false false false
                       false true false false)) []))) = false /\
  scaling_object_
    (obj (mk_world
            (set_par (sample_self 1)
               (mk_params sample_index [] 1 0 1 "mean" false false false
                  false true false false)) [])) = None /\
  let w' :=
    fst (fit sample_collaborators repaired_globals sample_data
           [sample_response] (kwargs_h_ndir_maxiter 1 3 5)
           (mk_world
              (set_par (sample_self 1)
                 (mk_params sample_index [] 1 0 1 "mean" false false false
                    false true false false)) [])) in
  exists e,
    transform (fun _ Xn _ _ => Xn) sample_data w' = (w', inl e) /\
    (e = AttributeError "coef_" \/ e = column_mismatch \/
     e = AttributeError "scaling_object_").
Proof.
  split; [reflexivity|split; [reflexivity|]].
  exact (transform_needs_scaling_object sample_collaborators repaired_globals
           (fun _ Xn _ _ => Xn) sample_data [sample_response]
           (kwargs_h_ndir_maxiter 1 3 5)
           (mk_world
              (set_par (sample_self 1)
                 (mk_params sample_index [] 1 0 1 "mean" false false false
                    false true false false)) [])
           sample_data eq_refl eq_refl).
Defined.

(** ** The scores along the component loop *)











(** ** What a returning [fit] stores *)

Lemma finish_returns_scores (c : collaborators) (q : prepared)
  (l : fit_locals) (st : fit_state) (w w' : world) (T : matrix) :
  finish c q l st w = (w', inr T) ->
  T = st_T st /\
  exists a,
    components (obj w') = Some a /\ x_scores_ a = st_T st /\
    crit_values_ a = st_assovec st /\ Maxobjf_ a = st_Maxobjf st /\
    x_ev_ a = zeros (l_h l).
Proof.
  unfold finish, bind, get_self, put_self, ret, raise.
  split_runs; intros H; try discriminate; injection H as <- <-; simpl;
    (split; [reflexivity|]); eexists; repeat split; reflexivity.
Qed.

Lemma extract_component_lengths (c : collaborators) (q : prepared)
  (l : fit_locals) (ga ga2 : gp_kwargs) (i : nat) (st st' : fit_state)
  (w w' : world) :
  extract_component c q l ga ga2 i st w = (w', inr st') ->
  length (st_T st') = length (st_T st) /\
  length (st_assovec st') = length (st_assovec st) /\
  length (st_Maxobjf st') = length (st_Maxobjf st) /\
  (l_flag l = One_block -> st_assovec st' = st_assovec st).
Proof.
  unfold extract_component, bind, get_self, getattr, ret.
  destruct (component_direction _ _ _ _ _ w) as [w1 [e|d]];
    [discriminate|].
  repeat (simpl;
          match goal with
          | |- context [match ?x with _ => _ end] => destruct_inner x
          end);
    intros H; try discriminate; injection H as <- <-; simpl;
    rewrite ?set_col_length, ?set_nth_length; repeat split; auto;
    intros; congruence.
Qed.

Lemma loop_lengths (c : collaborators) (q : prepared) (l : fit_locals)
  (ga ga2 : gp_kwargs) (k a : nat) (st0 st : fit_state) (w w' : world) :
  foldM (extract_component c q l ga ga2) (seq a k) st0 w = (w', inr st) ->
  length (st_T st) = length (st_T st0) /\
  length (st_assovec st) = length (st_assovec st0) /\
  length (st_Maxobjf st) = length (st_Maxobjf st0) /\
  (l_flag l = One_block -> st_assovec st = st_assovec st0).
Proof.
  intros Hrun.
  apply (foldM_seq_inv (extract_component c q l ga ga2)
           (fun _ s =>
              length (st_T s) = length (st_T st0) /\
              length (st_assovec s) = length (st_assovec st0) /\
              length (st_Maxobjf s) = length (st_Maxobjf st0) /\
              (l_flag l = One_block -> st_assovec s = st_assovec st0)))
    with (k := k) (a := a) (s := st0) (w := w) (w' := w');
    [|exact Hrun|repeat split; reflexivity].
  intros i s w1 w2 s' Hstep (H1 & H2 & H3 & H4).
  destruct (extract_component_lengths _ _ _ _ _ _ _ _ _ _ Hstep)
    as (E1 & E2 & E3 & E4).
  repeat split; try congruence.
  intros Hfl. rewrite (E4 Hfl). now apply H4.
Qed.

(** X11.  When [fit] returns, the matrix it returns is the one it has
    stored as [x_scores_], with one column per component, [h] being
    the keyword [h] or else [n_components]; [crit_values_] and
    [Maxobjf_] have [h] entries; [x_ev_] is a vector of [h] zeros,
    which no statement of [fit] writes to; and without a response
    [crit_values_] is a vector of zeros as well. *)
Theorem fit_returns_stored_scores :
  forall (c : collaborators) (g : globals) (X : matrix) (args : list vec)
         (kwargs : fit_kwargs) (w w' : world) (T : matrix),
    fit c g X args kwargs w = (w', inr T) ->
    let h := from_option (fk_h kwargs) (n_components (par (obj w))) in
    exists a,
      components (obj w') = Some a /\ x_scores_ a = T /\ ncols T = h /\
      length (crit_values_ a) = h /\ length (Maxobjf_ a) = h /\
      x_ev_ a = zeros h /\
      (args = [] -> fk_y kwargs = None -> crit_values_ a = zeros h).
Proof.
  intros c g X args kwargs w w' T Hfit h.
  rewrite fit_unfold in Hfit.
  apply bind_inv in Hfit. destruct Hfit as (w1 & l & Hl & H).
  assert (Hh : l_h l = h)
    by (destruct (collect_arguments_flag _ _ _ _ _ Hl) as [E _]; exact E).
  apply bind_inv in H. destruct H as (w2 & [] & _ & H).
  apply bind_inv in H. destruct H as (w3 & [[X0 n] p] & _ & H).
  apply bind_inv in H. destruct H as (w4 & q & _ & H).
  apply bind_inv in H. destruct H as (w5 & ga & _ & H).
  apply bind_inv in H. destruct H as (w6 & st & Hloop & Hfin).
  apply loop_lengths in Hloop. destruct Hloop as (E1 & E2 & E3 & E4).
  apply finish_returns_scores in Hfin.
  destruct Hfin as (-> & a & Ha & HT & Hc & Hm & Hev).
  exists a. rewrite HT, Hc, Hm, Hev, Hh.
  unfold ncols. rewrite E1, E2, E3. simpl.
  rewrite zeros_matrix_length, !zeros_length, Hh.
  repeat split; auto.
  intros -> Hy. rewrite E4, Hh; [reflexivity|].
  now apply (collect_arguments_one_block kwargs w w1 l Hy).
Qed.

Lemma fit_returns_stored_scores_witness :
  exists w' T,
    fit sample_collaborators repaired_globals sample_data [sample_response]
      (kwargs_h_ndir_maxiter 2 3 5) (mk_world (sample_self 1) []) =
      (w', inr T) /\
    exists a,
      components (obj w') = Some a /\ x_scores_ a = T /\ ncols T = 2%nat /\
      length (crit_values_ a) = 2%nat /\ length (Maxobjf_ a) = 2%nat /\
      x_ev_ a = zeros 2 /\
      ([sample_response] = [] -> fk_y (kwargs_h_ndir_maxiter 2 3 5) = None ->
       crit_values_ a = zeros 2).
Proof.
  destruct (sample_fit_returns 2 ltac:(lia)) as (w' & T & Hfit).
  exists w', T. split; [exact Hfit|].
  exact (fit_returns_stored_scores _ _ _ _ _ _ _ _ Hfit).
Defined.

(** ** Uncentred data *)

Lemma preprocess_uncentred (c : collaborators) (g : globals) (X X0 : matrix)
  (n p : nat) (l : fit_locals) (w w' : world) (q : prepared) :
  preprocess c g X X0 n p l w = (w', inr q) ->
  center_data (par (obj w)) = false -> whiten_data (par (obj w)) = false ->
  (n <? p)%nat = false ->
  p_Xs q = X /\ p_p q = p /\ p_dimensions q = false /\ p_K q = None.
Proof.
  intros H Hc Hw Hnp. revert H.
  unfold preprocess, is_dicomo, pi_mode, load_global, bind, get_self,
    put_self, log, ret, raise.
  rewrite Hnp.
  split_runs; intros H; try discriminate; injection H as <- <-; simpl;
    try (repeat split; reflexivity); bool_hyps; congruence.
Qed.

Lemma check_dimensions_keeps_par (X : matrix) (h : nat) :
  keeps par (check_dimensions X h).
Proof. keeps_unfold. Qed.




(** ** [fit] returns *)

Lemma collect_arguments_locals (args : list vec) (kwargs : fit_kwargs)
  (w w1 : world) (l : fit_locals) :
  collect_arguments args kwargs w = (w1, inr l) ->
  l_y l = response args kwargs /\
  l_flag l = match response args kwargs with
             | Some _ => Two_block
             | None => One_block
             end /\
  (response args kwargs <> None ->
   l_regopt l = Some (from_option (fk_regopt kwargs) "OLS"%string)).
Proof.
  unfold collect_arguments, response, bind, get_self, put_self, ret.
  destruct (fk_h kwargs); simpl;
    destruct (fk_y kwargs) as [y|]; simpl;
    try destruct (String.eqb _ "robust");
    try destruct args as [|y0 args];
    intros H; injection H as _ <-; simpl; repeat split; congruence.
Qed.

Opaque Nat.eqb.

Lemma preprocess_no_failure (c : collaborators) (X X0 : matrix) (n p : nat)
  (l : fit_locals) (w w' : world) (e : exn) :
  String.eqb (pi_id (projection_index (par (obj w))))
    "ppdire.dicomo.dicomo" = false ->
  In (center (par (obj w))) ["mean"; "median"]%string ->
  (forall y, l_y l = Some y -> length y = n) ->
  (n <? p)%nat = false ->
  preprocess c repaired_globals X X0 n p l w = (w', inl e) -> False.
Proof.
  intros Hd Hin Hy Hnp. unfold preprocess.
  rewrite (bind_run _ _ _ _ _ (is_dicomo_repaired w)). rewrite Hd.
  unfold bind, get_self, put_self, log, ret, raise.
  rewrite Hnp.
  split_runs; intros H; try discriminate.
  all: try match goal with
           | E : (length ?y =? _)%nat = false |- _ =>
               rewrite (Hy y eq_refl), Nat.eqb_refl in E; discriminate
           end.
  all: destruct Hin as [Hm|[Hm|[]]];
    repeat match goal with
           | E : String.eqb (center _) _ = false |- _ =>
               rewrite <- Hm in E; discriminate E
           end.
Qed.

Transparent Nat.eqb.


Lemma preprocess_keeps_most (c : collaborators) (g : globals)
  (X X0 : matrix) (n p : nat) (l : fit_locals) :
  keeps most (preprocess c g X X0 n p l).
Proof. keeps_unfold. Qed.

Lemma grid_arguments_run (q : prepared) (l : fit_locals) (w : world) :
  (2 < p_p q)%nat -> (0 < l_ndir l)%nat ->
  exists ga,
    grid_arguments q l w =
      (mk_world (set_cache (obj w) (default_cache (obj w))) (trace w),
       inr ga) /\
    fit_grid_args (fst ga) (l_ndir l) /\ fit_grid_args (snd ga) (l_ndir l).
Proof.
  intros Hp Hn. apply Nat.ltb_lt in Hp.
  eexists. split; [|split].
  - unfold grid_arguments, bind, get_self, put_self, ret. simpl.
    rewrite Hp. reflexivity.
  - simpl. repeat split; try discriminate; exact Hn.
  - simpl. repeat split; try discriminate; exact Hn.
Qed.



Lemma prepare_fit_ready (c : collaborators) (X : matrix) (args : list vec)
  (kwargs : fit_kwargs) (w : world) :
  data_ready X args kwargs w ->
  exists w5 l q ga f,
    prepare_fit c repaired_globals X args kwargs w = (w5, inr (l, q, ga)) /\
    collect_arguments args kwargs w = (after_collect kwargs w, inr l) /\
    fit_world w5 f /\
    fit_grid_args (fst ga) (l_ndir l) /\ fit_grid_args (snd ga) (l_ndir l) /\
    p_Xs q = X /\ p_p q = ncols X /\ p_dimensions q = false /\
    (l_flag l = Two_block -> l_y l <> None ->
     p_y q <> None /\ p_ys q <> None).
Proof.
  intros (Hd & Hwh & Hc & Hin & Hh & Hp & Hnp & Hm & Hn & Hy).
  destruct (collect_arguments_run args kwargs w)
    as (l & Hl & Hlh & Hln & Hlm & _).
  destruct (collect_arguments_locals _ _ _ _ _ Hl) as (Hly & Hlf & Hlr).
  set (w1 := after_collect kwargs w) in *.
  assert (Hpar1 : forall {B : Type} (pr : params -> B),
            (forall h, pr (set_n_components (par (obj w)) h) =
                       pr (par (obj w))) ->
            pr (par (obj w1)) = pr (par (obj w))).
  { intros B pr H. unfold w1, after_collect.
    destruct (fk_h kwargs); [apply H|reflexivity]. }
  assert (Hd1 : String.eqb (pi_id (projection_index (par (obj w1))))
                  "ppdire.dicomo.dicomo" = false).
  { rewrite (Hpar1 _ (fun q => pi_id (projection_index q))); auto. }
  assert (Hin1 : In (center (par (obj w1))) ["mean"; "median"]%string).
  { rewrite (Hpar1 _ center); auto. }
  assert (Hwh1 : whiten_data (par (obj w1)) = false).
  { rewrite (Hpar1 _ whiten_data); auto. }
  assert (Hc1 : center_data (par (obj w1)) = false).
  { rewrite (Hpar1 _ center_data); auto. }
  pose proof (check_projection_index_repaired kwargs w1 Hd1) as Hpi.
  assert (Hh' : (l_h l <= Nat.min (nrows X) (ncols X))%nat)
    by (rewrite Hlh; exact Hh).
  pose proof (check_dimensions_run X (l_h l) w1 Hh') as Hdim.
  destruct (check_dimensions X (l_h l) w1) as [w3 r3] eqn:E3.
  injection Hdim as Hw3 ->.
  assert (Hpar3 : par (obj w3) = par (obj w1)).
  { pose proof (check_dimensions_keeps_par X (l_h l) w1) as Hk.
    now rewrite E3 in Hk. }
  assert (Hmost3 : exists f, most (obj w3) = Some f).
  { rewrite Hw3. simpl. destruct (copy _); simpl; eauto. }
  destruct Hmost3 as [f Hf3].
  assert (Hnp' : (nrows X <? ncols X)%nat = false)
    by (apply Nat.ltb_ge; exact Hnp).
  destruct (run_cases (preprocess c repaired_globals X X (nrows X) (ncols X) l)
              w3) as [(w4 & e & Hpre)|(w4 & q & Hpre)].
  { exfalso.
    apply (preprocess_no_failure c X X (nrows X) (ncols X) l w3 w4 e);
      try rewrite Hpar3; auto.
    intros y Ey. rewrite Hly in Ey. now apply Hy. }
  destruct (preprocess_uncentred _ _ _ _ _ _ _ _ _ _ Hpre)
    as (HXs & Hpp & Hdimq & _);
    try rewrite Hpar3; auto.
  assert (Hf4 : most (obj w4) = Some f).
  { pose proof (preprocess_keeps_most c repaired_globals X X (nrows X)
                  (ncols X) l w3) as Hk.
    rewrite Hpre in Hk. simpl in Hk. now rewrite Hk. }
  destruct (grid_arguments_run q l w4) as (ga & Hga & Hga1 & Hga2);
    [rewrite Hpp; exact Hp|rewrite Hln; exact Hn|].
  set (w5 := mk_world (set_cache (obj w4) (default_cache (obj w4)))
               (trace w4)) in *.
  exists w5, l, q, ga, f.
  split; [|split; [exact Hl|split; [split; [exact Hf4|reflexivity]|]]].
  - unfold prepare_fit.
    rewrite (bind_run _ _ _ _ _ Hl).
    rewrite (bind_run _ _ _ _ _ Hpi).
    rewrite (bind_run _ _ _ _ _ E3).
    cbv beta iota.
    rewrite (bind_run _ _ _ _ _ Hpre).
    rewrite (bind_run _ _ _ _ _ Hga).
    reflexivity.
  - repeat (split; [assumption|]).
    destruct (preprocess_inv _ _ _ _ _ _ _ _ _ _ Hpre) as [_ H]. exact H.
Qed.





(** ** Errors of [fit] before the component loop *)

(** X14.  In the module with [dicomo] bound and for an index other
    than [dicomo], a call of [fit] that asks for more components than
    the data have rows or columns raises [MyException] as soon as the
    index has been built: the log holds that one call more, and the
    cached bounds and the component attributes are what they were. *)
Theorem fit_rejects_too_many_components :
  forall (c : collaborators) (X : matrix) (args : list vec)
         (kwargs : fit_kwargs) (w : world),
    String.eqb (pi_id (projection_index (par (obj w))))
      "ppdire.dicomo.dicomo" = false ->
    (Nat.min (nrows X) (ncols X) <
     from_option (fk_h kwargs) (n_components (par (obj w))))%nat ->
    exists s,
      fit c repaired_globals X args kwargs w =
        (mk_world s
           (trace w ++ [Call_projection_index (pi_arguments (par (obj w)))]),
         inl (MyException
                "number of components cannot exceed number of samples")) /\
      components s = components (obj w) /\ cache s = cache (obj w).
Proof. exact dimension_check_first. Qed.

Lemma fit_rejects_too_many_components_witness :
  String.eqb
    (pi_id (projection_index (par (obj (mk_world (sample_self 1) [])))))
    "ppdire.dicomo.dicomo" = false /\
  (Nat.min (nrows sample_data) (ncols sample_data) <
   from_option (fk_h (kwargs_h 4))
     (n_components (par (obj (mk_world (sample_self 1) [])))))%nat /\
  exists s,
    fit sample_collaborators repaired_globals sample_data [] (kwargs_h 4)
      (mk_world (sample_self 1) []) =
      (mk_world s
         (trace (mk_world (sample_self 1) []) ++
          [Call_projection_index
             (pi_arguments (par (obj (mk_world (sample_self 1) []))))]),
       inl (MyException
              "number of components cannot exceed number of samples")) /\
    components s = components (obj (mk_world (sample_self 1) [])) /\
    cache s = cache (obj (mk_world (sample_self 1) [])).
Proof.
  assert (H1 : String.eqb
                 (pi_id (projection_index
                           (par (obj (mk_world (sample_self 1) [])))))
                 "ppdire.dicomo.dicomo" = false) by reflexivity.
  assert (H2 : (Nat.min (nrows sample_data) (ncols sample_data) <
                from_option (fk_h (kwargs_h 4))
                  (n_components (par (obj (mk_world (sample_self 1) [])))))%nat)
    by (unfold ncols, nrows, sample_data; simpl; lia).
  split; [exact H1|split; [exact H2|]].
  exact (fit_rejects_too_many_components sample_collaborators sample_data []
           (kwargs_h 4) (mk_world (sample_self 1) []) H1 H2).
Defined.

(** X15.  Whatever the module, the index, the collaborators and the
    arguments, [fit] returns only on data with more than two columns,
    unless the data have more columns than rows: with two columns or
    fewer the dictionary for the refiner cannot be built, so the branch
    [p == 2] of the component loop is never reached. *)
Theorem fit_returns_only_on_three_variables :
  forall (c : collaborators) (g : globals) (X : matrix) (args : list vec)
         (kwargs : fit_kwargs) (w w' : world) (T : matrix),
    fit c g X args kwargs w = (w', inr T) ->
    (ncols X <= nrows X)%nat -> (2 < ncols X)%nat.
Proof. exact fit_returns_needs_three_variables. Qed.

Lemma fit_returns_only_on_three_variables_witness :
  exists w' T,
    fit sample_collaborators repaired_globals sample_data [sample_response]
      (kwargs_h_ndir_maxiter 1 3 5) (mk_world (sample_self 1) []) =
      (w', inr T) /\
    (ncols sample_data <= nrows sample_data)%nat /\
    (2 < ncols sample_data)%nat.
Proof.
  destruct (sample_fit_returns 1 ltac:(lia)) as (w' & T & Hfit).
  assert (Hnp : (ncols sample_data <= nrows sample_data)%nat)
    by (unfold ncols, nrows, sample_data; simpl; lia).
  exists w', T. split; [exact Hfit|split; [exact Hnp|]].
  exact (fit_returns_only_on_three_variables _ _ _ _ _ _ _ _ Hfit Hnp).
Defined.

Opaque Nat.eqb.

Lemma preprocess_row_mismatch (c : collaborators) (X X0 : matrix)
  (n p : nat) (l : fit_locals) (w w' : world) (y : vec)
  (r : exn + prepared) :
  String.eqb (pi_id (projection_index (par (obj w))))
    "ppdire.dicomo.dicomo" = false ->
  In (center (par (obj w))) ["mean"; "median"]%string ->
  (n <? p)%nat = false ->
  l_flag l = Two_block -> l_y l = Some y -> length y <> n ->
  preprocess c repaired_globals X X0 n p l w = (w', r) ->
  r = inl (MyException "X and y number of rows must agree") /\
  fitted_part (obj w') = fitted_part (obj w).
Proof.
  intros Hd Hin Hnp Hfl Hy Hne. unfold preprocess.
  rewrite (bind_run _ _ _ _ _ (is_dicomo_repaired w)). rewrite Hd.
  unfold bind, get_self, put_self, log, ret, raise.
  rewrite Hnp.
  split_runs; intros H; injection H as <- <-; try discriminate;
    try (split; reflexivity).
  all: try match goal with
           | E : (length ?v =? _)%nat = true |- _ =>
               apply Nat.eqb_eq in E; congruence
           end.
  all: destruct Hin as [Hm|[Hm|[]]];
    repeat match goal with
           | E : String.eqb (center _) _ = false |- _ =>
               rewrite <- Hm in E; discriminate E
           end.
Qed.

Transparent Nat.eqb.

Lemma stage_keeps_fitted_part (X : matrix) (args : list vec)
  (kwargs : fit_kwargs) :
  keeps fitted_part (collect_arguments args kwargs) /\
  (forall h, keeps fitted_part (check_dimensions X h)).
Proof. split; intros; keeps_unfold. Qed.

(** X16.  In the module with [dicomo] bound and for an index other
    than [dicomo], a call of [fit] with a response that has not one
    entry per row of the data raises [MyException] from its
    preprocessing, before any grid is built: the cached bounds and the
    fitted attributes are what they were. *)
Theorem fit_rejects_response_of_wrong_length :
  forall (c : collaborators) (X : matrix) (args : list vec)
         (kwargs : fit_kwargs) (w : world) (y : vec),
    String.eqb (pi_id (projection_index (par (obj w))))
      "ppdire.dicomo.dicomo" = false ->
    In (center (par (obj w))) ["mean"; "median"]%string ->
    (from_option (fk_h kwargs) (n_components (par (obj w))) <=
     Nat.min (nrows X) (ncols X))%nat ->
    (ncols X <= nrows X)%nat ->
    response args kwargs = Some y -> length y <> nrows X ->
    exists w',
      fit c repaired_globals X args kwargs w =
        (w', inl (MyException "X and y number of rows must agree")) /\
      fitted_part (obj w') = fitted_part (obj w).
Proof.
  intros c X args kwargs w y Hd Hin Hh Hnp Hy Hne.
  destruct (collect_arguments_run args kwargs w) as (l & Hl & Hlh & _).
  destruct (collect_arguments_locals _ _ _ _ _ Hl) as (Hly & Hlf & _).
  rewrite Hy in Hly, Hlf.
  set (w1 := after_collect kwargs w) in *.
  assert (Hpar1 : forall {B : Type} (pr : params -> B),
            (forall h, pr (set_n_components (par (obj w)) h) =
                       pr (par (obj w))) ->
            pr (par (obj w1)) = pr (par (obj w))).
  { intros B pr H. unfold w1, after_collect.
    destruct (fk_h kwargs); [apply H|reflexivity]. }
  assert (Hd1 : String.eqb (pi_id (projection_index (par (obj w1))))
                  "ppdire.dicomo.dicomo" = false).
  { rewrite (Hpar1 _ (fun q => pi_id (projection_index q))); auto. }
  assert (Hin1 : In (center (par (obj w1))) ["mean"; "median"]%string).
  { rewrite (Hpar1 _ center); auto. }
  pose proof (check_projection_index_repaired kwargs w1 Hd1) as Hpi.
  assert (Hh' : (l_h l <= Nat.min (nrows X) (ncols X))%nat)
    by (rewrite Hlh; exact Hh).
  pose proof (check_dimensions_run X (l_h l) w1 Hh') as Hdim.
  destruct (check_dimensions X (l_h l) w1) as [w3 r3] eqn:E3.
  injection Hdim as Hw3 ->.
  assert (Hpar3 : par (obj w3) = par (obj w1)).
  { pose proof (check_dimensions_keeps_par X (l_h l) w1) as Hk.
    now rewrite E3 in Hk. }
  destruct (stage_keeps_fitted_part X args kwargs) as [K1 K2].
  assert (F1 : fitted_part (obj w1) = fitted_part (obj w)).
  { specialize (K1 w). now rewrite Hl in K1. }
  assert (F3 : fitted_part (obj w3) = fitted_part (obj w1)).
  { specialize (K2 (l_h l) w1). now rewrite E3 in K2. }
  destruct (preprocess c repaired_globals X X (nrows X) (ncols X) l w3)
    as [w4 r4] eqn:E4.
  destruct (preprocess_row_mismatch c X X (nrows X) (ncols X) l w3 w4 y r4)
    as [-> F4]; auto; try rewrite Hpar3; auto.
  { apply Nat.ltb_ge. exact Hnp. }
  exists w4. split; [|congruence].
  rewrite fit_unfold.
  rewrite (bind_run _ _ _ _ _ Hl).
  rewrite (bind_run _ _ _ _ _ Hpi).
  rewrite (bind_run _ _ _ _ _ E3).
  now rewrite (bind_fail _ _ _ _ _ E4).
Qed.

Lemma fit_rejects_response_of_wrong_length_witness :
  String.eqb
    (pi_id (projection_index (par (obj (mk_world (sample_self 1) [])))))
    "ppdire.dicomo.dicomo" = false /\
  In (center (par (obj (mk_world (sample_self 1) []))))
    ["mean"; "median"]%string /\
  (from_option (fk_h no_kwargs)
     (n_components (par (obj (mk_world (sample_self 1) [])))) <=
   Nat.min (nrows sample_data) (ncols sample_data))%nat /\
  (ncols sample_data <= nrows sample_data)%nat /\
  response [[1; 2]] no_kwargs = Some [1; 2] /\
  length [1; 2] <> nrows sample_data /\
  exists w',
    fit sample_collaborators repaired_globals sample_data [[1; 2]] no_kwargs
      (mk_world (sample_self 1) []) =
      (w', inl (MyException "X and y number of rows must agree")) /\
    fitted_part (obj w') = fitted_part (obj (mk_world (sample_self 1) [])).
Proof.
  assert (H1 : String.eqb
                 (pi_id (projection_index
                           (par (obj (mk_world (sample_self 1) [])))))
                 "ppdire.dicomo.dicomo" = false) by reflexivity.
  assert (H2 : In (center (par (obj (mk_world (sample_self 1) []))))
                 ["mean"; "median"]%string) by (left; reflexivity).
  assert (H3 : (from_option (fk_h no_kwargs)
                  (n_components (par (obj (mk_world (sample_self 1) [])))) <=
                Nat.min (nrows sample_data) (ncols sample_data))%nat)
    by (unfold ncols, nrows, sample_data; simpl; lia).
  assert (H4 : (ncols sample_data <= nrows sample_data)%nat)
    by (unfold ncols, nrows, sample_data; simpl; lia).
  assert (H5 : response [[1; 2]] no_kwargs = Some [1; 2]) by reflexivity.
  assert (H6 : length [1; 2] <> nrows sample_data)
    by (unfold nrows, sample_data; simpl; lia).
  repeat (split; [assumption|]).
  exact (fit_rejects_response_of_wrong_length sample_collaborators sample_data
           [[1; 2]] no_kwargs (mk_world (sample_self 1) []) [1; 2]
           H1 H2 H3 H4 H5 H6).
Defined.

(** ** The grid helpers and their cache *)


(** X18.  [_gridplane_2] reads the bounds that [_gridplane] caches: on
    an estimator that holds none, as one that [__init__] has just
    built, a call with a candidate matrix raises [AttributeError] on
    [_stop0c] right after it is logged. *)
Theorem refiner_needs_cached_bounds :
  forall (X : matrix) (q : R) (dv : Z) (pa : ekw) (kw : gp_kwargs)
         (a : matrix) (w : world),
    kw_alphamat kw = Some a -> cache (obj w) = None ->
    _gridplane_2 X q dv pa kw w =
      (mk_world (obj w) (trace w ++ [Call_gridplane_2 X q dv]),
       inl (AttributeError "_stop0c")).
Proof.
  intros X q dv pa kw a w Ha Hc.
  set (wa := mk_world (obj w) (trace w ++ [Call_gridplane_2 X q dv])).
  unfold _gridplane_2.
  rewrite (bind_run (log _) _ w wa tt) by reflexivity.
  rewrite (bind_run get_self _ wa wa (obj w)) by reflexivity.
  cbv beta zeta. rewrite Ha. apply bind_fail.
  unfold getattr. simpl. now rewrite Hc.
Qed.

Lemma refiner_needs_cached_bounds_witness :
  kw_alphamat (sample_grid_args 3) = Some [] /\
  cache (obj (mk_world (sample_self 1) [])) = None /\
  _gridplane_2 sample_plane 0 4 ekw_empty (sample_grid_args 3)
    (mk_world (sample_self 1) []) =
    (mk_world (obj (mk_world (sample_self 1) []))
       (trace (mk_world (sample_self 1) []) ++
        [Call_gridplane_2 sample_plane 0 4]),
     inl (AttributeError "_stop0c")).
Proof.
  split; [reflexivity|split; [reflexivity|]].
  exact (refiner_needs_cached_bounds sample_plane 0 4 ekw_empty
           (sample_grid_args 3) [] (mk_world (sample_self 1) [])
           eq_refl eq_refl).
Defined.

Lemma gridplane_inv_ready (X : matrix) (pa : ekw) (kw : gp_kwargs)
  (w w' : world) (r : vec * R) :
  _gridplane X pa kw w = (w', inr r) ->
  (exists f, most (obj w) = Some f) /\ exists a, kw_alphamat kw = Some a.
Proof.
  unfold _gridplane, measure, select_max, check_plane, getattr, log,
    get_self, put_self, bind, ret, raise.
  split_runs; intros H; try discriminate; split; eauto.
Qed.

(** X19.  A call of [_gridplane] that returns leaves the estimator
    ready for [_gridplane_2]: it has cached the four bounds computed
    from [optrange] and its scaling, and a call of [_gridplane_2] with
    the same keyword arguments on any block of two columns returns,
    leaving the estimator as it is. *)
Theorem refiner_runs_after_coarse_search :
  forall (X X2 : matrix) (q : R) (dv : Z) (kw : gp_kwargs) (w w' : world)
         (r : vec * R),
    _gridplane X ekw_empty kw w = (w', inr r) -> ncols X2 = 2%nat ->
    cache (obj w') = Some (cached_by_gridplane kw w) /\
    exists r2,
      _gridplane_2 X2 q dv ekw_empty kw w' =
        (mk_world (obj w') (trace w' ++ [Call_gridplane_2 X2 q dv]), inr r2).
Proof.
  intros X X2 q dv kw w w' r H HX2.
  destruct (gridplane_inv_ready _ _ _ _ _ _ H) as [[f Hf] [a Ha]].
  apply gridplane_inv in H.
  destruct H as (ndir & k & Hn & Hk & _ & _ & ->).
  split; [reflexivity|].
  destruct (gridplane_2_run (after_gridplane w X kw) f
              (cached_by_gridplane kw w) X2 q dv ekw_empty kw a ndir)
    as (k2 & Hrun & _); auto; try lia.
  eexists. exact Hrun.
Qed.

Lemma refiner_runs_after_coarse_search_witness :
  exists w' r,
    _gridplane sample_plane ekw_empty (sample_grid_args 3) (sample_world 1) =
      (w', inr r) /\
    ncols sample_plane = 2%nat /\
    cache (obj w') =
      Some (cached_by_gridplane (sample_grid_args 3) (sample_world 1)) /\
    exists r2,
      _gridplane_2 sample_plane 0 4 ekw_empty (sample_grid_args 3) w' =
        (mk_world (obj w') (trace w' ++ [Call_gridplane_2 sample_plane 0 4]),
         inr r2).
Proof.
  assert (Hw : fit_world (sample_world 1) (pi_new sample_index []))
    by (split; reflexivity).
  assert (Hga : fit_grid_args (sample_grid_args 3) 3)
    by (repeat split; try discriminate; lia).
  destruct (gridplane_in_fit (sample_world 1) _ _ 3 sample_plane Hw Hga
              eq_refl) as (r & Hrun & _).
  eexists _, r. split; [exact Hrun|split; [reflexivity|]].
  exact (refiner_runs_after_coarse_search sample_plane sample_plane 0 4
           (sample_grid_args 3) (sample_world 1) _ r Hrun eq_refl).
Defined.

(** ** [transform] after [fit] *)

Lemma finish_keeps_par (c : collaborators) (q : prepared) (l : fit_locals)
  (st : fit_state) :
  keeps par (finish c q l st).
Proof. keeps_unfold. Qed.

Lemma finish_stores_scaling_object (c : collaborators) (q : prepared)
  (l : fit_locals) (st : fit_state) (w w' : world) (T : matrix) :
  finish c q l st w = (w', inr T) ->
  return_scaling_object (par (obj w)) = true ->
  exists so, scaling_object_ (obj w') = Some so.
Proof.
  intros H Hr. revert H.
  unfold finish, bind, get_self, put_self, ret, raise.
  split_runs; intros H; try discriminate; injection H as <- <-; simpl;
    try congruence; eauto.
Qed.

Lemma settings_return_scaling_object (s : ppdire) :
  return_scaling_object (settings s) = return_scaling_object (par s).
Proof. unfold settings. now destruct (whiten_data (par s)). Qed.

(** X20.  After a call of [fit] with a response that returns, on an
    estimator built with [return_scaling_object = True], the attributes
    [transform] reads are all set, and [transform] on new data with as
    many columns as [coef_] has rows returns the data scaled by the
    stored scaling object with [x_loc_] and [x_sca_], times
    [x_rotations_]; on other data it raises the [ValueError] of the
    column check. *)
Theorem transform_after_fit :
  forall (c : collaborators) (g : globals) (X : matrix) (args : list vec)
         (kwargs : fit_kwargs) (w w' : world) (T : matrix),
    fit c g X args kwargs w = (w', inr T) ->
    (fk_y kwargs <> None \/ args <> []) ->
    return_scaling_object (par (obj w)) = true ->
    exists r a so,
      regression (obj w') = Some r /\ components (obj w') = Some a /\
      scaling_object_ (obj w') = Some so /\ x_scores_ a = T /\
      forall (sd : robcent_obj -> matrix -> vec -> vec -> matrix)
             (Xn : matrix),
        transform sd Xn w' =
          (w', if (ncols Xn =? nrows (coef_ r))%nat
               then inr (mat_mul (sd so Xn (x_loc_ a) (x_sca_ a))
                           (x_rotations_ a))
               else inl column_mismatch).
Proof.
  intros c g X args kwargs w w' T Hfit Hy Hr.
  pose proof (fit_settings c g X args kwargs w) as Hs.
  rewrite Hfit in Hs. cbn [fst] in Hs.
  assert (Hr' : return_scaling_object (par (obj w')) = true).
  { rewrite <- settings_return_scaling_object, Hs. simpl.
    rewrite settings_return_scaling_object. exact Hr. }
  unfold fit in Hfit.
  apply bind_inv in Hfit. destruct Hfit as (w1 & [[l q] ga] & Hprep & H).
  apply bind_inv in H. destruct H as (w2 & st & _ & Hfin).
  destruct (prepare_fit_inv _ _ _ _ _ _ _ _ _ _ Hprep) as (_ & _ & Hres).
  destruct (Hres Hy) as (Hfl & Hpy & Hpys).
  destruct (finish_regression _ _ _ _ _ _ _ Hfin Hfl Hpy Hpys)
    as (r & bi & Hreg & _).
  destruct (finish_returns_scores _ _ _ _ _ _ _ Hfin)
    as (-> & a & Ha & HT & _).
  assert (Hr2 : return_scaling_object (par (obj w2)) = true).
  { pose proof (finish_keeps_par c q l st w2) as Hk.
    rewrite Hfin in Hk. cbn [fst] in Hk. now rewrite <- Hk. }
  destruct (finish_stores_scaling_object _ _ _ _ _ _ _ Hfin Hr2)
    as [so Hso].
  exists r, a, so. repeat (split; [assumption|]).
  intros sd Xn. unfold transform, bind, getattr, ret, raise, column_mismatch.
  simpl. rewrite Hreg.
  destruct (ncols Xn =? nrows (coef_ r))%nat; simpl; [|reflexivity].
  now rewrite Hso, Ha.
Qed.

Lemma transform_after_fit_witness :
  exists w' T,
    fit sample_collaborators repaired_globals sample_data [sample_response]
      (kwargs_h_ndir_maxiter 2 3 5) (mk_world (sample_self 1) []) =
      (w', inr T) /\
    (fk_y (kwargs_h_ndir_maxiter 2 3 5) <> None \/
     [sample_response] <> []) /\
    return_scaling_object (par (obj (mk_world (sample_self 1) []))) = true /\
    exists r a so,
      regression (obj w') = Some r /\ components (obj w') = Some a /\
      scaling_object_ (obj w') = Some so /\ x_scores_ a = T /\
      forall (sd : robcent_obj -> matrix -> vec -> vec -> matrix)
             (Xn : matrix),
        transform sd Xn w' =
          (w', if (ncols Xn =? nrows (coef_ r))%nat
               then inr (mat_mul (sd so Xn (x_loc_ a) (x_sca_ a))
                           (x_rotations_ a))
               else inl column_mismatch).
Proof.
  destruct (sample_fit_returns 2 ltac:(lia)) as (w' & T & Hfit).
  assert (Hy : fk_y (kwargs_h_ndir_maxiter 2 3 5) <> None \/
               [sample_response] <> []) by (right; discriminate).
  exists w', T.
  split; [exact Hfit|split; [exact Hy|split; [reflexivity|]]].
  exact (transform_after_fit _ _ _ _ _ _ _ _ Hfit Hy eq_refl).
Defined.

(** ** [__init__] *)


(** ** The regression options *)

Lemma seq_from_first (n : nat) :
  (1 <= n)%nat -> seq 0 n = 0%nat :: seq 1 (n - 1).
Proof.
  destruct n as [|n]; [lia|]. intros _. simpl. now rewrite Nat.sub_0_r.
Qed.

Lemma regress_unbound (c : collaborators) (l : fit_locals) (scale : string)
  (y ys ti : vec) (w : world) (regopt : string) :
  l_regopt l = Some regopt -> String.eqb regopt "OLS" = false ->
  l_fun l = None -> l_quantile l = None ->
  regress c l scale y ys ti w = (w, inl (regression_error regopt)).
Proof.
  intros Hr Hols Hfun Hq.
  unfold regress, regression_error, bind, get_self, raise.
  rewrite Hr, Hols, Hfun, Hq.
  destruct (String.eqb regopt "robust"); [reflexivity|].
  destruct (String.eqb regopt "quantile"); reflexivity.
Qed.

Lemma collect_arguments_positional (y : vec) (rest : list vec)
  (kwargs : fit_kwargs) (w w1 : world) (l : fit_locals) :
  fk_y kwargs = None ->
  collect_arguments (y :: rest) kwargs w = (w1, inr l) ->
  l_flag l = Two_block /\ l_y l = Some y /\ l_fun l = None /\
  l_quantile l = None /\
  l_regopt l = Some (from_option (fk_regopt kwargs) "OLS"%string).
Proof.
  intros Hy. unfold collect_arguments, bind, get_self, put_self, ret.
  rewrite Hy. destruct (fk_h kwargs); simpl; intros H;
    injection H as _ <-; repeat split.
Qed.

(** X22.  A response passed by position can only be regressed by least
    squares.  On a call that reaches the component loop with at least
    one component to extract, a response as first positional argument
    and an option [regopt] other than ['OLS'], [fit] raises
    [UnboundLocalError] in the first pass of the loop: on [fun] for
    ['robust'] and on [quantile] for ['quantile'], which are bound only
    when the response is the keyword [y], and on [ci] for any other
    option. *)
Theorem fit_positional_response_needs_least_squares :
  forall (c : collaborators) (X : matrix) (y : vec) (rest : list vec)
         (kwargs : fit_kwargs) (w : world) (regopt : string),
    data_ready X (y :: rest) kwargs w ->
    fk_y kwargs = None -> fk_regopt kwargs = Some regopt ->
    String.eqb regopt "OLS" = false ->
    (1 <= from_option (fk_h kwargs) (n_components (par (obj w))))%nat ->
    exists w',
      fit c repaired_globals X (y :: rest) kwargs w =
        (w', inl (regression_error regopt)).
Proof.
  intros c X y rest kwargs w regopt Hready Hy Hro Hols Hh.
  destruct (prepare_fit_ready c X (y :: rest) kwargs w Hready)
    as (w5 & l & q & ga & f & Hprep & Hl & Hw5 & Hga1 & Hga2 & HXs & Hpp
        & Hdimq & Hpy).
  destruct Hready as (_ & _ & _ & _ & _ & Hp & _ & Hm & _).
  destruct (collect_arguments_run (y :: rest) kwargs w)
    as (l0 & Hl0 & Hlh & _ & Hlm & _).
  rewrite Hl in Hl0. injection Hl0 as <-.
  destruct (collect_arguments_positional _ _ _ _ _ _ Hy Hl)
    as (Hfl & Hly & Hfun & Hq & Hreg).
  rewrite Hro in Hreg. simpl in Hreg.
  destruct (Hpy Hfl) as [Hy1 Hy2]; [congruence|].
  destruct (p_y q) as [y1|] eqn:Ey1; [|congruence].
  destruct (p_ys q) as [ys|] eqn:Eys; [|congruence].
  set (st := initial_state q (l_h l)).
  assert (HE : (2 <= length (st_E st))%nat)
    by (simpl; rewrite HXs; unfold ncols in Hp; lia).
  destruct (pairwise_reducer_run w5 f (fst ga) (snd ga) (l_ndir l) (l_ndir l)
              (st_E st) (p_p q) (l_maxiter l) Hw5 Hga1 Hga2 HE
              ltac:(rewrite Hlm; exact Hm))
    as (s' & evs & Hrun & _).
  set (wa := mk_world (obj w5) (trace w5 ++ evs)) in *.
  assert (Hdir : component_direction (p_p q) (l_maxiter l) (st_E st) (fst ga)
                   (snd ga) w5 =
                 (wa, inr (afin (red s'), Some (objf s')))).
  { unfold component_direction.
    destruct (p_p q =? 2)%nat eqn:E2; [apply Nat.eqb_eq in E2; lia|].
    destruct (2 <? p_p q)%nat eqn:E3; [|apply Nat.ltb_ge in E3; lia].
    now rewrite (bind_run _ _ _ _ _ Hrun). }
  assert (Hstep : extract_component c q l (fst ga) (snd ga) 0 st w5 =
                  (wa, inl (regression_error regopt))).
  { unfold extract_component. rewrite (bind_run _ _ _ _ _ Hdir).
    cbv beta zeta.
    rewrite (bind_run get_self _ wa wa (obj w5)) by reflexivity.
    rewrite Hfl. cbv beta iota. rewrite bind_assoc.
    destruct Hw5 as [Hf _].
    rewrite (bind_run (getattr _ most) _ wa wa f)
      by (unfold getattr; simpl; now rewrite Hf).
    rewrite (bind_run (ret _) _ wa wa _ eq_refl).
    rewrite Ey1, Eys.
    apply bind_fail. now apply regress_unbound. }
  exists wa. unfold fit.
  rewrite (bind_run _ _ _ _ _ Hprep). cbv beta iota.
  apply bind_fail.
  rewrite (seq_from_first (l_h l)) by (rewrite Hlh; exact Hh).
  cbn [foldM]. apply bind_fail. exact Hstep.
Qed.

Lemma fit_positional_response_needs_least_squares_witness :
  data_ready sample_data [sample_response]
    (mk_fit_kwargs None (Some 1%nat) None (Some 3%nat) (Some 5%Z) None None
       None (Some "robust"%string) None None None None None None)
    (mk_world (sample_self 1) []) /\
  (1 <= 1)%nat /\
  exists w',
    fit sample_collaborators repaired_globals sample_data [sample_response]
      (mk_fit_kwargs None (Some 1%nat) None (Some 3%nat) (Some 5%Z) None None
         None (Some "robust"%string) None None None None None None)
      (mk_world (sample_self 1) []) =
      (w', inl (regression_error "robust")).
Proof.
  assert (H : data_ready sample_data [sample_response]
                (mk_fit_kwargs None (Some 1%nat) None (Some 3%nat) (Some 5%Z)
                   None None None (Some "robust"%string) None None None None
                   None None)
                (mk_world (sample_self 1) [])).
  { unfold data_ready. cbv zeta.
    split; [reflexivity|split; [reflexivity|split; [reflexivity|]]].
    split; [left; reflexivity|].
    unfold ncols, nrows, sample_data. simpl.
    repeat split; try lia.
    intros y Hy. injection Hy as <-. reflexivity. }
  assert (H1 : (1 <= 1)%nat) by lia.
  split; [exact H|split; [exact H1|]].
  exact (fit_positional_response_needs_least_squares sample_collaborators
           sample_data sample_response [] _ (mk_world (sample_self 1) [])
           "robust" H eq_refl eq_refl eq_refl H1).
Defined.
